(** * Verification of [scripts/svn_copy_and_commit.py]

    A shallow embedding of the synchronisation script: the portable tree
    mirror (the two [os.walk] loops of [main]), the status-XML reader, the
    commit gate and the orchestration of the external [svn] commands. *)

From Stdlib Require Import ZArith Ascii.
From stdpp Require Import gmap strings list fin_maps.


(** ** Exceptions raised by the script and by the library calls it makes *)

Inductive exn :=
  | SystemExit (code : Z)
  | CalledProcessError (returncode : Z) (cmd : list string)
  | FileNotFoundError
  | FileExistsError
  | NotADirectoryError
  | IsADirectoryError
  | ParseError
  | TypeError
  | PermissionError
  | OSError (errno : Z).

(** ** The file trees

    The script touches two directory trees: the one rooted at [source_path]
    and the working copy rooted at [wc_root].  Each is a finite map from
    paths relative to its root (the list of path components, [[]] being the
    root itself) to what is found there.  [data] stands for what
    [shutil.copy2] transfers: the content of the file together with its
    timestamps. *)

Inductive entry :=
  | File (data : string)
  | Dir.

#[global] Instance entry_eq_dec : EqDecision entry.
Proof. solve_decision. Defined.

Abbreviation tree := (gmap (list string) entry).

Module Mirror.

(** Outcome of a sequence of file operations: the tree reached, and the
    exception that interrupted the sequence when there is one.  Nothing is
    rolled back when an exception is raised. *)
Inductive result :=
  | Ok (t : tree)
  | Raise (e : exn) (t : tree).

Definition and_then (r : result) (k : tree → result) : result :=
  match r with
  | Ok t => k t
  | Raise e t => Raise e t
  end.

(** [for x in l: body(x)] over the tree. *)
Fixpoint for_each {A : Type} (body : A → tree → result) (l : list A) (t : tree) : result :=
  match l with
  | [] => Ok t
  | x :: l' => and_then (body x t) (for_each body l')
  end.

(** [os.path.exists] *)
Definition exists_ (t : tree) (p : list string) : bool :=
  bool_decide (is_Some (t !! p)).

(** The name under which [q] is listed in directory [p], when it is one of
    its direct children. *)
Definition child_name (p q : list string) : option string :=
  match last q with
  | Some n => if decide (q = p ++ [n]) then Some n else None
  | None => None
  end.

(** [os.scandir(p)]: the entries of directory [p]; [None] stands for the
    [OSError] that [os.walk] ignores. *)
Definition listing (t : tree) (p : list string) : list (string * entry) :=
  omap (λ qe, (λ n, (n, qe.2)) <$> child_name p qe.1) (map_to_list t).

Definition scandir (t : tree) (p : list string) : option (list (string * entry)) :=
  match t !! p with
  | Some Dir => Some (listing t p)
  | _ => None
  end.

(** The [dirs] and [files] lists that [os.walk] yields for a directory. *)
Definition dirs_of (ents : list (string * entry)) : list string :=
  omap (λ ne, match ne.2 with Dir => Some ne.1 | File _ => None end) ents.

Definition files_of (ents : list (string * entry)) : list string :=
  omap (λ ne, match ne.2 with File _ => Some ne.1 | Dir => None end) ents.

(** [os.remove(p)] *)
Definition os_remove (p : list string) (t : tree) : result :=
  match t !! p with
  | Some (File _) => Ok (delete p t)
  | Some Dir => Raise IsADirectoryError t
  | None => Raise FileNotFoundError t
  end.

(** [shutil.rmtree(p, ignore_errors=True)]: a directory goes with all that
    is below it; on anything else the error is ignored and nothing changes. *)
Definition rmtree_ignore_errors (p : list string) (t : tree) : tree :=
  match t !! p with
  | Some Dir => filter (λ qe, ¬ p `prefix_of` qe.1) t
  | _ => t
  end.

(** [os.makedirs(p, exist_ok=True)]: every missing directory on the way to
    [p] is created; an existing directory is accepted, a file is not. *)
Definition mkdir_exist_ok (final : bool) (q : list string) (t : tree) : result :=
  match t !! q with
  | Some Dir => Ok t
  | Some (File _) => Raise (if final then FileExistsError else NotADirectoryError) t
  | None => Ok (<[q := Dir]> t)
  end.

Fixpoint makedirs_from (pre rest : list string) (t : tree) : result :=
  match rest with
  | [] => mkdir_exist_ok true pre t
  | n :: rest' => and_then (mkdir_exist_ok false pre t) (makedirs_from (pre ++ [n]) rest')
  end.

Definition makedirs (p : list string) (t : tree) : result :=
  makedirs_from [] p t.

(** [shutil.copy2(src_file, dst)]: when [dst] is a directory the file goes
    inside it under its own base name. *)
Definition basename (p : list string) : string := default "" (last p).

Definition copy2 (src : tree) (sp dp : list string) (t : tree) : result :=
  match src !! sp with
  | Some (File data) =>
      let dst := match t !! dp with
                 | Some Dir => dp ++ [basename sp]
                 | _ => dp
                 end in
      match t !! dst with
      | Some Dir => Raise IsADirectoryError t
      | _ =>
          match t !! removelast dst with
          | Some Dir => Ok (<[dst := File data]> t)
          | Some (File _) => Raise NotADirectoryError t
          | None => Raise FileNotFoundError t
          end
      end
  | Some Dir => Raise IsADirectoryError t
  | None => Raise FileNotFoundError t
  end.

(** *** The deletion pass (first loop of the portable branch, lines 106-125)

    [delete_extras] is the body of the loop for one directory [rel] of the
    working copy, given the [dirs] and [files] lists that [os.walk] yielded
    for it. *)
Definition delete_extras (src : tree) (rel : list string)
    (dirs files : list string) (t : tree) : result :=
  and_then
    (for_each (λ f t,
       if exists_ src (rel ++ [f]) then Ok t else os_remove (rel ++ [f]) t) files t)
    (for_each (λ d t,
       if exists_ src (rel ++ [d]) then Ok t
       else Ok (rmtree_ignore_errors (rel ++ [d]) t)) dirs).

(** [os.walk(wc_root)], top down, with the loop body run at every directory
    before its subdirectories are read.  [fuel] bounds the depth. *)
Fixpoint walk_delete (fuel : nat) (src : tree) (rel : list string) (t : tree) : result :=
  match fuel with
  | O => Ok t
  | S fuel' =>
      match scandir t rel with
      | None => Ok t
      | Some ents =>
          let dirs := dirs_of ents in
          let files := files_of ents in
          let dirs := if decide (rel = []) then filter (λ d, d ≠ ".svn") dirs else dirs in
          and_then (delete_extras src rel dirs files t)
                   (for_each (λ d, walk_delete fuel' src (rel ++ [d])) dirs)
      end
  end.

(** *** The copy pass (second loop of the portable branch, lines 126-132) *)
Fixpoint walk_copy (fuel : nat) (src : tree) (rel : list string) (t : tree) : result :=
  match fuel with
  | O => Ok t
  | S fuel' =>
      match scandir src rel with
      | None => Ok t
      | Some ents =>
          and_then
            (and_then (makedirs rel t)
               (for_each (λ f, copy2 src (rel ++ [f]) (rel ++ [f])) (files_of ents)))
            (for_each (λ d, walk_copy fuel' src (rel ++ [d])) (dirs_of ents))
      end
  end.

(** Length of the longest path of a tree. *)
Definition height (t : tree) : nat :=
  max_list (length <$> (map_to_list t).*1).

Definition delete_pass (src t : tree) : result :=
  walk_delete (S (height t)) src [] t.

Definition copy_pass (src t : tree) : result :=
  walk_copy (S (height src)) src [] t.

(** The portable branch of the mirror step. *)
Definition mirror (src t : tree) : result :=
  and_then (delete_pass src t) (copy_pass src).

End Mirror.


(** ** Shape of a file tree *)

(** Every entry of a tree lies in a directory of the tree. *)
Definition wf (t : tree) : Prop :=
  ∀ q n, is_Some (t !! (q ++ [n])) → t !! q = Some Dir.

(** [q] lies strictly below [rel]. *)
Definition below (rel q : list string) : Prop :=
  rel `prefix_of` q ∧ rel ≠ q.

(** [q] is the metadata directory of the working copy or lies inside it. *)
Definition svn_protected (t : tree) (q : list string) : Prop :=
  [".svn"] `prefix_of` q ∧ t !! [".svn"] = Some Dir.

(** What the deletion pass started at [rel] has to take away. *)
Definition extra (src t : tree) (rel q : list string) : Prop :=
  below rel q ∧ src !! q = None ∧ ¬ svn_protected t q.

(** No path is a file in one tree and a directory in the other. *)
Definition no_kind_clash (src t : tree) : Prop :=
  ∀ q, match src !! q, t !! q with
       | Some Dir, Some (File _) | Some (File _), Some Dir => False
       | _, _ => True
       end.

(** ** Python strings

    A [str] is modelled by a [string] whose characters are the code points
    below 256. *)

(** [str.isspace] on one character. *)
Definition isspace (c : ascii) : bool :=
  let n := nat_of_ascii c in
  ((9 <=? n) && (n <=? 13)) || ((28 <=? n) && (n <=? 32))
  || (n =? 133) || (n =? 160).

Fixpoint lstrip (s : string) : string :=
  match s with
  | EmptyString => EmptyString
  | String c s' => if isspace c then lstrip s' else s
  end.

Fixpoint rstrip (s : string) : string :=
  match s with
  | EmptyString => EmptyString
  | String c s' =>
      match rstrip s' with
      | EmptyString => if isspace c then EmptyString else String c EmptyString
      | r => String c r
      end
  end.

(** [s.strip()] *)
Definition strip (s : string) : string := rstrip (lstrip s).

(** The text is made of whitespace only. *)
Fixpoint blank (s : string) : bool :=
  match s with
  | EmptyString => true
  | String c s' => isspace c && blank s'
  end.

(** Truth value of a [str], and of a value that is a [str] or [None]. *)
Definition truthy_str (s : string) : bool := bool_decide (s ≠ "").

Definition truthy (o : option string) : bool :=
  match o with
  | Some s => truthy_str s
  | None => false
  end.

(** [o or d] for a value that is a [str] or [None]. *)
Definition or_else (o : option string) (d : string) : string :=
  match o with
  | Some s => if truthy_str s then s else d
  | None => d
  end.

Definition nl : string := String (ascii_of_nat 10) EmptyString.

(** ** The status document ([xml.etree.ElementTree]) *)

Module Xml.

Inductive element :=
  | Element (tag : string) (attrib : gmap string string) (children : list element).

Definition tag (e : element) : string :=
  match e with Element t _ _ => t end.

Definition attrib (e : element) : gmap string string :=
  match e with Element _ a _ => a end.

Definition children (e : element) : list element :=
  match e with Element _ _ cs => cs end.

(** [e.iter()]: the element and all that is below it, in document order. *)
Fixpoint iter (e : element) : list element :=
  match e with
  | Element _ _ cs => e :: flat_map iter cs
  end.

(** [root.findall(".//" + name)]: the elements with that tag on all levels
    beneath [root], in document order. *)
Definition findall_descendants (name : string) (root : element) : list element :=
  filter (λ e, tag e = name) (flat_map iter (children root)).

(** [e.find(name)]: the first child with that tag. *)
Definition find (name : string) (e : element) : option element :=
  List.find (λ c, bool_decide (tag c = name)) (children e).

(** [e.get(key)] and [e.get(key, default)] *)
Definition get (e : element) (key : string) : option string :=
  attrib e !! key.

Definition get_default (e : element) (key dflt : string) : string :=
  default dflt (attrib e !! key).

(** One turn of the loop of [parse_missing_paths_from_svn_status_xml]. *)
Definition missing_step (missing : list string) (entry : element) : list string :=
  match find "wc-status" entry with
  | Some wcstatus =>
      if decide (get_default wcstatus "item" "" = "missing") then
        match get entry "path" with
        | Some path => if truthy_str path then missing ++ [path] else missing
        | None => missing
        end
      else missing
  | None => missing
  end.

(** The loop over [root.findall(".//entry")], started with [missing = []]. *)
Definition missing_paths (root : element) : list string :=
  fold_left missing_step (findall_descendants "entry" root) [].

(** [e] lies on some level beneath [r]. *)
Inductive descendant : element → element → Prop :=
  | descendant_child r c : c ∈ children r → descendant r c
  | descendant_deeper r c e : c ∈ children r → descendant c e → descendant r e.

(** The item state that the loop reads off an entry: the [item] attribute
    of its first [wc-status] child. *)
Definition item_state (entry : element) : option string :=
  (λ wcstatus, get_default wcstatus "item" "") <$> find "wc-status" entry.

(** The path that one turn of the loop appends, if any. *)
Definition appended (entry : element) : option string :=
  match item_state entry, get entry "path" with
  | Some item, Some path =>
      if decide (item = "missing" ∧ path ≠ "") then Some path else None
  | _, _ => None
  end.

(** The status document of the counterexample: one entry in state
    [missing] whose [path] attribute is empty. *)
Definition empty_path_status : element :=
  Element "status" ∅
    [Element "target" {[ "path" := "." ]}
       [Element "entry" {[ "path" := "" ]}
          [Element "wc-status" {[ "item" := "missing" ]} []]]].

End Xml.

(** ** The world the script runs in *)

(** What the script can observe and change: the environment, the platform,
    the clock, the two file trees, and the rest ([ext]: the repository,
    the state of the external tools). *)
Record World (Ext : Type) := mkWorld {
  environ : gmap string string;
  os_name : string;
  gettempdir : string;
  now : string → string;
  source_tree : tree;
  wc_tree : tree;
  ext : Ext
}.
Arguments mkWorld {Ext}.
Arguments environ {Ext}.
Arguments os_name {Ext}.
Arguments gettempdir {Ext}.
Arguments now {Ext}.
Arguments source_tree {Ext}.
Arguments wc_tree {Ext}.
Arguments ext {Ext}.

Definition set_wc_tree {Ext : Type} (t : tree) (w : World Ext) : World Ext :=
  mkWorld (environ w) (os_name w) (gettempdir w) (now w) (source_tree w) t (ext w).

(** Why a process could not be started: the executable is not found, it
    may not be executed, or the operating system refuses for another
    reason.  [subprocess.run] then raises the [OSError] that goes with
    it. *)
Inductive start_failure :=
  | NotFound
  | NotPermitted
  | OtherFailure (errno : Z).

Definition raised_on_start (f : start_failure) : exn :=
  match f with
  | NotFound => FileNotFoundError
  | NotPermitted => PermissionError
  | OtherFailure errno => OSError errno
  end.

(** What becomes of a process that the script starts: it ends with an
    exit status, having written [out] on its standard output and left
    the world [w], or it could not be started. *)
Inductive spawned (Ext : Type) :=
  | Exited (rc : Z) (out : string) (w : World Ext)
  | NotStarted (f : start_failure).
Arguments Exited {Ext}.
Arguments NotStarted {Ext}.

(** The library and operating-system services the script calls.

    [spawn cmd cwd w] starts the external process.
    [fromstring] is [ET.fromstring], [None] standing for [ParseError].
    [path_join] is [os.path.join]. *)
Class Externals (Ext : Type) := {
  spawn : list string → option string → World Ext → spawned Ext;
  fromstring : string → option Xml.element;
  path_join : string → string → string
}.

(** What an observer of a run sees. *)
Inductive event :=
  | Print (text : string)
  | Exec (cmd : list string) (cwd : option string) (outcome : option (Z * string)).

Record CompletedProcess := {
  returncode : Z;
  stdout : option string
}.

(** Configuration read from the environment at the start of [main]. *)
Record Config := {
  source_path : string;
  svn_url : string;
  svn_username : option string;
  svn_password : option string;
  commit_msg : string
}.

Section monad.
Context {Ext : Type}.

(** A computation: from a world to an outcome (a value or the exception
    raised), the world reached, and the events emitted on the way. *)
Definition M (A : Type) : Type :=
  World Ext → (exn + A) * World Ext * list event.

Definition ret {A : Type} (a : A) : M A := λ w, (inr a, w, []).

Definition bind {A B : Type} (m : M A) (k : A → M B) : M B := λ w,
  match m w with
  | (inl e, w1, t1) => (inl e, w1, t1)
  | (inr a, w1, t1) =>
      match k a w1 with
      | (r, w2, t2) => (r, w2, t1 ++ t2)
      end
  end.

Definition raise {A : Type} (e : exn) : M A := λ w, (inl e, w, []).

Definition print (text : string) : M unit := λ w, (inr tt, w, [Print text]).

Definition ask {A : Type} (f : World Ext → A) : M A := λ w, (inr (f w), w, []).

(** [try: m except Exception as e: h(e)]; [SystemExit] is not an
    [Exception]. *)
Definition try_except {A : Type} (m : M A) (h : exn → M A) : M A := λ w,
  match m w with
  | (inl (SystemExit c), w1, t1) => (inl (SystemExit c), w1, t1)
  | (inl e, w1, t1) =>
      match h e w1 with
      | (r, w2, t2) => (r, w2, t1 ++ t2)
      end
  | (inr a, w1, t1) => (inr a, w1, t1)
  end.

(** A file operation on the working copy. *)
Definition on_wc (f : tree → Mirror.result) : M unit := λ w,
  match f (wc_tree w) with
  | Mirror.Ok t => (inr tt, set_wc_tree t w, [])
  | Mirror.Raise e t => (inl e, set_wc_tree t w, [])
  end.

Fixpoint for_M {A : Type} (body : A → M unit) (l : list A) : M unit :=
  match l with
  | [] => ret tt
  | x :: l' => bind (body x) (λ _, for_M body l')
  end.

End monad.
Arguments M Ext A : clear implicits.

Notation "'do' x <- m ; k" := (bind m (λ x, k))
  (at level 10, x name, m at level 100, k at level 200, only parsing).
Notation "'do' ' pat <- m ; k" := (bind m (λ x, match x with pat => k end))
  (at level 10, pat pattern, m at level 100, k at level 200, only parsing).
Notation "m ;;; k" := (bind m (λ _, k))
  (at level 100, right associativity, only parsing).

Section script.
Context {Ext : Type} `{!Externals Ext}.

(** [subprocess.run(cmd, cwd=cwd, check=check, text=True,
    capture_output=capture)] *)
Definition subprocess_run (cmd : list string) (cwd : option string)
    (check capture : bool) : M Ext CompletedProcess := λ w,
  match spawn cmd cwd w with
  | NotStarted f => (inl (raised_on_start f), w, [Exec cmd cwd None])
  | Exited rc out w' =>
      if check && negb (rc =? 0)%Z
      then (inl (CalledProcessError rc cmd), w', [Exec cmd cwd (Some (rc, out))])
      else (inr {| returncode := rc; stdout := if capture then Some out else None |},
            w', [Exec cmd cwd (Some (rc, out))])
  end.

(** [run] (lines 9-18): the line it prints, then the command. *)
Definition banner (cmd : list string) (cwd : option string) : string :=
  "> " +:+ String.concat " " cmd +:+
  (if truthy cwd then "  (cwd=" +:+ default "" cwd +:+ ")" else "").

Definition run (cmd : list string) (cwd : option string)
    (check capture : bool) : M Ext CompletedProcess :=
  print (banner cmd cwd) ;;;
  subprocess_run cmd cwd check capture.

(** [ensure_tool] (lines 20-26) *)
Definition ensure_tool (name : string) : M Ext unit :=
  try_except
    (run [name; "--version"] None true false ;;; ret tt)
    (λ e, print ("ERROR: Required tool not found: " +:+ name) ;;; raise e).

(** [get_env] (lines 28-33) *)
Definition get_env (name : string) (dflt : option string) (required : bool)
    : M Ext (option string) :=
  do env <- ask environ ;
  let val := match env !! name with Some v => Some v | None => dflt end in
  if required && negb (truthy val)
  then print ("ERROR: Missing required environment variable: " +:+ name) ;;;
       raise (SystemExit 1)
  else ret val.

(** [parse_missing_paths_from_svn_status_xml] (lines 35-48); its loop is
    [Xml.missing_paths]. *)
Definition parse_missing_paths_from_svn_status_xml (wc_root : string)
    : M Ext (list string) :=
  do cp <- run ["svn"; "status"; "--xml"] (Some wc_root) true true ;
  match stdout cp with
  | None => raise TypeError
  | Some out =>
      match fromstring out with
      | None => raise ParseError
      | Some root => ret (Xml.missing_paths root)
      end
  end.

(** [get_pending_status] (lines 50-54) *)
Definition get_pending_status (wc_root : string) : M Ext (string * bool) :=
  do cp <- run ["svn"; "status"] (Some wc_root) true true ;
  match stdout cp with
  | None => raise TypeError
  | Some out => let text := strip out in ret (text, truthy_str text)
  end.

(** The optional credentials appended to the checkout command (lines
    87-88) and to the commit command (lines 154-155). *)
Definition with_credentials (cfg : Config) (cmd : list string) : list string :=
  if truthy (svn_username cfg) && truthy (svn_password cfg)
  then cmd ++ ["--username"; default "" (svn_username cfg);
               "--password"; default "" (svn_password cfg); "--no-auth-cache"]
  else cmd.

(** [main] (lines 56-159), in the order of its source.  First the
    configuration read from the environment (lines 58-63). *)
Definition read_configuration : M Ext Config :=
  do source_path <- get_env "SOURCE_PATH" None true ;
  do svn_url <- get_env "SVN_URL" None true ;
  do svn_username <- get_env "SVN_USERNAME" None false ;
  do svn_password <- get_env "SVN_PASSWORD" None false ;
  do message <- get_env "COMMIT_MESSAGE" None false ;
  do env <- ask environ ;
  do stamp <- ask (λ w, now w "%Y-%m-%d %H:%M:%S") ;
  ret {| source_path := default "" source_path;
         svn_url := default "" svn_url;
         svn_username := svn_username;
         svn_password := svn_password;
         commit_msg :=
           or_else message
             ("Automated sync from " +:+ default "unknown" (env !! "COMPUTERNAME")
              +:+ " at " +:+ stamp) |}.

(** Validation of the source, the tool check, and the fresh working-copy
    directory (lines 65-82); the result is [wc_root]. *)
Definition prepare_working_copy (cfg : Config) : M Ext string :=
  do src <- ask source_tree ;
  (if Mirror.exists_ src []
   then ret tt
   else print ("ERROR: Source path not found: " +:+ source_path cfg) ;;;
        raise (SystemExit 1)) ;;;
  ensure_tool "svn" ;;;
  do name <- ask os_name ;
  (if decide (name = "nt") then ret tt
   else print "WARNING: Non-Windows OS detected; falling back to Python copy (slower).") ;;;
  do env <- ask environ ;
  do tmp <- ask gettempdir ;
  do stamp <- ask (λ w, now w "%Y%m%d-%H%M%S") ;
  let runner_temp := or_else (env !! "RUNNER_TEMP") tmp in
  let wc_root := path_join runner_temp ("svn-wc-" +:+ stamp) in
  on_wc (Mirror.makedirs []) ;;;
  print ("Working copy root: " +:+ wc_root) ;;;
  ret wc_root.

(** Checkout and update (lines 84-92). *)
Definition checkout_and_update (cfg : Config) (wc_root : string) : M Ext unit :=
  run (with_credentials cfg
         ["svn"; "checkout"; svn_url cfg; wc_root;
          "--non-interactive"; "--trust-server-cert"]) None true false ;;;
  run ["svn"; "update"] (Some wc_root) true false ;;;
  ret tt.

(** The mirror step (lines 94-132): [robocopy] on Windows, the two walks
    of [Mirror.mirror] elsewhere. *)
Definition copy_into_working_copy (cfg : Config) (wc_root : string) : M Ext unit :=
  do name <- ask os_name ;
  if decide (name = "nt") then
    run ["robocopy"; source_path cfg; wc_root; "/MIR"; "/XD"; ".svn";
         "/MT:8"; "/R:2"; "/W:2"; "/NFL"; "/NDL"; "/NP"] None false false ;;;
    ret tt
  else
    do src <- ask source_tree ;
    on_wc (Mirror.mirror src).

Definition rm_cmd (p : string) : list string := ["svn"; "rm"; "--force"; p].

Definition add_cmd : list string :=
  ["svn"; "add"; "--force"; "."; "--auto-props"; "--parents";
   "--depth"; "infinity"; "--no-ignore"].

(** The scheduled deletes and the broad add (lines 134-141). *)
Definition reconcile (wc_root : string) : M Ext unit :=
  do missing_paths <- parse_missing_paths_from_svn_status_xml wc_root ;
  for_M (λ p,
    print ("Scheduling delete: " +:+ p) ;;;
    run (rm_cmd p) (Some wc_root) true false ;;;
    ret tt) missing_paths ;;;
  run add_cmd (Some wc_root) true false ;;;
  ret tt.

Definition commit_cmd (cfg : Config) : list string :=
  with_credentials cfg
    ["svn"; "commit"; "-m"; commit_msg cfg; "--non-interactive"; "--trust-server-cert"].

(** The status summary, the gate and the commit (lines 143-159). *)
Definition commit_if_changed (cfg : Config) (wc_root : string) : M Ext unit :=
  do ' (status_text, has_changes) <- get_pending_status wc_root ;
  print (nl +:+ "SVN status after add/rm:" +:+ nl +:+
         (if truthy_str status_text then status_text else "(no changes)")) ;;;
  if negb has_changes then
    print "No changes detected. Skipping commit."
  else
    run (commit_cmd cfg) (Some wc_root) true false ;;;
    print (nl +:+ "Commit finished successfully.").

Definition main : M Ext unit :=
  do cfg <- read_configuration ;
  do wc_root <- prepare_working_copy cfg ;
  checkout_and_update cfg wc_root ;;;
  copy_into_working_copy cfg wc_root ;;;
  reconcile wc_root ;;;
  commit_if_changed cfg wc_root.

End script.

(** ** Vocabulary for the traces of a run *)

(** The two events of a call of [run]. *)
Definition ran (cmd : list string) (cwd : option string)
    (o : option (Z * string)) : list event :=
  [Print (banner cmd cwd); Exec cmd cwd o].

(** An event that is not the execution of a command. *)
Definition no_cmd (e : event) : Prop :=
  match e with
  | Print _ => True
  | Exec _ _ _ => False
  end.

(** The event is an execution of [svn verb ...]. *)
Definition runs (verb : string) (e : event) : bool :=
  match e with
  | Exec (tool :: v :: _) _ _ => bool_decide (tool = "svn" ∧ v = verb)
  | _ => false
  end.

Definition status_xml_cmd : list string := ["svn"; "status"; "--xml"].
Definition status_cmd : list string := ["svn"; "status"].

Definition checkout_cmd (cfg : Config) (wc_root : string) : list string :=
  with_credentials cfg
    ["svn"; "checkout"; svn_url cfg; wc_root; "--non-interactive"; "--trust-server-cert"].

(** The events of the stages that come before the reconciliation. *)
Definition setup_event (cfg : Config) (wc_root : string) (e : event) : Prop :=
  no_cmd e
  ∨ (∃ o, e = Exec ["svn"; "--version"] None o)
  ∨ (∃ o, e = Exec (checkout_cmd cfg wc_root) None o)
  ∨ (∃ o, e = Exec ["svn"; "update"] (Some wc_root) o)
  ∨ (∃ cmd o, e = Exec ("robocopy" :: cmd) None o).

Definition rm_event (wc_root : string) (ps : list string) (e : event) : Prop :=
  no_cmd e ∨ ∃ p o, p ∈ ps ∧ e = Exec (rm_cmd p) (Some wc_root) o.

(** The summary printed before the commit decision. *)
Definition status_dump (status_text : string) : string :=
  nl +:+ "SVN status after add/rm:" +:+ nl +:+
  (if truthy_str status_text then status_text else "(no changes)").

(** Number of commit commands invoked in a run. *)
Definition commits (tr : list event) : nat :=
  length (filter (λ e, runs "commit" e) tr).

(** The events of the reconciliation and of the commit decision. *)
Definition reconcile_event (wc_root : string) (e : event) : Prop :=
  no_cmd e
  ∨ (∃ o, e = Exec status_xml_cmd (Some wc_root) o)
  ∨ (∃ p o, e = Exec (rm_cmd p) (Some wc_root) o)
  ∨ (∃ o, e = Exec add_cmd (Some wc_root) o).

Definition commit_event (cfg : Config) (wc_root : string) (e : event) : Prop :=
  no_cmd e
  ∨ (∃ o, e = Exec status_cmd (Some wc_root) o)
  ∨ (∃ o, e = Exec (commit_cmd cfg) (Some wc_root) o).

(** The credential flags that go with a user name and a password. *)
Definition credential_flags (username password : option string) : list string :=
  match username, password with
  | Some u, Some p =>
      if decide (u ≠ "" ∧ p ≠ "")
      then ["--username"; u; "--password"; p; "--no-auth-cache"]
      else []
  | _, _ => []
  end.

(** ** Sample trees *)

(** Trees are written as the list of their entries. *)
Definition tree_of (l : list (list string * entry)) : tree := list_to_map l.

(** The source has turned a directory into a file: [x] is a file of the
    source and a versioned directory of the working copy. *)
Definition clash_source : tree :=
  tree_of [([], Dir); (["x"], File "new")].

Definition clash_wc : tree :=
  tree_of [([], Dir); ([".svn"], Dir); ([".svn"; "wc.db"], File "db");
           (["x"], Dir); (["x"; "y"], File "old")].

Definition clash_result : tree :=
  tree_of [([], Dir); ([".svn"], Dir); ([".svn"; "wc.db"], File "db");
           (["x"], Dir); (["x"; "x"], File "new")].

(** A source with [a.txt] and [sub/b.txt], and a working copy that tracks
    a file the source no longer has. *)
Definition sample_source : tree :=
  tree_of [([], Dir); (["a.txt"], File "a"); (["sub"], Dir);
           (["sub"; "b.txt"], File "b")].

Definition sample_wc : tree :=
  tree_of [([], Dir); ([".svn"], Dir); ([".svn"; "wc.db"], File "db");
           (["old.txt"], File "o"); (["a.txt"], File "stale")].

Definition sample_result : tree :=
  tree_of [([], Dir); ([".svn"], Dir); ([".svn"; "wc.db"], File "db");
           (["a.txt"], File "a"); (["sub"], Dir); (["sub"; "b.txt"], File "b")].

(** The entry and what is found at the same path of another tree are of
    the same kind. *)
Definition same_kind (e : entry) (o : option entry) : bool :=
  match e, o with
  | Dir, Some (File _) | File _, Some Dir => false
  | _, _ => true
  end.

(** The listing of the root of the working copy names [old.txt], which
    another writer has removed since. *)
Definition stale_wc : tree := tree_of [([], Dir); (["kept"], Dir)].

(** ** A scripted world

    External tools that answer from a script: whether [svn] can be
    started, and what the two status queries print. *)

Record Script := {
  tool_present : bool;
  xml_output : string;
  status_output : string
}.

#[global] Instance event_eq_dec : EqDecision event.
Proof. solve_decision. Defined.

Definition scripted_spawn (cmd : list string) (cwd : option string)
    (w : World Script) : spawned Script :=
  if decide (cmd = ["svn"; "--version"]) then
    if tool_present (ext w) then Exited 0 "svn, version 1.14.2" w
    else NotStarted NotFound
  else if decide (cmd = ["svn"; "status"; "--xml"]) then
    Exited 0 (xml_output (ext w)) w
  else if decide (cmd = ["svn"; "status"]) then
    Exited 0 (status_output (ext w)) w
  else Exited 0 "" w.

(** A reader that knows two documents. *)
Definition scripted_fromstring (text : string) : option Xml.element :=
  if decide (text = "<status/>") then Some (Xml.Element "status" ∅ [])
  else if decide (text = "<status>old.txt missing</status>") then
    Some (Xml.Element "status" ∅
            [Xml.Element "target" {[ "path" := "." ]}
               [Xml.Element "entry" {[ "path" := "old.txt" ]}
                  [Xml.Element "wc-status" {[ "item" := "missing" ]} []];
                Xml.Element "entry" {[ "path" := "new.txt" ]}
                  [Xml.Element "wc-status" {[ "item" := "unversioned" ]} []]]])
  else None.

Definition scripted : Externals Script := {|
  spawn := scripted_spawn;
  fromstring := scripted_fromstring;
  path_join := λ a b, a +:+ "/" +:+ b
|}.

Definition scripted_world (s : Script) : World Script := {|
  environ := {[ "SOURCE_PATH" := "/export"; "SVN_URL" := "https://svn.example/repo";
                "SVN_USERNAME" := "ci"; "SVN_PASSWORD" := "secret" ]};
  os_name := "posix";
  gettempdir := "/tmp";
  now := λ _, "20260101-000000";
  source_tree := tree_of [([], Dir); (["a.txt"], File "a")];
  wc_tree := tree_of [([], Dir); ([".svn"], Dir); (["old.txt"], File "o")];
  ext := s
|}.

Definition scripted_run (s : Script) : (exn + unit) * World Script * list event :=
  @main Script scripted (scripted_world s).

(** Three scripts: a removed file to commit, a status query that prints a
    lone newline, and a status document that does not parse. *)
Definition changes_script : Script :=
  {| tool_present := true;
     xml_output := "<status>old.txt missing</status>";
     status_output := "D       old.txt" |}.

Definition quiet_script : Script :=
  {| tool_present := true; xml_output := "<status/>"; status_output := nl |}.

Definition garbled_script : Script :=
  {| tool_present := true; xml_output := "<status"; status_output := "" |}.

Definition no_tool_script : Script :=
  {| tool_present := false; xml_output := ""; status_output := "" |}.

Definition scripted_wc : string := "/tmp/svn-wc-20260101-000000".

(** ** Vocabulary for failures and for the configuration *)

(** The command could not be started, or it is an [svn] command that
    ended with a non-zero status. *)
Definition failed (e : event) : Prop :=
  match e with
  | Exec _ _ None => True
  | Exec (tool :: _) _ (Some (rc, _)) => tool = "svn" ∧ rc ≠ 0%Z
  | _ => False
  end.

(** [x] is an exception that [subprocess.run] raises for the failed
    command: [CalledProcessError] with the status and the command line,
    or the [OSError] of a failed start. *)
Definition raised_by (e : event) (x : exn) : Prop :=
  match e with
  | Exec cmd _ (Some (rc, _)) => x = CalledProcessError rc cmd
  | Exec _ _ None => ∃ f, x = raised_on_start f
  | Print _ => False
  end.

Definition is_exec (e : event) : bool :=
  match e with
  | Exec _ _ _ => true
  | Print _ => false
  end.

(** The commands of a trace, in order. *)
Definition execs (tr : list event) : list event :=
  filter (λ e, is_exec e) tr.

(** A computation in whose traces a failed command is the last command
    and decides the exception. *)
Definition fail_fast {Ext A : Type} (m : M Ext A) : Prop :=
  ∀ w r w' tr e,
    m w = (r, w', tr) → e ∈ tr → failed e →
    (∃ x, r = inl x ∧ raised_by e x) ∧ last (execs tr) = Some e.

(** A computation all of whose events satisfy [Q]. *)
Definition emits {Ext A : Type} (Q : event → Prop) (m : M Ext A) : Prop :=
  ∀ w r w' tr, m w = (r, w', tr) → Forall Q tr.

Definition robocopy_cmd (cfg : Config) (wc_root : string) : list string :=
  ["robocopy"; source_path cfg; wc_root; "/MIR"; "/XD"; ".svn";
   "/MT:8"; "/R:2"; "/W:2"; "/NFL"; "/NDL"; "/NP"].

(** The commands of [main] and the directory each is started in. *)
Inductive main_command (cfg : Config) (wc_root : string)
    : list string → option string → Prop :=
  | probe_command : main_command cfg wc_root ["svn"; "--version"] None
  | checkout_command : main_command cfg wc_root (checkout_cmd cfg wc_root) None
  | update_command : main_command cfg wc_root ["svn"; "update"] (Some wc_root)
  | robocopy_command : main_command cfg wc_root (robocopy_cmd cfg wc_root) None
  | status_xml_command : main_command cfg wc_root status_xml_cmd (Some wc_root)
  | rm_command p : main_command cfg wc_root (rm_cmd p) (Some wc_root)
  | add_command : main_command cfg wc_root add_cmd (Some wc_root)
  | status_command : main_command cfg wc_root status_cmd (Some wc_root)
  | commit_command : main_command cfg wc_root (commit_cmd cfg) (Some wc_root).

Definition allowed (cfg : Config) (wc_root : string) (e : event) : Prop :=
  match e with
  | Print _ => True
  | Exec cmd cwd _ => main_command cfg wc_root cmd cwd
  end.

(** The path of a forced remove, and the paths of the forced removes of
    a trace, in order. *)
Definition rm_target (e : event) : option string :=
  if runs "rm" e then
    match e with
    | Exec [_; _; _; p] _ _ => Some p
    | _ => None
    end
  else None.

Definition scheduled (tr : list event) : list string := omap rm_target tr.

(** The command lines of a trace, in order. *)
Definition command_of (e : event) : option (list string) :=
  match e with
  | Exec cmd _ _ => Some cmd
  | Print _ => None
  end.

Definition commands (tr : list event) : list (list string) := omap command_of tr.

(** Every command of the trace comes right after the line that logs it. *)
Definition logged (tr : list event) : Prop :=
  ∀ t1 cmd cwd o t2,
    tr = t1 ++ Exec cmd cwd o :: t2 → last t1 = Some (Print (banner cmd cwd)).

Definition logs {Ext A : Type} (m : M Ext A) : Prop :=
  ∀ w r w' tr, m w = (r, w', tr) → logged tr.

(** The commit message used when [COMMIT_MESSAGE] is unset or empty. *)
Definition default_message {Ext : Type} (w : World Ext) : string :=
  "Automated sync from " +:+ default "unknown" (environ w !! "COMPUTERNAME")
  +:+ " at " +:+ now w "%Y-%m-%d %H:%M:%S".

(** The configuration that a world holds. *)
Definition config_of {Ext : Type} (w : World Ext) : Config :=
  {| source_path := default "" (environ w !! "SOURCE_PATH");
     svn_url := default "" (environ w !! "SVN_URL");
     svn_username := environ w !! "SVN_USERNAME";
     svn_password := environ w !! "SVN_PASSWORD";
     commit_msg := or_else (environ w !! "COMMIT_MESSAGE") (default_message w) |}.

(** ** A world that replays answers

    External tools whose fate is looked up by command: the exit status
    and the output, or why the command cannot be started. *)

Definition Answers : Type := list string → start_failure + (Z * string).

Definition replay_spawn (cmd : list string) (cwd : option string)
    (w : World Answers) : spawned Answers :=
  match ext w cmd with
  | inr (rc, out) => Exited rc out w
  | inl f => NotStarted f
  end.

Definition replay : Externals Answers := {|
  spawn := replay_spawn;
  fromstring := scripted_fromstring;
  path_join := λ a b, a +:+ "/" +:+ b
|}.

Definition replay_world (os : string) (env : gmap string string)
    (source : tree) (answers : Answers) : World Answers := {|
  environ := env;
  os_name := os;
  gettempdir := "/tmp";
  now := λ _, "20260101-000000";
  source_tree := source;
  wc_tree := tree_of [([], Dir); ([".svn"], Dir); (["old.txt"], File "o")];
  ext := answers
|}.

Definition replay_run (w : World Answers) : (exn + unit) * World Answers * list event :=
  @main Answers replay w.

Definition sample_env : gmap string string :=
  {[ "SOURCE_PATH" := "/export"; "SVN_URL" := "https://svn.example/repo" ]}.

(** Every command exits with 0 and prints nothing, but for the status
    document. *)
Definition all_well : Answers := λ cmd,
  if decide (cmd = ["svn"; "status"; "--xml"])
  then inr (0%Z, "<status>old.txt missing</status>")
  else if decide (cmd = ["svn"; "status"]) then inr (0%Z, "D       old.txt")
  else inr (0%Z, "").

(** As [a], but [cmd] exits with [rc]. *)
Definition but (cmd : list string) (rc : Z) (a : Answers) : Answers := λ c,
  if decide (c = cmd) then inr (rc, "") else a c.

(** As [a], but [cmd] cannot be started. *)
Definition cannot_start (cmd : list string) (f : start_failure) (a : Answers)
    : Answers := λ c,
  if decide (c = cmd) then inl f else a c.

(** Three worlds: Windows, where [robocopy] exits with 3; no
    configuration; a source path that does not exist. *)
Definition small_source : tree := tree_of [([], Dir); (["a.txt"], File "a")].

Definition windows : World Answers :=
  replay_world "nt" sample_env small_source
    (but ["robocopy"; "/export"; scripted_wc; "/MIR"; "/XD"; ".svn";
          "/MT:8"; "/R:2"; "/W:2"; "/NFL"; "/NDL"; "/NP"] 3 all_well).

Definition unconfigured : World Answers :=
  replay_world "posix" ∅ small_source all_well.

Definition no_source : World Answers :=
  replay_world "posix" sample_env ∅ all_well.

(** A world where [svn] is there and may not be executed. *)
Definition not_executable : World Answers :=
  replay_world "posix" sample_env small_source
    (cannot_start ["svn"; "--version"] NotPermitted all_well).





(** ** Proof tactics *)

(** Unfolds [Exists] over a list given by its elements. *)
Ltac exists_cons :=
  repeat match goal with
  | H : context [Exists _ (_ :: _)] |- _ => rewrite Exists_cons in H
  | |- context [Exists _ (_ :: _)] => rewrite Exists_cons
  end.

(** Proves [Forall P l] for a list given by its events, with [tac] on
    each of them. *)
Ltac each_event tac :=
  unfold ran; simpl;
  repeat match goal with
  | |- Forall _ [] => constructor
  | |- Forall _ (_ :: _) => constructor; [solve [tac]|]
  end.

(** ** The portable mirror, path by path *)

Section mirror_facts.
Import Mirror.

Lemma exists_true (t : tree) (p : list string) : exists_ t p = true ↔ is_Some (t !! p).
Proof. unfold exists_. by rewrite bool_decide_eq_true. Qed.

Lemma exists_false (t : tree) (p : list string) : exists_ t p = false ↔ t !! p = None.
Proof.
  unfold exists_. rewrite bool_decide_eq_false.
  by rewrite eq_None_not_Some.
Qed.

Lemma child_name_Some (p q : list string) (n : string) : child_name p q = Some n ↔ q = p ++ [n].
Proof.
  unfold child_name. split.
  - destruct (last q) as [m|] eqn:E; [|done].
    case_decide; [|done]. by intros [= <-].
  - intros ->. rewrite last_snoc. by rewrite decide_True.
Qed.

Lemma elem_of_listing (t : tree) (p : list string) (n : string) (e : entry) :
  (n, e) ∈ listing t p ↔ t !! (p ++ [n]) = Some e.
Proof.
  unfold listing. rewrite list_elem_of_omap. split.
  - intros ([q e'] & Hin & Hf). apply elem_of_map_to_list in Hin. simpl in Hf.
    destruct (child_name p q) as [m|] eqn:E; simplify_eq/=.
    apply child_name_Some in E. by subst.
  - intros H. exists (p ++ [n], e). split; [by apply elem_of_map_to_list|].
    simpl. by rewrite (proj2 (child_name_Some _ _ _) eq_refl).
Qed.

Lemma NoDup_listing (t : tree) (p : list string) : NoDup (listing t p).*1.
Proof.
  unfold listing.
  pose proof (NoDup_fst_map_to_list t) as Hnd.
  induction (map_to_list t) as [|[q e] l IH]; simpl; [constructor|].
  apply NoDup_cons in Hnd as [Hq Hnd]. specialize (IH Hnd).
  destruct (child_name p q) as [n|] eqn:E; simpl; [|done].
  apply NoDup_cons. split; [|done].
  intros Hin. apply Hq.
  apply list_elem_of_fmap in Hin as ([n' e'] & -> & Hin).
  apply list_elem_of_omap in Hin as ([q' e''] & Hin & Hf). simpl in *.
  destruct (child_name p q') as [m|] eqn:E'; simplify_eq/=.
  apply child_name_Some in E, E'. subst.
  apply list_elem_of_fmap. by exists (p ++ [n'], e').
Qed.

Lemma elem_of_files_of ents f :
  f ∈ files_of ents ↔ ∃ data, (f, File data) ∈ ents.
Proof.
  unfold files_of. rewrite list_elem_of_omap. split.
  - intros ([n [d|]] & Hin & Hf); simplify_eq/=. eauto.
  - intros [d Hin]. by exists (f, File d).
Qed.

Lemma elem_of_dirs_of ents d : d ∈ dirs_of ents ↔ (d, Dir) ∈ ents.
Proof.
  unfold dirs_of. rewrite list_elem_of_omap. split.
  - by intros ([n [?|]] & Hin & Hf); simplify_eq/=.
  - intros Hin. by exists (d, Dir).
Qed.

Lemma NoDup_files_of ents : NoDup ents.*1 → NoDup (files_of ents).
Proof.
  unfold files_of. induction ents as [|[n e] l IH]; simpl; [constructor|].
  intros [Hn Hnd]%NoDup_cons. specialize (IH Hnd).
  destruct e as [d|]; simpl; [|done].
  apply NoDup_cons. split; [|done].
  intros Hin. apply Hn. apply elem_of_files_of in Hin as [d' Hin].
  apply list_elem_of_fmap. by exists (n, File d').
Qed.

Lemma NoDup_dirs_of ents : NoDup ents.*1 → NoDup (dirs_of ents).
Proof.
  unfold dirs_of. induction ents as [|[n e] l IH]; simpl; [constructor|].
  intros [Hn Hnd]%NoDup_cons. specialize (IH Hnd).
  destruct e as [d|]; simpl; [done|].
  apply NoDup_cons. split; [|done].
  intros Hin. apply Hn. apply elem_of_dirs_of in Hin.
  apply list_elem_of_fmap. by exists (n, Dir).
Qed.

Lemma below_app (rel : list string) (n : string) (rest : list string) : below rel (rel ++ n :: rest).
Proof.
  split; [by apply prefix_app_r|].
  intros H. apply (f_equal length) in H. rewrite length_app in H. simpl in H. lia.
Qed.

Lemma below_grandchild (rel : list string) (n m : string) (rest : list string) :
  below (rel ++ [n]) (rel ++ n :: m :: rest).
Proof.
  replace (rel ++ n :: m :: rest) with ((rel ++ [n]) ++ m :: rest)
    by (by rewrite <- app_assoc).
  apply below_app.
Qed.

Lemma below_inv (rel q : list string) : below rel q → ∃ n rest, q = rel ++ n :: rest.
Proof.
  intros [[k ->] Hne]. destruct k as [|n rest]; [|eauto].
  by rewrite app_nil_r in Hne.
Qed.

Lemma below_length (rel q : list string) : below rel q → length rel < length q.
Proof.
  intros (n & rest & ->)%below_inv. rewrite length_app. simpl. lia.
Qed.

Lemma below_snoc (rel q : list string) (n : string) : below rel q → below rel (q ++ [n]).
Proof.
  intros (m & rest & ->)%below_inv. rewrite <- app_assoc. apply below_app.
Qed.

Lemma below_child (rel : list string) (d : string) (q : list string) : below (rel ++ [d]) q → below rel q.
Proof.
  intros (m & rest & ->)%below_inv. rewrite <- app_assoc. apply below_app.
Qed.

Lemma wf_above (t : tree) (p q : list string) :
  wf t → is_Some (t !! q) → below p q → t !! p = Some Dir.
Proof.
  intros Hwf Hq (n & rest & ->)%below_inv. revert n Hq.
  induction rest as [|m rest IH] using rev_ind; intros n Hq.
  - by apply (Hwf p n).
  - apply (IH n). rewrite app_comm_cons, app_assoc in Hq.
    apply Hwf in Hq. by rewrite Hq.
Qed.

Lemma wf_src_None (src : tree) (p q : list string) :
  wf src → p `prefix_of` q → src !! p = None → src !! q = None.
Proof.
  intros Hwf Hpre Hp. destruct (decide (p = q)) as [->|Hne]; [done|].
  apply eq_None_not_Some. intros Hq.
  by rewrite (wf_above src p q Hwf Hq) in Hp.
Qed.

Lemma wf_prune (P : list string → Prop) `{!∀ q, Decision (P q)} (t t' : tree) :
  wf t →
  (∀ q n, P q → is_Some (t !! (q ++ [n])) → P (q ++ [n])) →
  (∀ q, t' !! q = if decide (P q) then None else t !! q) →
  wf t'.
Proof.
  intros Hwf Hup Hspec q n Hs.
  rewrite Hspec in Hs. rewrite Hspec.
  destruct (decide (P (q ++ [n]))) as [|Hn]; [by destruct Hs|].
  rewrite decide_False; [by apply (Hwf q n)|].
  intros HP. by apply Hn, Hup.
Qed.

Lemma lookup_rmtree (p : list string) (t : tree) (q : list string) :
  t !! p = Some Dir →
  rmtree_ignore_errors p t !! q = if decide (p `prefix_of` q) then None else t !! q.
Proof.
  intros Hp. unfold rmtree_ignore_errors. rewrite Hp.
  case_decide.
  - apply map_lookup_filter_None. right. intros x _. simpl. tauto.
  - destruct (t !! q) as [e|] eqn:E.
    + by apply map_lookup_filter_Some.
    + apply map_lookup_filter_None. by left.
Qed.

Lemma remove_loop (src : tree) (rel : list string) (fs : list string) (t : tree) :
  NoDup fs →
  (∀ f, f ∈ fs → ∃ data, t !! (rel ++ [f]) = Some (File data)) →
  ∃ t', for_each (λ f t,
          if exists_ src (rel ++ [f]) then Ok t else os_remove (rel ++ [f]) t) fs t = Ok t'
    ∧ ∀ q, t' !! q =
        if decide (Exists (λ f, q = rel ++ [f] ∧ src !! q = None) fs) then None else t !! q.
Proof.
  revert t. induction fs as [|f fs IH]; intros t Hnd Hfs.
  - exists t. split; [done|]. intros q. rewrite decide_False; [done|].
    by intros ?%Exists_nil.
  - apply NoDup_cons in Hnd as [Hf Hnd]. simpl.
    destruct (exists_ src (rel ++ [f])) eqn:Hex; simpl.
    + destruct (IH t Hnd) as (t' & -> & Hspec).
      { intros f' Hin. apply Hfs. by right. }
      exists t'. split; [done|]. intros q. rewrite Hspec.
      apply exists_true in Hex. destruct Hex as [e He].
      repeat case_decide; exists_cons; naive_solver.
    + apply exists_false in Hex.
      destruct (Hfs f) as [data Hdata]; [by left|].
      unfold os_remove at 1. rewrite Hdata. simpl.
      destruct (IH (delete (rel ++ [f]) t) Hnd) as (t' & -> & Hspec).
      { intros f' Hin. rewrite lookup_delete_ne.
        - apply Hfs. by right.
        - intros Heq. apply app_inv_head in Heq. simplify_eq. done. }
      exists t'. split; [done|]. intros q. rewrite Hspec.
      destruct (decide (q = rel ++ [f])) as [->|Hne].
      * rewrite lookup_delete_eq.
        repeat case_decide; exists_cons; naive_solver.
      * rewrite lookup_delete_ne by done.
        repeat case_decide; exists_cons; naive_solver.
Qed.

Lemma rmtree_loop (src : tree) (rel : list string) (ds : list string) (t : tree) :
  NoDup ds →
  (∀ d, d ∈ ds → t !! (rel ++ [d]) = Some Dir) →
  ∃ t', for_each (λ d t,
          if exists_ src (rel ++ [d]) then Ok t
          else Ok (rmtree_ignore_errors (rel ++ [d]) t)) ds t = Ok t'
    ∧ ∀ q, t' !! q =
        if decide (Exists (λ d, (rel ++ [d]) `prefix_of` q ∧ src !! (rel ++ [d]) = None) ds)
        then None else t !! q.
Proof.
  revert t. induction ds as [|d ds IH]; intros t Hnd Hds.
  - exists t. split; [done|]. intros q. rewrite decide_False; [done|].
    by intros ?%Exists_nil.
  - apply NoDup_cons in Hnd as [Hd Hnd]. simpl.
    destruct (exists_ src (rel ++ [d])) eqn:Hex; simpl.
    + destruct (IH t Hnd) as (t' & -> & Hspec).
      { intros d' Hin. apply Hds. by right. }
      exists t'. split; [done|]. intros q. rewrite Hspec.
      apply exists_true in Hex. destruct Hex as [e He].
      repeat case_decide; exists_cons; naive_solver.
    + apply exists_false in Hex.
      assert (t !! (rel ++ [d]) = Some Dir) as Hdir by (apply Hds; by left).
      destruct (IH (rmtree_ignore_errors (rel ++ [d]) t) Hnd) as (t' & -> & Hspec).
      { intros d' Hin. rewrite lookup_rmtree by done. rewrite decide_False.
        - apply Hds. by right.
        - intros Hpre. apply prefix_app_inv in Hpre.
          apply prefix_cons_inv_1 in Hpre. by subst. }
      exists t'. split; [done|]. intros q. rewrite Hspec.
      rewrite lookup_rmtree by done.
      repeat case_decide; exists_cons; naive_solver.
Qed.

Lemma svn_prefix_below (rel q : list string) :
  rel ≠ [] → rel `prefix_of` q → [".svn"] `prefix_of` q → [".svn"] `prefix_of` rel.
Proof.
  intros Hne [k1 ->] [k2 Hk]. destruct rel as [|x rel]; [done|].
  simpl in Hk. injection Hk as -> _. by exists rel.
Qed.

Lemma extra_inner (src t : tree) (rel q : list string) :
  rel ≠ [] → ¬ [".svn"] `prefix_of` rel →
  extra src t rel q ↔ below rel q ∧ src !! q = None.
Proof.
  intros Hne Hsvn. unfold extra, svn_protected. split; [tauto|].
  intros [Hb Hs]. split_and!; [done..|].
  intros [Hp _]. apply Hsvn. apply (svn_prefix_below rel q); [done| |done].
  by destruct Hb.
Qed.

Lemma protected_child (t : tree) (rel : list string) (n : string) (q : list string) :
  rel = [] ∨ ¬ [".svn"] `prefix_of` rel →
  (rel ++ [n]) `prefix_of` q → svn_protected t q →
  rel = [] ∧ n = ".svn".
Proof.
  intros Hsvn Hpre [Hp _]. destruct (decide (rel = [])) as [->|Hne].
  - split; [done|]. destruct Hpre as [k1 ->], Hp as [k2 Hk]. by simplify_eq/=.
  - destruct Hsvn as [?|Hsvn]; [done|]. exfalso. apply Hsvn.
    apply (svn_prefix_below rel q); [done| |done].
    trans (rel ++ [n]); [by apply prefix_app_r|done].
Qed.

Lemma walk_children (src : tree) (k : nat) (rel : list string) :
  wf src →
  (∀ (rel' : list string) (t : tree),
     wf t →
     (∀ q, is_Some (t !! q) → length q < k + length rel') →
     rel' = [] ∨ ¬ [".svn"] `prefix_of` rel' →
     ∃ t', walk_delete k src rel' t = Ok t'
       ∧ ∀ q, t' !! q = if decide (extra src t rel' q) then None else t !! q) →
  ∀ (ds : list string) (t : tree),
    wf t →
    (∀ q, is_Some (t !! q) → length q < S k + length rel) →
    (∀ d, d ∈ ds → ¬ [".svn"] `prefix_of` (rel ++ [d])) →
    ∃ t', for_each (λ d, walk_delete k src (rel ++ [d])) ds t = Ok t'
      ∧ ∀ q, t' !! q =
          if decide (Exists (λ d, below (rel ++ [d]) q ∧ src !! q = None) ds)
          then None else t !! q.
Proof.
  intros Hsrc IHk. induction ds as [|d ds IH]; intros t Hwf Hfuel Hds.
  - exists t. split; [done|]. intros q. rewrite decide_False; [done|].
    by intros ?%Exists_nil.
  - assert (Hd : ¬ [".svn"] `prefix_of` (rel ++ [d])) by (apply Hds; by left).
    assert (Hne : rel ++ [d] ≠ []) by (by destruct rel).
    destruct (IHk (rel ++ [d]) t Hwf) as (t1 & Ht1 & H1); [|by right|].
    { intros q Hq%Hfuel. rewrite length_app. simpl. lia. }
    simpl. rewrite Ht1. simpl.
    assert (H1' : ∀ q, t1 !! q =
      if decide (below (rel ++ [d]) q ∧ src !! q = None) then None else t !! q).
    { intros q. rewrite H1. pose proof (extra_inner src t (rel ++ [d]) q Hne Hd).
      repeat case_decide; first [done | exfalso; tauto]. }
    destruct (IH t1) as (t' & -> & Hspec).
    { apply (wf_prune _ t t1 Hwf) in H1'; [done|].
      intros q n [Hb Hn] _. split; [by apply below_snoc|].
      apply (wf_src_None src q); [done| |done]. by apply prefix_app_r. }
    { intros q Hq. apply Hfuel. rewrite H1' in Hq. by case_decide; [destruct Hq|]. }
    { intros d' Hin. apply Hds. by right. }
    exists t'. split; [done|]. intros q. rewrite Hspec, H1'.
    repeat case_decide; exists_cons; naive_solver.
Qed.

(** Effect of the deletion walk started at [rel]: exactly the entries
    below [rel] that the source does not have go away, the metadata
    directory of the root apart. *)
Lemma walk_delete_spec (src : tree) :
  wf src →
  ∀ fuel (rel : list string) (t : tree),
    wf t →
    (∀ q, is_Some (t !! q) → length q < fuel + length rel) →
    (rel = [] ∨ ¬ [".svn"] `prefix_of` rel) →
    ∃ t', walk_delete fuel src rel t = Ok t'
      ∧ ∀ q, t' !! q = if decide (extra src t rel q) then None else t !! q.
Proof.
  intros Hsrc. induction fuel as [|k IHk]; intros rel t Hwf Hfuel Hsvn.
  { exists t. split; [done|]. intros q. case_decide as Hx; [|done].
    destruct Hx as (Hb%below_length & _). apply eq_None_not_Some.
    intros Hs%Hfuel. lia. }
  assert (Hno : t !! rel ≠ Some Dir →
    ∀ q, t !! q = if decide (extra src t rel q) then None else t !! q).
  { intros Hrel q. case_decide as Hx; [|done]. destruct Hx as (Hb & _).
    apply eq_None_not_Some. intros Hs. by apply Hrel, (wf_above t rel q). }
  simpl. unfold scandir. destruct (t !! rel) as [[data|]|] eqn:Hrel;
    [exists t; split; [done|]; by apply Hno| |exists t; split; [done|]; by apply Hno].
  clear Hno.
  set (ents := listing t rel).
  set (dirs := if decide (rel = []) then filter (λ d, d ≠ ".svn") (dirs_of ents)
               else dirs_of ents).
  assert (Hfiles : ∀ f, f ∈ files_of ents ↔ ∃ data, t !! (rel ++ [f]) = Some (File data)).
  { intros f. rewrite elem_of_files_of. unfold ents.
    by setoid_rewrite elem_of_listing. }
  assert (Hdirs : ∀ d, d ∈ dirs ↔
            t !! (rel ++ [d]) = Some Dir ∧ ¬ (rel = [] ∧ d = ".svn")).
  { intros d. unfold dirs, ents. case_decide.
    - rewrite list_elem_of_filter, elem_of_dirs_of, elem_of_listing. naive_solver.
    - rewrite elem_of_dirs_of, elem_of_listing. naive_solver. }
  assert (Hnd : NoDup dirs).
  { unfold dirs. case_decide; [apply NoDup_filter|];
      apply NoDup_dirs_of, NoDup_listing. }
  unfold delete_extras.
  destruct (remove_loop src rel (files_of ents) t) as (t1 & -> & H1).
  { apply NoDup_files_of, NoDup_listing. }
  { intros f. by rewrite Hfiles. }
  simpl.
  destruct (rmtree_loop src rel dirs t1 Hnd) as (t2 & -> & H2).
  { intros d [Hd _]%Hdirs. rewrite H1. rewrite decide_False; [done|].
    intros (f & Hf & Heq & _)%Exists_exists. apply app_inv_head in Heq.
    simplify_eq. apply Hfiles in Hf as [? ?]. congruence. }
  simpl.
  (* the entries removed by the body at [rel] *)
  set (P2 := λ q : list string,
    Exists (λ f, q = rel ++ [f] ∧ src !! q = None) (files_of ents) ∨
    Exists (λ d, (rel ++ [d]) `prefix_of` q ∧ src !! (rel ++ [d]) = None) dirs).
  assert (H12 : ∀ q, t2 !! q = if decide (P2 q) then None else t !! q).
  { intros q. rewrite H2, H1. unfold P2. repeat case_decide; naive_solver. }
  assert (Hwf2 : wf t2).
  { apply (wf_prune P2 t t2 Hwf); [|done].
    intros q n [HP|HP] Hs; [exfalso|right].
    - apply Exists_exists in HP as (f & Hf & -> & Hn).
      apply Hfiles in Hf as [data Hdata]. apply Hwf in Hs. congruence.
    - apply Exists_exists in HP as (d & Hd & Hpre & Hn). apply Exists_exists.
      exists d. split_and!; [done| |done]. by apply prefix_app_r. }
  destruct (walk_children src k rel Hsrc IHk dirs t2 Hwf2) as (t' & -> & H3).
  { intros q Hq. apply Hfuel. rewrite H12 in Hq. by case_decide; [destruct Hq|]. }
  { intros d [_ Hd]%Hdirs Hp. destruct (decide (rel = [])) as [->|Hne].
    - apply Hd. split; [done|]. destruct Hp as [k2 Hk]. by simplify_eq/=.
    - destruct Hsvn as [?|Hsvn]; [done|]. apply Hsvn.
      apply (svn_prefix_below rel (rel ++ [d])); [done| |done]. by apply prefix_app_r. }
  exists t'. split; [done|]. intros q. rewrite H3, H12.
  destruct (t !! q) as [e|] eqn:Hq; [|by repeat case_decide].
  assert (Hiff : extra src t rel q ↔
    Exists (λ d, below (rel ++ [d]) q ∧ src !! q = None) dirs ∨ P2 q).
  { split.
    - intros (Hb & Hn & Hprot). apply below_inv in Hb as (n & rest & ->).
      assert (Hc : (rel ++ [n]) `prefix_of` (rel ++ n :: rest)).
      { exists rest. by rewrite <- app_assoc. }
      destruct (t !! (rel ++ [n])) as [[data|]|] eqn:Hcn.
      + right. left. apply Exists_exists. exists n.
        assert (rest = []) as ->.
        { destruct rest as [|m rest]; [done|]. exfalso.
          assert (t !! (rel ++ [n]) = Some Dir); [|congruence].
          apply (wf_above t _ (rel ++ n :: m :: rest)); [done..|].
          apply below_grandchild. }
        split_and!; [|done..]. apply Hfiles. eauto.
      + assert (n ∈ dirs) as Hin.
        { apply Hdirs. split; [done|]. intros [-> ->]. apply Hprot.
          split; [|done]. by exists rest. }
        destruct (src !! (rel ++ [n])) as [e'|] eqn:Hsn.
        * left. apply Exists_exists. exists n. split_and!; [done| |done].
          split; [done|]. intros Heq. rewrite <- Heq in Hn. congruence.
        * right. right. apply Exists_exists. by exists n.
      + exfalso. destruct rest as [|m rest]; [congruence|].
        assert (t !! (rel ++ [n]) = Some Dir); [|congruence].
        apply (wf_above t _ (rel ++ n :: m :: rest)); [done..|].
        apply below_grandchild.
    - intros [HE|[HE|HE]].
      + apply Exists_exists in HE as (d & Hd & Hb & Hn).
        split_and!; [by apply (below_child rel d)|done|].
        intros Hp. apply Hdirs in Hd as [_ Hd]. apply Hd.
        apply (protected_child t rel d q); [done| |done]. by destruct Hb.
      + apply Exists_exists in HE as (f & Hf & -> & Hn).
        split_and!; [apply below_app|done|].
        intros Hp. apply Hfiles in Hf as [data Hdata].
        destruct (protected_child t rel f (rel ++ [f])) as [-> ->]; [done..|].
        destruct Hp as [_ Hp]. simpl in *. congruence.
      + apply Exists_exists in HE as (d & Hd & Hpre & Hn).
        split_and!.
        * destruct Hpre as [rest ->]. rewrite <- app_assoc. apply below_app.
        * by apply (wf_src_None src (rel ++ [d])).
        * intros Hp. apply Hdirs in Hd as [_ Hd]. apply Hd.
          by apply (protected_child t rel d q). }
  repeat case_decide; naive_solver.
Qed.

Lemma height_bound (t : tree) (q : list string) :
  is_Some (t !! q) → length q ≤ height t.
Proof.
  intros [e He]. unfold height. apply max_list_elem_of_le.
  apply list_elem_of_fmap. exists q. split; [done|].
  apply list_elem_of_fmap. exists (q, e). split; [done|].
  by apply elem_of_map_to_list.
Qed.

Lemma delete_pass_spec (src t : tree) :
  wf src → wf t →
  ∃ t', delete_pass src t = Ok t'
    ∧ ∀ q, t' !! q = if decide (extra src t [] q) then None else t !! q.
Proof.
  intros Hsrc Hwf. apply walk_delete_spec; [done..| |by left].
  intros q Hq%height_bound. simpl. lia.
Qed.

(** *** The copy pass *)

Lemma makedirs_from_spec (pre rest : list string) (t : tree) :
  (∀ p, pre `prefix_of` p → below p (pre ++ rest) → t !! p = Some Dir) →
  (∀ data, t !! (pre ++ rest) ≠ Some (File data)) →
  makedirs_from pre rest t = Ok (<[pre ++ rest := Dir]> t).
Proof.
  revert pre. induction rest as [|n rest IH]; intros pre Hanc Hrel; simpl.
  - rewrite app_nil_r in *. unfold mkdir_exist_ok.
    destruct (t !! pre) as [[data|]|] eqn:Hp.
    + by destruct (Hrel data).
    + by rewrite insert_id.
    + done.
  - unfold mkdir_exist_ok. rewrite (Hanc pre); [|done|apply below_app]. simpl.
    replace (pre ++ n :: rest) with ((pre ++ [n]) ++ rest) in *
      by (by rewrite <- app_assoc).
    apply IH; [|done].
    intros p Hp Hb. apply Hanc; [|done].
    trans (pre ++ [n]); [by apply prefix_app_r|done].
Qed.

Lemma makedirs_spec (rel : list string) (t : tree) :
  (∀ p, below p rel → t !! p = Some Dir) →
  (∀ data, t !! rel ≠ Some (File data)) →
  makedirs rel t = Ok (<[rel := Dir]> t).
Proof.
  intros Hanc Hrel. unfold makedirs.
  apply (makedirs_from_spec [] rel t); [|done]. intros p _. apply Hanc.
Qed.

Lemma copy2_spec (src : tree) (rel : list string) (f data : string) (t : tree) :
  src !! (rel ++ [f]) = Some (File data) →
  t !! rel = Some Dir →
  t !! (rel ++ [f]) ≠ Some Dir →
  copy2 src (rel ++ [f]) (rel ++ [f]) t = Ok (<[rel ++ [f] := File data]> t).
Proof.
  intros Hs Hrel Hf. unfold copy2. rewrite Hs.
  destruct (t !! (rel ++ [f])) as [[data'|]|] eqn:E; [|done|];
    rewrite E, removelast_last, Hrel; done.
Qed.

Lemma copy_loop (src : tree) (rel : list string) (fs : list string) (t : tree) :
  (∀ f, f ∈ fs → ∃ data, src !! (rel ++ [f]) = Some (File data)) →
  t !! rel = Some Dir →
  (∀ f, f ∈ fs → t !! (rel ++ [f]) ≠ Some Dir) →
  ∃ t', for_each (λ f, copy2 src (rel ++ [f]) (rel ++ [f])) fs t = Ok t'
    ∧ ∀ q, t' !! q =
        if decide (Exists (λ f, q = rel ++ [f]) fs) then src !! q else t !! q.
Proof.
  revert t. induction fs as [|f fs IH]; intros t Hsrc Hrel Hfs.
  - exists t. split; [done|]. intros q. rewrite decide_False; [done|].
    by intros ?%Exists_nil.
  - destruct (Hsrc f) as [data Hdata]; [by left|]. simpl.
    rewrite (copy2_spec src rel f data) by (try done; apply Hfs; by left). simpl.
    assert (Hne : rel ≠ rel ++ [f]).
    { intros H. apply (f_equal length) in H. rewrite length_app in H. simpl in H. lia. }
    destruct (IH (<[rel ++ [f] := File data]> t)) as (t' & -> & Hspec).
    { intros f' Hin. apply Hsrc. by right. }
    { by rewrite lookup_insert_ne. }
    { intros f' Hin. destruct (decide (f' = f)) as [->|Hff].
      - by rewrite lookup_insert_eq.
      - rewrite lookup_insert_ne; [apply Hfs; by right|].
        intros Heq%app_inv_head. by simplify_eq. }
    exists t'. split; [done|]. intros q. rewrite Hspec.
    destruct (decide (q = rel ++ [f])) as [->|Hq].
    + rewrite lookup_insert_eq, Hdata.
      repeat case_decide; exists_cons; naive_solver.
    + rewrite lookup_insert_ne by done.
      repeat case_decide; exists_cons; naive_solver.
Qed.

Lemma no_kind_clash_overlay (Q : list string → Prop) `{!∀ q, Decision (Q q)}
    (src t t' : tree) :
  no_kind_clash src t →
  (∀ q, t' !! q = if decide (Q q) then src !! q else t !! q) →
  no_kind_clash src t'.
Proof.
  intros Hc Hspec q. specialize (Hc q). rewrite Hspec.
  case_decide; [|done]. by destruct (src !! q) as [[?|]|].
Qed.

Lemma copy_children (src : tree) (k : nat) (rel : list string) :
  (∀ (rel' : list string) (t : tree),
     no_kind_clash src t →
     src !! rel' = Some Dir →
     (∀ p, below p rel' → t !! p = Some Dir) →
     (∀ q, is_Some (src !! q) → length q < k + length rel') →
     ∃ t', walk_copy k src rel' t = Ok t'
       ∧ ∀ q, t' !! q =
           if decide (rel' `prefix_of` q ∧ is_Some (src !! q)) then src !! q else t !! q) →
  (∀ q, is_Some (src !! q) → length q < S k + length rel) →
  ∀ (ds : list string) (t : tree),
    no_kind_clash src t →
    (∀ d, d ∈ ds → src !! (rel ++ [d]) = Some Dir) →
    (∀ p, p `prefix_of` rel → t !! p = Some Dir) →
    ∃ t', for_each (λ d, walk_copy k src (rel ++ [d])) ds t = Ok t'
      ∧ ∀ q, t' !! q =
          if decide (Exists (λ d, (rel ++ [d]) `prefix_of` q ∧ is_Some (src !! q)) ds)
          then src !! q else t !! q.
Proof.
  intros IHk Hfuel. induction ds as [|d ds IH]; intros t Hc Hds Hanc.
  - exists t. split; [done|]. intros q. rewrite decide_False; [done|].
    by intros ?%Exists_nil.
  - destruct (IHk (rel ++ [d]) t Hc) as (t1 & Ht1 & H1).
    { apply Hds. by left. }
    { intros p (n & rest & Heq)%below_inv. apply Hanc.
      destruct rest as [|m rest _] using rev_ind.
      - apply app_inj_tail in Heq as [-> _]. done.
      - rewrite app_comm_cons, app_assoc in Heq.
        apply app_inj_tail in Heq as [-> _]. by apply prefix_app_r. }
    { intros q Hq%Hfuel. rewrite length_app. simpl. lia. }
    simpl. rewrite Ht1. simpl.
    destruct (IH t1) as (t' & -> & Hspec).
    { by apply (no_kind_clash_overlay _ src t t1 Hc H1). }
    { intros d' Hin. apply Hds. by right. }
    { intros p Hp. rewrite H1. rewrite decide_False; [by apply Hanc|].
      intros [Hpre _]. assert (rel ++ [d] `prefix_of` rel) as Hbad by (by trans p).
      apply prefix_length in Hbad. rewrite length_app in Hbad. simpl in Hbad. lia. }
    exists t'. split; [done|]. intros q. rewrite Hspec, H1.
    repeat case_decide; exists_cons; naive_solver.
Qed.

(** Effect of the copy walk started at directory [rel] of the source, when
    no file stands where a directory is due and conversely: the part of
    the source at and below [rel] is laid over the tree. *)
Lemma walk_copy_spec (src : tree) :
  wf src →
  ∀ fuel (rel : list string) (t : tree),
    no_kind_clash src t →
    src !! rel = Some Dir →
    (∀ p, below p rel → t !! p = Some Dir) →
    (∀ q, is_Some (src !! q) → length q < fuel + length rel) →
    ∃ t', walk_copy fuel src rel t = Ok t'
      ∧ ∀ q, t' !! q =
          if decide (rel `prefix_of` q ∧ is_Some (src !! q)) then src !! q else t !! q.
Proof.
  intros Hsrc. induction fuel as [|k IHk]; intros rel t Hc Hrel Hanc Hfuel.
  { specialize (Hfuel rel). rewrite Hrel in Hfuel.
    assert (length rel < 0 + length rel) by (by apply Hfuel). lia. }
  simpl. unfold scandir. rewrite Hrel.
  set (ents := listing src rel).
  assert (Hfiles : ∀ f, f ∈ files_of ents ↔ ∃ data, src !! (rel ++ [f]) = Some (File data)).
  { intros f. rewrite elem_of_files_of. unfold ents.
    by setoid_rewrite elem_of_listing. }
  assert (Hdirs : ∀ d, d ∈ dirs_of ents ↔ src !! (rel ++ [d]) = Some Dir).
  { intros d. unfold ents. by rewrite elem_of_dirs_of, elem_of_listing. }
  rewrite makedirs_spec; [|done|].
  2:{ intros data Hd. specialize (Hc rel). by rewrite Hrel, Hd in Hc. }
  simpl.
  destruct (copy_loop src rel (files_of ents) (<[rel := Dir]> t)) as (t2 & -> & H2).
  { intros f. by rewrite Hfiles. }
  { by rewrite lookup_insert_eq. }
  { intros f [data Hdata]%Hfiles. rewrite lookup_insert_ne.
    - intros Hd. specialize (Hc (rel ++ [f])). by rewrite Hdata, Hd in Hc.
    - intros H. apply (f_equal length) in H. rewrite length_app in H. simpl in H. lia. }
  simpl.
  set (Q2 := λ q : list string, q = rel ∨ Exists (λ f, q = rel ++ [f]) (files_of ents)).
  assert (H12 : ∀ q, t2 !! q = if decide (Q2 q) then src !! q else t !! q).
  { intros q. rewrite H2. unfold Q2. destruct (decide (q = rel)) as [->|Hq].
    - rewrite lookup_insert_eq, Hrel. repeat case_decide; naive_solver.
    - rewrite lookup_insert_ne by done. repeat case_decide; naive_solver. }
  destruct (copy_children src k rel IHk Hfuel (dirs_of ents) t2) as (t' & -> & H3).
  { by apply (no_kind_clash_overlay Q2 src t t2 Hc H12). }
  { intros d. by rewrite Hdirs. }
  { intros p Hp. rewrite H12. destruct (decide (p = rel)) as [->|Hne].
    - rewrite decide_True; [done|by left].
    - rewrite decide_False; [by apply Hanc|].
      intros [?|(f & _ & ->)%Exists_exists]; [done|].
      apply prefix_length in Hp. rewrite length_app in Hp. simpl in Hp. lia. }
  exists t'. split; [done|]. intros q. rewrite H3, H12.
  assert (Hiff : rel `prefix_of` q ∧ is_Some (src !! q) ↔
    Exists (λ d, (rel ++ [d]) `prefix_of` q ∧ is_Some (src !! q)) (dirs_of ents) ∨ Q2 q).
  { split.
    - intros [[rest ->] Hq]. destruct rest as [|n rest]; [right; left; by rewrite app_nil_r|].
      destruct (src !! (rel ++ [n])) as [[data|]|] eqn:Hn.
      + right. right. apply Exists_exists. exists n.
        assert (rest = []) as ->.
        { destruct rest as [|m rest]; [done|]. exfalso.
          assert (src !! (rel ++ [n]) = Some Dir); [|congruence].
          apply (wf_above src _ (rel ++ n :: m :: rest)); [done..|].
          apply below_grandchild. }
        split; [|done]. apply Hfiles. eauto.
      + left. apply Exists_exists. exists n. split_and!; [by apply Hdirs| |done].
        exists rest. by rewrite <- app_assoc.
      + exfalso. destruct rest as [|m rest]; [rewrite Hn in Hq; by destruct Hq|].
        assert (src !! (rel ++ [n]) = Some Dir); [|congruence].
        apply (wf_above src _ (rel ++ n :: m :: rest)); [done..|].
        apply below_grandchild.
    - intros [HE|[->|HE]].
      + apply Exists_exists in HE as (d & Hd & Hpre & Hq). split; [|done].
        trans (rel ++ [d]); [by apply prefix_app_r|done].
      + by rewrite Hrel.
      + apply Exists_exists in HE as (f & [data Hdata]%Hfiles & ->).
        split; [by apply prefix_app_r|]. by rewrite Hdata. }
  repeat case_decide; naive_solver.
Qed.

Lemma copy_pass_spec (src t : tree) :
  wf src → src !! [] = Some Dir → no_kind_clash src t →
  ∃ t', copy_pass src t = Ok t'
    ∧ ∀ q, t' !! q = if decide (is_Some (src !! q)) then src !! q else t !! q.
Proof.
  intros Hsrc Hroot Hc.
  destruct (walk_copy_spec src Hsrc (S (height src)) [] t Hc Hroot) as (t' & Ht' & H).
  { intros p [Hp Hne]. apply prefix_nil_inv in Hp. by subst. }
  { intros q Hq%height_bound. simpl. lia. }
  exists t'. split; [done|]. intros q. rewrite H.
  pose proof (prefix_nil q). repeat case_decide; naive_solver.
Qed.

(** The tree that the portable mirror leaves, path by path. *)
Lemma mirror_spec (src t : tree) :
  wf src → wf t → src !! [] = Some Dir → no_kind_clash src t →
  ∃ t', mirror src t = Ok t'
    ∧ ∀ q, t' !! q =
        match src !! q with
        | Some e => Some e
        | None => if decide (svn_protected t q) then t !! q else None
        end.
Proof.
  intros Hsrc Hwf Hroot Hc. unfold mirror.
  destruct (delete_pass_spec src t Hsrc Hwf) as (t1 & -> & H1). simpl.
  destruct (copy_pass_spec src t1 Hsrc Hroot) as (t' & -> & H2).
  { intros q. specialize (Hc q). rewrite H1.
    destruct (decide (extra src t [] q)); [|exact Hc].
    by destruct (src !! q) as [[?|]|]. }
  exists t'. split; [done|]. intros q. rewrite H2, H1.
  destruct (decide (is_Some (src !! q))) as [[e He]|Hn].
  { by rewrite He. }
  apply eq_None_not_Some in Hn.
  assert (below [] q).
  { split; [apply prefix_nil|]. intros <-. congruence. }
  destruct (decide (extra src t [] q)) as [Hx|Hx];
    destruct (decide (svn_protected t q)) as [Hp|Hp]; rewrite Hn; try done.
  - by destruct Hx as (_ & _ & Hx).
  - destruct Hx. by split_and!.
Qed.

(** *** The depth bound of the walks is never reached *)

Lemma for_each_sub {A : Type} (body : A → tree → result) (l : list A) :
  (∀ x t t', body x t = Ok t' → t' ⊆ t) →
  ∀ t t', for_each body l t = Ok t' → t' ⊆ t.
Proof.
  intros Hbody. induction l as [|x l IH]; intros t t'; simpl.
  - by intros [= ->].
  - destruct (body x t) as [t1|e t1] eqn:Hx; simpl; [|done].
    intros Hl. trans t1; [by apply IH|by apply (Hbody x)].
Qed.

Lemma delete_extras_sub (src : tree) (rel dirs files : list string) (t t' : tree) :
  delete_extras src rel dirs files t = Ok t' → t' ⊆ t.
Proof.
  unfold delete_extras.
  destruct (for_each _ files t) as [t1|e t1] eqn:H1; simpl; [|done].
  intros H2. trans t1.
  - revert H2. apply for_each_sub. intros d u u'.
    destruct (exists_ src (rel ++ [d])); intros [= <-]; [done|].
    unfold rmtree_ignore_errors. destruct (u !! (rel ++ [d])) as [[?|]|]; [done| |done].
    apply map_filter_subseteq.
  - revert H1. apply for_each_sub. intros f u u'.
    destruct (exists_ src (rel ++ [f])); [by intros [= <-]|].
    unfold os_remove. destruct (u !! (rel ++ [f])) as [[?|]|]; [|done..].
    intros [= <-]. apply delete_subseteq.
Qed.

Lemma walk_delete_sub (src : tree) (fuel : nat) :
  ∀ (rel : list string) (t t' : tree),
    walk_delete fuel src rel t = Ok t' → t' ⊆ t.
Proof.
  induction fuel as [|k IH]; intros rel t t'; simpl; [by intros [= ->]|].
  destruct (scandir t rel) as [ents|]; [|by intros [= ->]].
  destruct (delete_extras _ _ _ _ t) as [t1|e t1] eqn:H1; simpl; [|done].
  intros H2. trans t1; [|by eapply delete_extras_sub].
  revert H2. apply for_each_sub. intros d u u'. apply IH.
Qed.

Lemma walk_delete_S (fuel : nat) (src : tree) (rel : list string) (t : tree) :
  walk_delete (S fuel) src rel t =
  match scandir t rel with
  | None => Ok t
  | Some ents =>
      let dirs := dirs_of ents in
      let files := files_of ents in
      let dirs := if decide (rel = []) then filter (λ d, d ≠ ".svn") dirs else dirs in
      and_then (delete_extras src rel dirs files t)
               (for_each (λ d, walk_delete fuel src (rel ++ [d])) dirs)
  end.
Proof. done. Qed.

Lemma walk_copy_S (fuel : nat) (src : tree) (rel : list string) (t : tree) :
  walk_copy (S fuel) src rel t =
  match scandir src rel with
  | None => Ok t
  | Some ents =>
      and_then
        (and_then (makedirs rel t)
           (for_each (λ f, copy2 src (rel ++ [f]) (rel ++ [f])) (files_of ents)))
        (for_each (λ d, walk_copy fuel src (rel ++ [d])) (dirs_of ents))
  end.
Proof. done. Qed.

(** One more unit of fuel than the depth of the tree changes nothing:
    the walk stops by itself, at directories that are not there. *)
Lemma walk_delete_fuel (src : tree) (fuel : nat) :
  ∀ (rel : list string) (t : tree),
    (∀ q, is_Some (t !! q) → length q < fuel + length rel) →
    walk_delete (S fuel) src rel t = walk_delete fuel src rel t.
Proof.
  induction fuel as [|k IH]; intros rel t Hb.
  - simpl. unfold scandir. destruct (t !! rel) as [[?|]|] eqn:Hrel; [done| |done].
    assert (length rel < 0 + length rel) by (apply Hb; by rewrite Hrel). lia.
  - rewrite (walk_delete_S (S k)), (walk_delete_S k).
    destruct (scandir t rel) as [ents|]; [|done]. cbv zeta.
    set (dirs := if decide (rel = []) then _ else _).
    destruct (delete_extras src rel dirs (files_of ents) t) as [t1|e t1] eqn:H1;
      [|done].
    assert (Hb1 : ∀ q, is_Some (t1 !! q) → length q < S k + length rel).
    { intros q [x Hq]. apply Hb. exists x.
      eapply lookup_weaken; [done|by eapply delete_extras_sub]. }
    clear H1. unfold and_then. generalize dirs. clear dirs. intros dirs.
    revert t1 Hb1.
    induction dirs as [|d dirs IHd]; intros t1 Hb1; [done|].
    cbn [for_each]. rewrite IH.
    2:{ intros q Hq%Hb1. rewrite length_app. simpl. lia. }
    destruct (walk_delete k src (rel ++ [d]) t1) as [t2|e t2] eqn:H2; [|done].
    unfold and_then. apply IHd. intros q [x Hq]. apply Hb1. exists x.
    eapply lookup_weaken; [done|by eapply walk_delete_sub].
Qed.

(** With any fuel above the height of the tree the deletion walk is the
    deletion pass. *)
Lemma delete_pass_fuel (src t : tree) (n : nat) :
  walk_delete (S (height t) + n) src [] t = delete_pass src t.
Proof.
  unfold delete_pass. induction n as [|n IH]; [by rewrite Nat.add_0_r|].
  rewrite Nat.add_succ_r, walk_delete_fuel; [done|].
  intros q Hq%height_bound. simpl. lia.
Qed.

Lemma walk_copy_fuel (src : tree) (fuel : nat) :
  ∀ (rel : list string) (t : tree),
    (∀ q, is_Some (src !! q) → length q < fuel + length rel) →
    walk_copy (S fuel) src rel t = walk_copy fuel src rel t.
Proof.
  induction fuel as [|k IH]; intros rel t Hb.
  - simpl. unfold scandir. destruct (src !! rel) as [[?|]|] eqn:Hrel; [done| |done].
    assert (length rel < 0 + length rel) by (apply Hb; by rewrite Hrel). lia.
  - rewrite (walk_copy_S (S k)), (walk_copy_S k).
    destruct (scandir src rel) as [ents|]; [|done].
    destruct (and_then (makedirs rel t) _) as [t1|e t1]; [|done].
    unfold and_then. generalize (dirs_of ents). intros dirs. revert t1.
    induction dirs as [|d dirs IHd]; intros t1; [done|].
    cbn [for_each]. rewrite IH.
    2:{ intros q Hq%Hb. rewrite length_app. simpl. lia. }
    destruct (walk_copy k src (rel ++ [d]) t1) as [t2|e t2]; [|done].
    unfold and_then. apply IHd.
Qed.

(** With any fuel above the height of the source the copy walk is the copy
    pass. *)
Lemma copy_pass_fuel (src t : tree) (n : nat) :
  walk_copy (S (height src) + n) src [] t = copy_pass src t.
Proof.
  unfold copy_pass. induction n as [|n IH]; [by rewrite Nat.add_0_r|].
  rewrite Nat.add_succ_r, walk_copy_fuel; [done|].
  intros q Hq%height_bound. simpl. lia.
Qed.

End mirror_facts.

(** ** The status reader *)

Section xml_facts.
Import Xml.

Lemma element_forall_ind (P : element → Prop) :
  (∀ t a cs, Forall P cs → P (Element t a cs)) → ∀ e, P e.
Proof.
  intros H. fix IH 1. intros [t a cs]. apply H.
  induction cs as [|c cs IHcs]; constructor; [apply IH|exact IHcs].
Qed.

Lemma elem_of_flat_map_iter (cs : list element) (x : element) :
  x ∈ flat_map iter cs ↔ ∃ c, c ∈ cs ∧ x ∈ iter c.
Proof.
  rewrite list_elem_of_In, in_flat_map. split.
  - intros (c & Hc & Hx). exists c. by rewrite !list_elem_of_In.
  - intros (c & Hc & Hx). exists c. by rewrite <- !list_elem_of_In.
Qed.

Lemma iter_unfold (e : element) : iter e = e :: flat_map iter (children e).
Proof. by destruct e. Qed.

Lemma elem_of_iter (e x : element) : x ∈ iter e ↔ x = e ∨ descendant e x.
Proof.
  revert x. induction e as [t a cs IH] using element_forall_ind. intros x.
  rewrite iter_unfold, elem_of_cons, elem_of_flat_map_iter. simpl.
  rewrite Forall_forall in IH. split.
  - intros [->|(c & Hc & Hx)]; [by left|right].
    apply (IH c Hc) in Hx as [->|Hd].
    + by apply descendant_child.
    + by apply (descendant_deeper _ c).
  - intros [->|Hd]; [by left|right]. inversion Hd as [r c Hc|r c y Hc Hy]; subst.
    + exists x. split; [done|]. apply (IH x Hc). by left.
    + exists c. split; [done|]. apply (IH c Hc). by right.
Qed.

(** [findall(".//name")] finds the elements with that tag on all levels
    beneath the root, and only them. *)
Lemma elem_of_findall_descendants (name : string) (root e : element) :
  e ∈ findall_descendants name root ↔ descendant root e ∧ tag e = name.
Proof.
  unfold findall_descendants.
  rewrite list_elem_of_filter, elem_of_flat_map_iter. split.
  - intros [Ht (c & Hc & He)]. split; [|done].
    apply elem_of_iter in He as [->|Hd].
    + by apply descendant_child.
    + by apply (descendant_deeper _ c).
  - intros [Hd Ht]. split; [done|]. inversion Hd as [r c Hc|r c y Hc Hy]; subst.
    + exists e. split; [done|]. apply elem_of_iter. by left.
    + exists c. split; [done|]. apply elem_of_iter. by right.
Qed.

Lemma missing_step_appended (missing : list string) (entry : element) :
  missing_step missing entry = missing ++ option_list (appended entry).
Proof.
  unfold missing_step, appended, item_state, truthy_str.
  destruct (find "wc-status" entry) as [ws|]; simpl; [|by rewrite app_nil_r].
  destruct (decide (get_default ws "item" "" = "missing")) as [Hi|Hi].
  - destruct (get entry "path") as [p|]; [|by rewrite app_nil_r].
    destruct (decide (p = "")) as [->|Hp].
    + rewrite decide_False by tauto. by rewrite app_nil_r.
    + rewrite bool_decide_eq_true_2 by done. by rewrite decide_True.
  - destruct (get entry "path") as [p|]; [|by rewrite app_nil_r].
    rewrite decide_False by tauto. by rewrite app_nil_r.
Qed.

Lemma fold_missing_step (l : list element) (missing : list string) :
  fold_left missing_step l missing = missing ++ omap appended l.
Proof.
  revert missing. induction l as [|e l IH]; intros missing; simpl.
  - by rewrite app_nil_r.
  - rewrite IH, missing_step_appended, <- app_assoc. f_equal.
    by destruct (appended e).
Qed.

(** The list returned by the loop, in document order. *)
Lemma missing_paths_omap (root : element) :
  missing_paths root = omap appended (findall_descendants "entry" root).
Proof. unfold missing_paths. by rewrite fold_missing_step. Qed.

(** What the reader returns, as a set. *)
Lemma elem_of_missing_paths (root : element) (p : string) :
  p ∈ missing_paths root ↔
  ∃ e, descendant root e ∧ tag e = "entry"
       ∧ item_state e = Some "missing" ∧ get e "path" = Some p ∧ p ≠ "".
Proof.
  rewrite missing_paths_omap, list_elem_of_omap.
  setoid_rewrite elem_of_findall_descendants. unfold appended. split.
  - intros (e & [Hd Ht] & Ha). exists e.
    destruct (item_state e) as [item|]; [|done].
    destruct (get e "path") as [path|]; [|done].
    case_decide as Hc; [|done]. destruct Hc as [-> Hp]. by simplify_eq.
  - intros (e & Hd & Ht & Hi & Hp & Hne). exists e. split; [done|].
    rewrite Hi, Hp. by rewrite decide_True.
Qed.

End xml_facts.

(** ** The run of the script *)

Section script_facts.
Context {Ext : Type} `{!Externals Ext}.
Implicit Types (w : World Ext) (tr : list event).

Lemma bind_inv {A B : Type} (m : M Ext A) (k : A → M Ext B) w r w' tr :
  bind m k w = (r, w', tr) →
  (∃ e, m w = (inl e, w', tr) ∧ r = inl e) ∨
  (∃ a w1 t1 t2, m w = (inr a, w1, t1) ∧ k a w1 = (r, w', t2) ∧ tr = t1 ++ t2).
Proof.
  unfold bind. destruct (m w) as [[[e|a] w1] t1].
  - intros [= <- <- <-]. left. eauto.
  - destruct (k a w1) as [[r2 w2] t2] eqn:Hk. intros [= <- <- <-].
    right. exists a, w1, t1, t2. eauto.
Qed.

Lemma run_checked_inv (cmd : list string) (cwd : option string) (capture : bool)
    w r w' tr :
  run cmd cwd true capture w = (r, w', tr) →
  ∃ o, tr = ran cmd cwd o ∧
    ((∃ out, o = Some (0%Z, out) ∧ spawn cmd cwd w = Exited 0 out w' ∧
        r = inr {| returncode := 0; stdout := if capture then Some out else None |})
     ∨ (o = None ∧ w' = w
        ∧ ∃ f, spawn cmd cwd w = NotStarted f ∧ r = inl (raised_on_start f))
     ∨ (∃ rc out, o = Some (rc, out) ∧ rc ≠ 0%Z ∧ r = inl (CalledProcessError rc cmd))).
Proof.
  unfold run, bind, print, subprocess_run. simpl.
  destruct (spawn cmd cwd w) as [rc out w1|f] eqn:Hs.
  - destruct (rc =? 0)%Z eqn:Hrc; simpl; intros [= <- <- <-]; eexists; (split; [done|]).
    + apply Z.eqb_eq in Hrc as ->. left. eauto.
    + apply Z.eqb_neq in Hrc. right. right. eauto.
  - intros [= <- <- <-]. eexists. split; [done|]. right. left. eauto.
Qed.

Lemma run_unchecked_inv (cmd : list string) (cwd : option string) (capture : bool)
    w r w' tr :
  run cmd cwd false capture w = (r, w', tr) →
  ∃ o, tr = ran cmd cwd o.
Proof.
  unfold run, bind, print, subprocess_run. simpl.
  destruct (spawn cmd cwd w) as [rc out w1|f] eqn:Hs; simpl;
    intros [= <- <- <-]; by eexists.
Qed.

Lemma get_env_inv (name : string) (dflt : option string) (required : bool)
    w r w' tr :
  get_env name dflt required w = (r, w', tr) →
  w' = w ∧ Forall no_cmd tr ∧
  match r with
  | inr v => tr = [] ∧ v = match environ w !! name with Some x => Some x | None => dflt end
  | inl e => True
  end.
Proof.
  unfold get_env, bind, ask, print, raise, ret. simpl.
  destruct (required && _); simpl; intros [= <- <- <-]; split_and!; try done.
  by repeat constructor.
Qed.

Lemma read_configuration_inv w r w' tr :
  read_configuration w = (r, w', tr) →
  w' = w ∧ Forall no_cmd tr ∧
  match r with
  | inr cfg => svn_username cfg = environ w !! "SVN_USERNAME"
               ∧ svn_password cfg = environ w !! "SVN_PASSWORD"
  | inl e => True
  end.
Proof.
  unfold read_configuration. intros H.
  repeat (apply bind_inv in H as [(e & H & ->)|(? & ? & ? & ? & Hg%get_env_inv & H & ->)];
    [apply get_env_inv in H as (-> & ? & _); done|];
    destruct Hg as (-> & _ & -> & ->)).
  unfold bind, ask, ret in H. simpl in H. injection H as <- <- <-.
  split_and!; try done. by destruct (environ w !! "SVN_USERNAME").
  by destruct (environ w !! "SVN_PASSWORD").
Qed.

Lemma prepare_working_copy_inv (cfg : Config) w r w' tr :
  prepare_working_copy cfg w = (r, w', tr) →
  Forall (λ e, no_cmd e ∨ ∃ o, e = Exec ["svn"; "--version"] None o) tr
  ∧ (∀ f, spawn ["svn"; "--version"] None w = NotStarted f →
     w' = w
     ∧ Forall (λ e, no_cmd e ∨ e = Exec ["svn"; "--version"] None None) tr
     ∧ ∃ e, r = inl e
       ∧ (Mirror.exists_ (source_tree w) [] = true → e = raised_on_start f)).
Proof.
  unfold prepare_working_copy, ensure_tool, try_except, run, subprocess_run,
    bind, ask, ret, print, raise, on_wc. simpl.
  destruct (Mirror.exists_ (source_tree w) []); simpl.
  2:{ intros [= <- <- <-]. split; [each_event ltac:(by left)|].
      intros f _. split_and!; [done|each_event ltac:(by left)|].
      eexists. split; done. }
  destruct (spawn ["svn"; "--version"] None w) as [rc out w1|f] eqn:Hs; simpl.
  2:{ destruct f; simpl; intros [= <- <- <-];
        (split; [each_event ltac:(first [by left | right; by eexists])|]);
        intros f' [= <-];
        (split_and!; [done|each_event ltac:(first [by left | by right])|]);
        eexists; split; done. }
  destruct (rc =? 0)%Z; simpl.
  2:{ intros [= <- <- <-].
      split; [each_event ltac:(first [by left | right; by eexists])|done]. }
  destruct (decide (os_name w1 = "nt")); simpl;
    destruct (Mirror.makedirs [] (wc_tree w1)); simpl;
    intros [= <- <- <-];
    (split; [each_event ltac:(first [by left | right; by eexists])|done]).
Qed.

Lemma checkout_and_update_inv (cfg : Config) (wc_root : string) w r w' tr :
  checkout_and_update cfg wc_root w = (r, w', tr) →
  Forall (setup_event cfg wc_root) tr.
Proof.
  unfold checkout_and_update. intros H.
  apply bind_inv in H as [(e & H & ->)|(? & ? & ? & ? & H1 & H & ->)].
  { apply run_checked_inv in H as (o & -> & _).
    each_event ltac:(first [by left | right; right; left; by eexists]). }
  apply run_checked_inv in H1 as (o & -> & _).
  apply bind_inv in H as [(e & H & ->)|(? & ? & ? & ? & H2 & H & ->)].
  - apply run_checked_inv in H as (o2 & -> & _).
    each_event ltac:(first [by left | right; right; left; by eexists
                            | right; right; right; left; by eexists]).
  - apply run_checked_inv in H2 as (o2 & -> & _).
    unfold ret in H. injection H as <- <- <-.
    each_event ltac:(first [by left | right; right; left; by eexists
                            | right; right; right; left; by eexists]).
Qed.

Lemma copy_into_working_copy_inv (cfg : Config) (wc_root : string) w r w' tr :
  copy_into_working_copy cfg wc_root w = (r, w', tr) →
  Forall (setup_event cfg wc_root) tr.
Proof.
  unfold copy_into_working_copy. intros H.
  apply bind_inv in H as [(e & H & ->)|(name & ? & ? & ? & H1 & H & ->)].
  { unfold ask in H. done. }
  unfold ask in H1. injection H1 as <- <- <-. simpl.
  destruct (decide (os_name w = "nt")).
  - apply bind_inv in H as [(e' & H & ->)|(? & ? & ? & ? & H2 & H & ->)].
    + apply run_unchecked_inv in H as (o & ->).
      each_event ltac:(first [by left | do 4 right; by eexists _, _]).
    + apply run_unchecked_inv in H2 as (o & ->).
      unfold ret in H. injection H as <- <- <-.
      each_event ltac:(first [by left | do 4 right; by eexists _, _]).
  - unfold bind, ask, on_wc in H. simpl in H.
    destruct (Mirror.mirror _ _); injection H as <- <- <-; constructor.
Qed.

(** Up to the reconciliation a run emits set-up events only; what follows
    is the run of [reconcile] and [commit_if_changed]. *)
Lemma main_inv w r w' tr :
  main w = (r, w', tr) →
  ∃ cfg wc_root t1 t2,
    tr = t1 ++ t2
    ∧ Forall (setup_event cfg wc_root) t1
    ∧ svn_username cfg = environ w !! "SVN_USERNAME"
    ∧ svn_password cfg = environ w !! "SVN_PASSWORD"
    ∧ ((t2 = [] ∧ ∃ e, r = inl e)
       ∨ ∃ w2, bind (reconcile wc_root) (λ _, commit_if_changed cfg wc_root) w2
               = (r, w', t2)).
Proof.
  unfold main. intros H.
  apply bind_inv in H as [(e & H & ->)|(cfg & w1 & t0 & ta & H0 & H & ->)].
  { apply read_configuration_inv in H as (-> & Hf & _).
    exists {| source_path := ""; svn_url := "";
              svn_username := environ w !! "SVN_USERNAME";
              svn_password := environ w !! "SVN_PASSWORD"; commit_msg := "" |},
      "", tr, []. rewrite app_nil_r. split_and!; try done; [|left; eauto].
    eapply Forall_impl; [done|]. intros ? ?. by left. }
  apply read_configuration_inv in H0 as (-> & Hf0 & Hu & Hp).
  assert (Hs0 : ∀ wc, Forall (setup_event cfg wc) t0).
  { intros wc. eapply Forall_impl; [done|]. intros ? ?. by left. }
  apply bind_inv in H as [(e & H & ->)|(wc & w2 & t1 & tb & H1 & H & ->)].
  { apply prepare_working_copy_inv in H as [Hf _].
    exists cfg, "", (t0 ++ ta), []. rewrite app_nil_r. split_and!; try done; [|left; eauto].
    apply Forall_app. split; [done|].
    eapply Forall_impl; [done|]. intros ? [?|?]; [by left|right; by left]. }
  apply prepare_working_copy_inv in H1 as [Hf1 _].
  assert (Hs1 : Forall (setup_event cfg wc) t1).
  { eapply Forall_impl; [done|]. intros ? [?|?]; [by left|right; by left]. }
  apply bind_inv in H as [(e & H & ->)|(? & w3 & t2 & tc & H2 & H & ->)].
  { apply checkout_and_update_inv in H.
    exists cfg, wc, (t0 ++ t1 ++ tb), []. rewrite app_nil_r.
    split_and!; try done; [|left; eauto]. by rewrite !Forall_app. }
  apply checkout_and_update_inv in H2.
  apply bind_inv in H as [(e & H & ->)|(? & w4 & t3 & t4 & H3 & H & ->)].
  { apply copy_into_working_copy_inv in H.
    exists cfg, wc, (t0 ++ t1 ++ t2 ++ tc), []. rewrite app_nil_r.
    split_and!; try done; [|left; eauto]. by rewrite !Forall_app. }
  apply copy_into_working_copy_inv in H3.
  exists cfg, wc, (t0 ++ t1 ++ t2 ++ t3), t4.
  split_and!; try done; [by rewrite <- !app_assoc|by rewrite !Forall_app|].
  right. by exists w4.
Qed.

Lemma run_checked_cases (cmd : list string) (cwd : option string) (capture : bool)
    w r w' tr :
  run cmd cwd true capture w = (r, w', tr) →
  ∃ o, tr = ran cmd cwd o ∧
    ((∃ out, o = Some (0%Z, out) ∧
        r = inr {| returncode := 0; stdout := if capture then Some out else None |})
     ∨ ((∀ out, o ≠ Some (0%Z, out)) ∧ ∃ e, r = inl e)).
Proof.
  intros (o & -> & [(out & -> & _ & ->)|[(-> & _ & f & _ & ->)
    |(rc & out & -> & Hrc & ->)]])%run_checked_inv; eexists; (split; [done|]).
  - left. eauto.
  - right. split; [done|eauto].
  - right. split; [|eauto]. intros out' [= -> _]. done.
Qed.

Lemma rm_loop_inv (wc_root : string) (ps : list string) w r w' tr :
  for_M (λ p, print ("Scheduling delete: " +:+ p) ;;;
              run (rm_cmd p) (Some wc_root) true false ;;; ret tt) ps w = (r, w', tr) →
  Forall (rm_event wc_root ps) tr
  ∧ (r = inr tt →
     ∀ p, p ∈ ps → ∃ out, Exec (rm_cmd p) (Some wc_root) (Some (0%Z, out)) ∈ tr).
Proof.
  revert w tr. induction ps as [|p ps IH]; intros w tr H; simpl in H.
  { unfold ret in H. injection H as <- <- <-. split; [constructor|].
    intros _ p Hp. by apply elem_of_nil in Hp. }
  assert (Hmono : ∀ e, rm_event wc_root ps e → rm_event wc_root (p :: ps) e).
  { intros e [?|(p' & o & Hin & ->)]; [by left|right]. exists p', o. split; [by right|done]. }
  apply bind_inv in H as [(e & H & ->)|([] & w1 & t1 & t2 & H1 & H & ->)].
  - split; [|done].
    apply bind_inv in H as [(e' & H & [= ->])|([] & w1 & t1 & t2 & H1 & H & ->)]; [done|].
    unfold print in H1. injection H1 as <- <-.
    apply bind_inv in H as [(e' & H & [= ->])|(? & ? & ? & ? & _ & H & _)]; [|done].
    apply run_checked_cases in H as (o & -> & _).
    each_event ltac:(first [by left | right; eexists _, _; split; [by left|done]]).
  - apply bind_inv in H1 as [(e' & H1 & [=])|([] & w2 & t3 & t4 & H2 & H1 & ->)].
    unfold print in H2. injection H2 as <- <-.
    apply bind_inv in H1 as [(e' & H1 & [=])|(cp & w3 & t5 & t6 & H3 & H1 & ->)].
    unfold ret in H1. injection H1 as <- <-.
    apply run_checked_cases in H3 as (o & -> & [(out & -> & _)|(_ & e & [=])]).
    apply IH in H as [Hf Hall]. split.
    + rewrite app_nil_r. apply Forall_app. split.
      * each_event ltac:(first [by left | right; eexists _, _; split; [by left|done]]).
      * eapply Forall_impl; [done|]. apply Hmono.
    + intros -> p' [->|Hin]%elem_of_cons.
      * exists out. rewrite app_nil_r. unfold ran. set_solver.
      * destruct (Hall eq_refl p' Hin) as [out' Hout]. exists out'. set_solver.
Qed.

Lemma reconcile_inv (wc_root : string) w r w' tr :
  reconcile wc_root w = (r, w', tr) →
  ∃ o t', tr = ran status_xml_cmd (Some wc_root) o ++ t' ∧
    ( ((∀ out, o ≠ Some (0%Z, out)) ∧ t' = [] ∧ ∃ e, r = inl e)
    ∨ (∃ out, o = Some (0%Z, out) ∧ fromstring out = None ∧ t' = []
         ∧ r = inl ParseError)
    ∨ (∃ out root t_rm t_add,
         o = Some (0%Z, out) ∧ fromstring out = Some root ∧ t' = t_rm ++ t_add
         ∧ Forall (rm_event wc_root (Xml.missing_paths root)) t_rm
         ∧ ((t_add = [] ∧ ∃ e, r = inl e)
            ∨ ((∀ p, p ∈ Xml.missing_paths root →
                  ∃ out', Exec (rm_cmd p) (Some wc_root) (Some (0%Z, out')) ∈ t_rm)
               ∧ ∃ o_add, t_add = ran add_cmd (Some wc_root) o_add
                   ∧ (((∃ out', o_add = Some (0%Z, out')) ∧ r = inr tt)
                      ∨ ((∀ out', o_add ≠ Some (0%Z, out')) ∧ ∃ e, r = inl e)))))).
Proof.
  unfold reconcile. intros H.
  apply bind_inv in H as [(e & H & ->)|(ps & w1 & t1 & t2 & H1 & H & ->)].
  - unfold parse_missing_paths_from_svn_status_xml in H.
    apply bind_inv in H as [(e' & H & [= ->])|(cp & w1 & t1 & t2 & H1 & H & ->)].
    + apply run_checked_cases in H as (o & -> & [(out & -> & [=])|(Hno & _)]).
      exists o, []. split; [by rewrite app_nil_r|]. left. eauto.
    + apply run_checked_cases in H1 as (o & -> & [(out & -> & [= ->])|(_ & ? & [=])]).
      simpl in H. destruct (fromstring out) eqn:Hx; unfold raise, ret in H; [done|].
      injection H as <- <- <-. exists (Some (0%Z, out)), []. split; [done|].
      right. left. eauto.
  - unfold parse_missing_paths_from_svn_status_xml in H1.
    apply bind_inv in H1 as [(e' & H1 & [=])|(cp & w2 & t3 & t4 & H2 & H1 & ->)].
    apply run_checked_cases in H2 as (o & -> & [(out & -> & [= ->])|(_ & ? & [=])]).
    simpl in H1. destruct (fromstring out) as [root|] eqn:Hx; unfold raise, ret in H1; [|done].
    injection H1 as <- <- <-.
    exists (Some (0%Z, out)), t2. split; [by rewrite app_nil_r|].
    right. right. exists out, root.
    apply bind_inv in H as [(e & H & ->)|([] & w3 & t_rm & t_add & Hrm & H & ->)].
    + apply rm_loop_inv in H as [Hf _].
      exists t2, []. rewrite app_nil_r. split_and!; try done. left. eauto.
    + apply rm_loop_inv in Hrm as [Hf Hall].
      exists t_rm, t_add. split_and!; try done. right. split; [by apply Hall|].
      apply bind_inv in H as [(e & H & ->)|(cp & w4 & t5 & t6 & Hadd & H & ->)].
      * apply run_checked_cases in H as (o & -> & [(out' & -> & [=])|(Hno & _)]).
        exists o. split; [done|]. right. eauto.
      * unfold ret in H. injection H as <- <- <-.
        apply run_checked_cases in Hadd as (o & -> & [(out' & -> & _)|(_ & ? & [=])]).
        exists (Some (0%Z, out')). rewrite app_nil_r. split; [done|]. left. eauto.
Qed.

Lemma commit_if_changed_inv (cfg : Config) (wc_root : string) w r w' tr :
  commit_if_changed cfg wc_root w = (r, w', tr) →
  ∃ o t', tr = ran status_cmd (Some wc_root) o ++ t' ∧
    ( ((∀ out, o ≠ Some (0%Z, out)) ∧ t' = [] ∧ ∃ e, r = inl e)
    ∨ (∃ out, o = Some (0%Z, out) ∧ strip out = "" ∧ r = inr tt
         ∧ t' = [Print (status_dump (strip out));
                 Print "No changes detected. Skipping commit."])
    ∨ (∃ out o_c t'', o = Some (0%Z, out) ∧ strip out ≠ ""
         ∧ t' = Print (status_dump (strip out))
                :: ran (commit_cmd cfg) (Some wc_root) o_c ++ t''
         ∧ (((∃ out', o_c = Some (0%Z, out')) ∧ r = inr tt
              ∧ t'' = [Print (nl +:+ "Commit finished successfully.")])
            ∨ ((∀ out', o_c ≠ Some (0%Z, out')) ∧ t'' = [] ∧ ∃ e, r = inl e)))).
Proof.
  unfold commit_if_changed. intros H.
  apply bind_inv in H as [(e & H & ->)|([text changes] & w1 & t1 & t2 & H1 & H & ->)].
  - unfold get_pending_status in H.
    apply bind_inv in H as [(e' & H & [= ->])|(cp & w1 & t1 & t2 & H1 & H & ->)].
    + apply run_checked_cases in H as (o & -> & [(out & -> & [=])|(Hno & _)]).
      exists o, []. split; [by rewrite app_nil_r|]. left. eauto.
    + apply run_checked_cases in H1 as (o & -> & [(out & -> & [= ->])|(_ & ? & [=])]).
      done.
  - unfold get_pending_status in H1.
    apply bind_inv in H1 as [(e' & H1 & [=])|(cp & w2 & t3 & t4 & H2 & H1 & ->)].
    apply run_checked_cases in H2 as (o & -> & [(out & -> & [= ->])|(_ & ? & [=])]).
    simpl in H1. unfold ret in H1. injection H1 as <- <- <- <-.
    exists (Some (0%Z, out)), t2. split; [by rewrite app_nil_r|]. right.
    apply bind_inv in H as [(e & H & ->)|([] & w3 & t5 & t6 & Hp & H & ->)]; [done|].
    unfold print in Hp. injection Hp as <- <-.
    unfold truthy_str in H. destruct (decide (strip out = "")) as [Hs|Hs].
    + rewrite bool_decide_eq_false_2 in H by (by intros ?). simpl in H.
      unfold print in H. injection H as <- <- <-. left. exists out.
      split_and!; try done.
    + rewrite bool_decide_eq_true_2 in H by done. simpl in H. right.
      apply bind_inv in H as [(e & H & ->)|(cp & w4 & t7 & t8 & Hc & H & ->)].
      * apply run_checked_cases in H as (o & -> & [(out' & -> & [=])|(Hno & _)]).
        exists out, o, []. rewrite app_nil_r. split_and!; try done. right. eauto.
      * apply run_checked_cases in Hc as (o & -> & [(out' & -> & _)|(_ & ? & [=])]).
        unfold print in H. injection H as <- <- <-.
        exists out, (Some (0%Z, out')), [Print (nl +:+ "Commit finished successfully.")].
        split_and!; try done. left. eauto.
Qed.

Lemma commits_app tr1 tr2 : commits (tr1 ++ tr2) = commits tr1 + commits tr2.
Proof. unfold commits. by rewrite filter_app, length_app. Qed.

Lemma runs_none (verb : string) (P : event → Prop) tr :
  Forall P tr → (∀ e, P e → runs verb e = false) →
  filter (λ e, runs verb e) tr = [].
Proof.
  intros Hf HP. induction Hf as [|e l He _ IH]; [done|].
  rewrite filter_cons, IH. rewrite (HP e He). done.
Qed.

Lemma setup_event_runs (cfg : Config) (wc_root verb : string) (e : event) :
  setup_event cfg wc_root e →
  verb ≠ "--version" → verb ≠ "checkout" → verb ≠ "update" →
  runs verb e = false.
Proof.
  intros [He|[[o ->]|[[o ->]|[[o ->]|(cmd & o & ->)]]]] ? ? ?.
  - by destruct e.
  - simpl. apply bool_decide_eq_false. naive_solver.
  - unfold checkout_cmd, with_credentials.
    destruct (_ && _); simpl; apply bool_decide_eq_false; naive_solver.
  - simpl. apply bool_decide_eq_false. naive_solver.
  - simpl. destruct cmd; [done|].
    first [done | apply bool_decide_eq_false; naive_solver].
Qed.


Lemma setup_event_not (cfg : Config) (wc_root : string) (cmd : list string)
    (cwd : option string) (o : option (Z * string)) (verb : string) :
  setup_event cfg wc_root (Exec cmd cwd o) →
  runs verb (Exec cmd cwd o) = true →
  verb = "--version" ∨ verb = "checkout" ∨ verb = "update".
Proof.
  intros He Hr. destruct (decide (verb = "--version")); [by left|].
  destruct (decide (verb = "checkout")); [right; by left|].
  destruct (decide (verb = "update")); [right; by right|].
  rewrite (setup_event_runs cfg wc_root verb) in Hr; done.
Qed.

(** The three parts of a run: set-up, reconciliation, commit decision. *)
Lemma main_stages w r w' tr :
  main w = (r, w', tr) →
  ∃ cfg wc_root t1 t2 t3,
    tr = t1 ++ t2 ++ t3
    ∧ Forall (setup_event cfg wc_root) t1
    ∧ svn_username cfg = environ w !! "SVN_USERNAME"
    ∧ svn_password cfg = environ w !! "SVN_PASSWORD"
    ∧ ((t2 = [] ∧ t3 = [] ∧ ∃ e, r = inl e)
       ∨ ∃ w2 r2 w3,
           reconcile wc_root w2 = (r2, w3, t2)
           ∧ ((t3 = [] ∧ ∃ e, r2 = inl e ∧ r = inl e)
              ∨ (r2 = inr tt ∧ commit_if_changed cfg wc_root w3 = (r, w', t3)))).
Proof.
  intros (cfg & wc & t1 & t2 & -> & Hf & Hu & Hp & Hcases)%main_inv.
  exists cfg, wc, t1. destruct Hcases as [(-> & e & ->)|(w2 & H)].
  { exists [], []. split_and!; try done. left. eauto. }
  apply bind_inv in H as [(e & H & ->)|([] & w3 & t2a & t3 & H2 & H & ->)].
  - exists t2, []. rewrite app_nil_r. split_and!; try done. right.
    exists w2, (inl e), w'. split; [done|]. left. eauto.
  - exists t2a, t3. split_and!; try done. right.
    exists w2, (inr tt), w3. split; [done|]. right. eauto.
Qed.

Lemma rm_event_reconcile (wc_root : string) (ps : list string) tr :
  Forall (rm_event wc_root ps) tr → Forall (reconcile_event wc_root) tr.
Proof.
  intros H. eapply Forall_impl; [done|].
  intros e [?|(p & o & _ & ->)]; [by left|]. right. right. left. eauto.
Qed.

Lemma reconcile_events (wc_root : string) w r w' tr :
  reconcile wc_root w = (r, w', tr) → Forall (reconcile_event wc_root) tr.
Proof.
  intros (o & t' & -> & Hcases)%reconcile_inv.
  apply Forall_app. split.
  { each_event ltac:(first [by left | right; left; by eexists]). }
  destruct Hcases as [(_ & -> & _)|[(out & _ & _ & -> & _)
    |(out & root & t_rm & t_add & _ & _ & -> & Hrm & Hadd)]]; [constructor..|].
  apply Forall_app. split; [by eapply rm_event_reconcile|].
  destruct Hadd as [(-> & _)|(_ & o_add & -> & _)]; [constructor|].
  each_event ltac:(first [by left | do 3 right; by eexists]).
Qed.

Lemma commit_events (cfg : Config) (wc_root : string) w r w' tr :
  commit_if_changed cfg wc_root w = (r, w', tr) →
  Forall (commit_event cfg wc_root) tr.
Proof.
  intros (o & t' & -> & Hcases)%commit_if_changed_inv.
  apply Forall_app. split.
  { each_event ltac:(first [by left | right; left; by eexists]). }
  destruct Hcases as [(_ & -> & _)|[(out & _ & _ & _ & ->)
    |(out & o_c & t'' & _ & _ & -> & Hc)]].
  - constructor.
  - each_event ltac:(by left).
  - constructor; [by left|]. apply Forall_app. split.
    + each_event ltac:(first [by left | right; right; by eexists]).
    + destruct Hc as [(_ & _ & ->)|(_ & -> & _)]; each_event ltac:(by left).
Qed.

Lemma reconcile_event_runs (wc_root verb : string) (e : event) :
  reconcile_event wc_root e →
  verb ≠ "status" → verb ≠ "rm" → verb ≠ "add" →
  runs verb e = false.
Proof.
  intros [He|[[o ->]|[(p & o & ->)|[o ->]]]] ? ? ?;
    [by destruct e|simpl; apply bool_decide_eq_false; naive_solver..].
Qed.

Lemma commit_event_runs (cfg : Config) (wc_root verb : string) (e : event) :
  commit_event cfg wc_root e →
  verb ≠ "status" → verb ≠ "commit" →
  runs verb e = false.
Proof.
  intros [He|[[o ->]|[o ->]]] ? ?.
  - by destruct e.
  - simpl. apply bool_decide_eq_false. naive_solver.
  - unfold commit_cmd, with_credentials.
    destruct (_ && _); simpl; apply bool_decide_eq_false; naive_solver.
Qed.

Lemma runs_commit_cmd (cfg : Config) (cwd : option string) (o : option (Z * string)) :
  runs "commit" (Exec (commit_cmd cfg) cwd o) = true.
Proof. unfold commit_cmd, with_credentials. by destruct (_ && _). Qed.

Lemma status_not_setup (cfg : Config) (wc_root : string) (cmd : list string)
    (cwd : option string) (o : option (Z * string)) :
  cmd = status_cmd ∨ cmd = status_xml_cmd →
  ¬ setup_event cfg wc_root (Exec cmd cwd o).
Proof.
  intros Hcmd He. apply (setup_event_not _ _ _ _ _ "status") in He.
  - naive_solver.
  - by destruct Hcmd as [-> | ->].
Qed.

Lemma status_not_reconcile (wc_root : string) (cwd : option string)
    (o : option (Z * string)) :
  ¬ reconcile_event wc_root (Exec status_cmd cwd o).
Proof. intros [He|[[o' He]|[(p & o' & He)|[o' He]]]]; done. Qed.

(** A run in which the plain status query succeeded with output [out]:
    what precedes the query and what follows it. *)
Lemma decision_reached w r w' tr (cwd : option string) (out : string) :
  main w = (r, w', tr) →
  Exec status_cmd cwd (Some (0%Z, out)) ∈ tr →
  ∃ cfg wc_root t1 t2 t',
    tr = t1 ++ t2 ++ ran status_cmd (Some wc_root) (Some (0%Z, out)) ++ t'
    ∧ Forall (setup_event cfg wc_root) t1
    ∧ Forall (reconcile_event wc_root) t2
    ∧ ((strip out = "" ∧ r = inr tt
        ∧ t' = [Print (status_dump (strip out));
                Print "No changes detected. Skipping commit."])
       ∨ (strip out ≠ "" ∧ ∃ o_c t'',
            t' = Print (status_dump (strip out))
                 :: ran (commit_cmd cfg) (Some wc_root) o_c ++ t''
            ∧ Forall no_cmd t'')).
Proof.
  intros (cfg & wc & t1 & t2 & t3 & -> & Hf1 & _ & _ & Hcases)%main_stages Hin.
  assert (Hn1 : Exec status_cmd cwd (Some (0%Z, out)) ∉ t1).
  { intros Hin1. rewrite Forall_forall in Hf1.
    apply (status_not_setup cfg wc status_cmd cwd (Some (0%Z, out))); [by left|].
    by apply Hf1. }
  destruct Hcases as [(-> & -> & _)|(w2 & r2 & w3 & Hrec & Hc)].
  { rewrite !app_nil_r in Hin. done. }
  pose proof (reconcile_events _ _ _ _ _ Hrec) as Hf2.
  assert (Hn2 : Exec status_cmd cwd (Some (0%Z, out)) ∉ t2).
  { intros Hin2. rewrite Forall_forall in Hf2.
    by apply (status_not_reconcile wc cwd (Some (0%Z, out))), Hf2. }
  destruct Hc as [(-> & _)|(-> & Hc)].
  { rewrite app_nil_r in Hin. set_solver. }
  apply commit_if_changed_inv in Hc as (o & t' & -> & Hc).
  assert (Hin3 : Exec status_cmd cwd (Some (0%Z, out))
                 ∈ ran status_cmd (Some wc) o ++ t') by set_solver.
  assert (Ho : o = Some (0%Z, out)).
  { unfold ran in Hin3.
    destruct Hc as [(_ & -> & _)|[(out' & _ & _ & _ & ->)
      |(out' & o_c & t'' & _ & _ & -> & Hc)]].
    - set_solver.
    - set_solver.
    - assert (Exec status_cmd cwd (Some (0%Z, out)) ∉ t'').
      { destruct Hc as [(_ & _ & ->)|(_ & -> & _)]; set_solver. }
      assert (Exec status_cmd cwd (Some (0%Z, out))
              ≠ Exec (commit_cmd cfg) (Some wc) o_c).
      { intros Heq. pose proof (runs_commit_cmd cfg (Some wc) o_c) as Hr.
        rewrite <- Heq in Hr. done. }
      unfold ran in Hin3. set_solver. }
  subst o. exists cfg, wc, t1, t2, t'. split_and!; try done.
  destruct Hc as [(Hno & _)|[(out' & [= <-] & Hs & -> & ->)
      |(out' & o_c & t'' & [= <-] & Hs & -> & Hc)]].
  - by destruct (Hno out).
  - left. done.
  - right. split; [done|]. exists o_c, t''. split; [done|].
    destruct Hc as [(_ & _ & ->)|(_ & -> & _)]; each_event ltac:(done).
Qed.

Lemma commits_setup (cfg : Config) (wc_root : string) tr :
  Forall (setup_event cfg wc_root) tr → commits tr = 0.
Proof.
  intros Hf. unfold commits.
  rewrite (runs_none "commit" _ tr Hf); [done|].
  intros e He. by apply (setup_event_runs cfg wc_root).
Qed.

Lemma commits_reconcile (wc_root : string) tr :
  Forall (reconcile_event wc_root) tr → commits tr = 0.
Proof.
  intros Hf. unfold commits.
  rewrite (runs_none "commit" _ tr Hf); [done|].
  intros e He. by apply (reconcile_event_runs wc_root).
Qed.

Lemma commits_no_cmd tr : Forall no_cmd tr → commits tr = 0.
Proof.
  intros Hf. unfold commits.
  rewrite (runs_none "commit" _ tr Hf); [done|]. by intros [].
Qed.

Lemma commits_print (text : string) tr : commits (Print text :: tr) = commits tr.
Proof. done. Qed.

Lemma commits_commit (cfg : Config) (cwd : option string) (o : option (Z * string)) tr :
  commits (Exec (commit_cmd cfg) cwd o :: tr) = S (commits tr).
Proof.
  unfold commits. rewrite filter_cons, (runs_commit_cmd cfg). done.
Qed.

Lemma commits_status (cwd : option string) (o : option (Z * string)) :
  commits (ran status_cmd cwd o) = 0.
Proof. done. Qed.

Lemma commits_ran_commit (cfg : Config) (cwd : option string)
    (o : option (Z * string)) tr :
  commits (ran (commit_cmd cfg) cwd o ++ tr) = S (commits tr).
Proof.
  change (ran (commit_cmd cfg) cwd o ++ tr)
    with (Print (banner (commit_cmd cfg) cwd) :: Exec (commit_cmd cfg) cwd o :: tr).
  by rewrite commits_print, commits_commit.
Qed.

(** C2. Commit gating: in every run that reaches the commit decision (the
    plain status query has succeeded), an empty status text means that no
    commit command is invoked and that the run ends successfully, its last
    output being the no-changes message; a non-empty status text means that
    exactly one commit command is invoked. *)
Theorem commit_gating w r w' tr (cwd : option string) (out : string) :
  main w = (r, w', tr) →
  Exec status_cmd cwd (Some (0%Z, out)) ∈ tr →
  (strip out = "" →
     commits tr = 0 ∧ r = inr tt
     ∧ last tr = Some (Print "No changes detected. Skipping commit."))
  ∧ (strip out ≠ "" → commits tr = 1).
Proof.
  intros Hmain Hin.
  destruct (decision_reached w r w' tr cwd out Hmain Hin)
    as (cfg & wc & t1 & t2 & t' & -> & Hf1 & Hf2 & Hcases).
  rewrite !commits_app, (commits_setup cfg wc t1 Hf1), (commits_reconcile wc t2 Hf2).
  split; intros Hs.
  - destruct Hcases as [(_ & -> & ->)|(Hne & _)]; [|done].
    split_and!; [done..|].
    rewrite !app_assoc. by rewrite (last_app_cons _ _ (Print _)), last_cons_cons.
  - destruct Hcases as [(He & _)|(_ & o_c & t'' & -> & Hf)]; [done|].
    by rewrite commits_status, commits_print, commits_ran_commit,
      (commits_no_cmd t'' Hf).
Qed.

(** *** Whitespace *)

Lemma lstrip_blank (s : string) : blank s = true → lstrip s = "".
Proof.
  induction s as [|c s IH]; simpl; [done|].
  intros [Hc Hs]%andb_true_iff. rewrite Hc. by apply IH.
Qed.

Lemma rstrip_blank (s : string) : blank s = true → rstrip s = "".
Proof.
  induction s as [|c s IH]; simpl; [done|].
  intros [Hc Hs]%andb_true_iff. by rewrite (IH Hs), Hc.
Qed.

Lemma rstrip_empty (s : string) : rstrip s = "" → blank s = true.
Proof.
  induction s as [|c s IH]; simpl; [done|].
  destruct (rstrip s) eqn:Hr; [|done].
  destruct (isspace c); [|done]. intros _. by rewrite IH.
Qed.

Lemma lstrip_blank_inv (s : string) : blank (lstrip s) = true → blank s = true.
Proof.
  induction s as [|c s IH]; simpl; [done|].
  destruct (isspace c) eqn:Hc; simpl; [done|]. by rewrite Hc.
Qed.

(** The stripped text is empty exactly when the text is made of whitespace
    only. *)
Lemma strip_empty (s : string) : strip s = "" ↔ blank s = true.
Proof.
  unfold strip. split.
  - intros H%rstrip_empty. by apply lstrip_blank_inv.
  - intros H. by rewrite (lstrip_blank s H).
Qed.

(** C10. The emptiness check of the commit gate is made on the stripped
    status output: when the status query succeeds with an output made of
    whitespace only (a lone newline for instance), the text returned by
    [get_pending_status] is empty, no commit command is invoked and the
    run ends successfully. *)
Theorem whitespace_status_suppresses_commit w r w' tr
    (cwd : option string) (out : string) :
  main w = (r, w', tr) →
  Exec status_cmd cwd (Some (0%Z, out)) ∈ tr →
  blank out = true →
  strip out = "" ∧ commits tr = 0 ∧ r = inr tt.
Proof.
  intros Hmain Hin Hb. apply strip_empty in Hb. split; [done|].
  destruct (decision_reached w r w' tr cwd out Hmain Hin)
    as (cfg & wc & t1 & t2 & t' & -> & Hf1 & Hf2 & [(_ & -> & ->)|(Hne & _)]);
    [|done].
  split; [|done].
  by rewrite !commits_app, (commits_setup cfg wc t1 Hf1),
    (commits_reconcile wc t2 Hf2).
Qed.

Lemma bind_ok {A B : Type} (m : M Ext A) (k : A → M Ext B) w a w1 :
  m w = (inr a, w1, []) → bind m k w = k a w1.
Proof. unfold bind. intros ->. by destruct (k a w1) as [[? ?] ?]. Qed.

Lemma get_env_ok (name : string) (dflt : option string) (required : bool) w :
  (required = true → truthy (environ w !! name) = true) →
  get_env name dflt required w
  = (inr match environ w !! name with Some x => Some x | None => dflt end, w, []).
Proof.
  intros Hreq. unfold get_env, bind, ask, ret. simpl.
  destruct required; simpl; [|done].
  destruct (environ w !! name) as [v|]; simpl in *; [|by specialize (Hreq eq_refl)].
  by rewrite (Hreq eq_refl).
Qed.

Lemma read_configuration_ok w :
  truthy (environ w !! "SOURCE_PATH") = true →
  truthy (environ w !! "SVN_URL") = true →
  ∃ cfg, read_configuration w = (inr cfg, w, []).
Proof.
  intros Hsp Hurl. unfold read_configuration.
  erewrite bind_ok; [|by apply get_env_ok].
  erewrite bind_ok; [|by apply get_env_ok].
  erewrite bind_ok; [|by apply get_env_ok].
  erewrite bind_ok; [|by apply get_env_ok].
  erewrite bind_ok; [|by apply get_env_ok].
  by eexists.
Qed.

(** C7. When the tool check fails because [svn] is not found, the run
    aborts at once: the world is left exactly as it was (no working-copy
    directory is created, nothing is mutated), and the only command the
    run attempted is the failed [svn --version]: no checkout, no mirror,
    no commit.  With a valid configuration and an existing source the
    exception is the one raised by the failed start. *)
Theorem tool_missing_aborts_before_mutation w :
  spawn ["svn"; "--version"] None w = NotStarted NotFound →
  ∃ e tr,
    main w = (inl e, w, tr)
    ∧ Forall (λ ev, no_cmd ev ∨ ev = Exec ["svn"; "--version"] None None) tr
    ∧ (truthy (environ w !! "SOURCE_PATH") = true →
       truthy (environ w !! "SVN_URL") = true →
       Mirror.exists_ (source_tree w) [] = true →
       e = FileNotFoundError
       ∧ Exec ["svn"; "--version"] None None ∈ tr).
Proof.
  intros Hs. destruct (main w) as [[r w'] tr] eqn:Hmain.
  pose proof Hmain as H. unfold main in H.
  apply bind_inv in H as [(e & H & ->)|(cfg & w1 & t0 & ta & H0 & H & ->)].
  { pose proof H as Hcfg.
    apply read_configuration_inv in H as (-> & Hf & _).
    exists e, tr. split_and!; [done| |].
    - eapply Forall_impl; [done|]. intros ? ?. by left.
    - intros Hsp Hurl _. exfalso.
      destruct (read_configuration_ok w Hsp Hurl) as [cfg Hok]. congruence. }
  apply read_configuration_inv in H0 as (-> & Hf0 & _).
  apply bind_inv in H as [(e & H & ->)|(wc & w2 & t1 & tb & H1 & H & ->)].
  - pose proof H as Hprep.
    apply prepare_working_copy_inv in H as [_ H].
    destruct (H _ Hs) as (-> & Hf & e' & [= ->] & He).
    exists e', (t0 ++ ta). split_and!; [done| |].
    + apply Forall_app. split; [|done].
      eapply Forall_impl; [done|]. intros ? ?. by left.
    + intros _ _ Hex. split; [by apply He|].
      apply elem_of_app. right. revert Hprep.
      unfold prepare_working_copy, ensure_tool, try_except, run, subprocess_run,
        bind, ask, ret, print, raise, on_wc. simpl.
      rewrite Hex, Hs. simpl. intros [= <- <-]. set_solver.
  - apply prepare_working_copy_inv in H1 as [_ H1].
    destruct (H1 _ Hs) as (_ & _ & e' & [=] & _).
Qed.

Lemma status_xml_not_commit_event (cfg : Config) (wc_root : string)
    (cwd : option string) (o : option (Z * string)) :
  ¬ commit_event cfg wc_root (Exec status_xml_cmd cwd o).
Proof.
  intros [He|[[o' He]|[o' He]]]; [done..|].
  pose proof (runs_commit_cmd cfg (Some wc_root) o') as Hr.
  by rewrite <- He in Hr.
Qed.

Lemma status_xml_not_rm_event (wc_root : string) (ps : list string)
    (cwd : option string) (o : option (Z * string)) :
  ¬ rm_event wc_root ps (Exec status_xml_cmd cwd o).
Proof. by intros [He|(p & o' & _ & He)]. Qed.

(** A run in which the status query in XML form returned: its place in the
    trace and what the reconciliation did next. *)
Lemma status_xml_reached w r w' tr (cwd : option string) (rc : Z) (out : string) :
  main w = (r, w', tr) →
  Exec status_xml_cmd cwd (Some (rc, out)) ∈ tr →
  ∃ cfg wc_root t1 t2 t3,
    tr = t1 ++ (ran status_xml_cmd (Some wc_root) (Some (rc, out)) ++ t2) ++ t3
    ∧ cwd = Some wc_root
    ∧ Forall (setup_event cfg wc_root) t1
    ∧ Forall (commit_event cfg wc_root) t3
    ∧ ( (rc ≠ 0%Z ∧ t2 = [] ∧ t3 = [] ∧ ∃ e, r = inl e)
      ∨ (rc = 0%Z ∧ fromstring out = None ∧ t2 = [] ∧ t3 = [] ∧ r = inl ParseError)
      ∨ (∃ root t_rm t_add,
           rc = 0%Z ∧ fromstring out = Some root ∧ t2 = t_rm ++ t_add
           ∧ Forall (rm_event wc_root (Xml.missing_paths root)) t_rm
           ∧ ((t_add = [] ∧ t3 = [] ∧ ∃ e, r = inl e)
              ∨ ((∀ p, p ∈ Xml.missing_paths root →
                    ∃ out', Exec (rm_cmd p) (Some wc_root) (Some (0%Z, out')) ∈ t_rm)
                 ∧ ∃ o_add, t_add = ran add_cmd (Some wc_root) o_add)))).
Proof.
  intros (cfg & wc & t1 & t2 & t3 & -> & Hf1 & _ & _ & Hcases)%main_stages Hin.
  assert (Hn1 : Exec status_xml_cmd cwd (Some (rc, out)) ∉ t1).
  { intros Hin1. rewrite Forall_forall in Hf1.
    apply (status_not_setup cfg wc status_xml_cmd cwd (Some (rc, out))); [by right|].
    by apply Hf1. }
  destruct Hcases as [(-> & -> & _)|(w2 & r2 & w3 & Hrec & Hc)].
  { rewrite !app_nil_r in Hin. done. }
  assert (Hf3 : Forall (commit_event cfg wc) t3).
  { destruct Hc as [(-> & _)|(_ & Hc)]; [constructor|by eapply commit_events]. }
  assert (Hn3 : Exec status_xml_cmd cwd (Some (rc, out)) ∉ t3).
  { intros Hin3. rewrite Forall_forall in Hf3.
    by apply (status_xml_not_commit_event cfg wc cwd (Some (rc, out))), Hf3. }
  assert (Hin2 : Exec status_xml_cmd cwd (Some (rc, out)) ∈ t2) by set_solver.
  apply reconcile_inv in Hrec as (o & t' & -> & Hrec).
  assert (Ho : Exec status_xml_cmd cwd (Some (rc, out))
               = Exec status_xml_cmd (Some wc) o).
  { unfold ran in Hin2.
    destruct Hrec as [(_ & -> & _)|[(out' & _ & _ & -> & _)
      |(out' & root & t_rm & t_add & _ & _ & -> & Hrm & Hadd)]]; [set_solver..|].
    assert (Exec status_xml_cmd cwd (Some (rc, out)) ∉ t_rm).
    { intros Hin'. rewrite Forall_forall in Hrm.
      by eapply status_xml_not_rm_event, Hrm. }
    assert (Exec status_xml_cmd cwd (Some (rc, out)) ∉ t_add).
    { destruct Hadd as [(-> & _)|(_ & o_add & -> & _)]; unfold ran; set_solver. }
    set_solver. }
  injection Ho as -> <-.
  exists cfg, wc, t1, t', t3. split_and!; try done.
  destruct Hrec as [(Hno & -> & e & ->)|[(out' & [= -> ->] & Hx & -> & ->)
    |(out' & root & t_rm & t_add & [= -> ->] & Hx & -> & Hrm & Hadd)]].
  - left. destruct Hc as [(-> & e' & _ & ->)|([=] & _)].
    split_and!; try done; [|eauto]. intros ->. by destruct (Hno out).
  - right. left. destruct Hc as [(-> & e & [= <-] & ->)|([=] & _)]. done.
  - right. right. exists root, t_rm, t_add. split_and!; try done.
    destruct Hadd as [(-> & e & ->)|(Hall & o_add & -> & _)].
    + left. destruct Hc as [(-> & e' & _ & ->)|([=] & _)]. eauto.
    + right. eauto.
Qed.

Lemma ran_runs (verb : string) (cmd : list string) (cwd : option string)
    (o : option (Z * string)) (e : event) :
  e ∈ ran cmd cwd o → runs verb (Exec cmd cwd o) = false → runs verb e = false.
Proof. unfold ran. intros Hin Hr. set_solver. Qed.

(** C6. A status document that does not parse is fatal: when the status
    query in XML form returns an output on which [ET.fromstring] fails,
    the run ends with an exception (the parse error itself when the query
    succeeded) and neither a remove, nor the add, nor a commit command is
    invoked anywhere in the run. *)
Theorem parse_failure_is_fatal w r w' tr (cwd : option string) (rc : Z) (out : string) :
  main w = (r, w', tr) →
  Exec status_xml_cmd cwd (Some (rc, out)) ∈ tr →
  fromstring out = None →
  (∃ e, r = inl e ∧ (rc = 0%Z → e = ParseError))
  ∧ ∀ ev, ev ∈ tr →
      runs "rm" ev = false ∧ runs "add" ev = false ∧ runs "commit" ev = false.
Proof.
  intros Hmain Hin Hx.
  destruct (status_xml_reached w r w' tr cwd rc out Hmain Hin)
    as (cfg & wc & t1 & t2 & t3 & -> & -> & Hf1 & Hf3 & Hcases).
  assert (Hstop : t2 = [] ∧ t3 = [] ∧ ∃ e, r = inl e ∧ (rc = 0%Z → e = ParseError)).
  { destruct Hcases as [(Hrc & -> & -> & e & ->)|[(-> & _ & -> & -> & ->)
      |(root & ? & ? & _ & Hx' & _)]]; [| |congruence].
    - split_and!; try done. exists e. split; [done|]. by intros ?.
    - split_and!; try done. by exists ParseError. }
  destruct Hstop as (-> & -> & Hr). split; [done|].
  rewrite !app_nil_r. intros ev [Hev|Hev]%elem_of_app.
  - rewrite Forall_forall in Hf1. specialize (Hf1 ev Hev).
    split_and!; by apply (setup_event_runs cfg wc).
  - split_and!; by apply (ran_runs _ _ _ _ _ Hev).
Qed.





Lemma with_credentials_flags (cfg : Config) (cmd : list string) :
  with_credentials cfg cmd
  = cmd ++ credential_flags (svn_username cfg) (svn_password cfg).
Proof.
  unfold with_credentials, credential_flags, truthy, truthy_str.
  destruct (svn_username cfg) as [u|], (svn_password cfg) as [p|]; simpl;
    rewrite ?andb_false_r, ?app_nil_r; try done.
  destruct (decide (u ≠ "")), (decide (p ≠ ""));
    rewrite ?bool_decide_eq_true_2, ?bool_decide_eq_false_2 by done; simpl;
    rewrite ?andb_false_r; simpl.
  - by rewrite decide_True.
  - rewrite decide_False by tauto. by rewrite app_nil_r.
  - rewrite decide_False by tauto. by rewrite app_nil_r.
  - rewrite decide_False by tauto. by rewrite app_nil_r.
Qed.

(** C9. The credential flags are coupled: in every run, what a checkout
    or a commit command carries after its six fixed arguments is the
    triple of flags [--username U --password P --no-auth-cache] when both
    [SVN_USERNAME] and [SVN_PASSWORD] are set and non-empty, and nothing
    otherwise; with only one of the two set, no flag is passed. *)
Theorem credentials_coupled w r w' tr (cmd : list string)
    (cwd : option string) (o : option (Z * string)) :
  main w = (r, w', tr) →
  Exec cmd cwd o ∈ tr →
  runs "checkout" (Exec cmd cwd o) = true ∨ runs "commit" (Exec cmd cwd o) = true →
  drop 6 cmd
  = credential_flags (environ w !! "SVN_USERNAME") (environ w !! "SVN_PASSWORD").
Proof.
  intros (cfg & wc & t1 & t2 & t3 & -> & Hf1 & Hu & Hp & Hcases)%main_stages Hin Hr.
  rewrite <- Hu, <- Hp.
  assert (Hf2 : Forall (reconcile_event wc) t2).
  { destruct Hcases as [(-> & _)|(? & ? & ? & Hrec & _)];
      [constructor|by eapply reconcile_events]. }
  assert (Hf3 : Forall (commit_event cfg wc) t3).
  { destruct Hcases as [(_ & -> & _)|(? & ? & ? & _ & [(-> & _)|(_ & Hc)])];
      [constructor..|by eapply commit_events]. }
  rewrite Forall_forall in Hf1, Hf2, Hf3.
  apply elem_of_app in Hin as [Hin|[Hin|Hin]%elem_of_app].
  - destruct (Hf1 _ Hin) as [He|[[o' He]|[[o' He]|[[o' He]|(c & o' & He)]]]];
      [done| | | |]; injection He as -> -> ->.
    + by destruct Hr.
    + unfold checkout_cmd. by rewrite with_credentials_flags.
    + by destruct Hr.
    + destruct c; by destruct Hr.
  - rewrite (reconcile_event_runs wc "checkout" _ (Hf2 _ Hin)) in Hr by done.
    rewrite (reconcile_event_runs wc "commit" _ (Hf2 _ Hin)) in Hr by done.
    by destruct Hr.
  - destruct (Hf3 _ Hin) as [He|[[o' He]|[o' He]]]; [done| |];
      injection He as -> -> ->.
    + by destruct Hr.
    + unfold commit_cmd. by rewrite with_credentials_flags.
Qed.

End script_facts.

(** ** The status reader and the forced removes *)

Section xml_claims.
Import Xml.
Context {Ext : Type} `{!Externals Ext}.

(** C5, as stated, fails: an entry in state [missing] whose path is the
    empty string is skipped by the guard [if path:]. *)
Lemma missing_paths_skips_empty_path :
  ¬ (∀ root p,
       p ∈ missing_paths root ↔
       ∃ e, descendant root e ∧ tag e = "entry"
            ∧ item_state e = Some "missing" ∧ get e "path" = Some p).
Proof.
  intros H. destruct (H empty_path_status "") as [_ Hin].
  assert (Hno : missing_paths empty_path_status = []) by (by vm_compute).
  rewrite Hno in Hin. apply (not_elem_of_nil ""), Hin.
  eexists (Element "entry" {[ "path" := "" ]}
             [Element "wc-status" {[ "item" := "missing" ]} []]).
  split_and!; [|done..].
  eapply descendant_deeper; [by left|]. apply descendant_child. by left.
Qed.

(** Every [svn rm] of a run is the forced remove of a path that the
    reader returned for the status document of that run. *)
Lemma rm_command_inv (w : World Ext) (r : exn + unit) (w' : World Ext)
    (tr : list event) (cmd : list string) (cwd : option string)
    (o : option (Z * string)) :
  main w = (r, w', tr) →
  Exec cmd cwd o ∈ tr →
  runs "rm" (Exec cmd cwd o) = true →
  ∃ wc_root out root p,
    Exec status_xml_cmd (Some wc_root) (Some (0%Z, out)) ∈ tr
    ∧ fromstring out = Some root
    ∧ p ∈ missing_paths root
    ∧ cmd = rm_cmd p ∧ cwd = Some wc_root.
Proof.
  intros (cfg & wc & t1 & t2 & t3 & -> & Hf1 & _ & _ & Hcases)%main_stages Hin Hruns.
  rewrite Forall_forall in Hf1.
  apply elem_of_app in Hin as [Hin|Hin].
  { by rewrite (setup_event_runs cfg wc "rm" _ (Hf1 _ Hin)) in Hruns. }
  destruct Hcases as [(-> & -> & _)|(w2 & r2 & w3 & Hrec & Hc)].
  { by apply elem_of_nil in Hin. }
  apply elem_of_app in Hin as [Hin|Hin].
  2:{ destruct Hc as [[-> _]|[_ Hc]]; [by apply elem_of_nil in Hin|].
      apply commit_events in Hc. rewrite Forall_forall in Hc.
      by rewrite (commit_event_runs cfg wc "rm" _ (Hc _ Hin)) in Hruns. }
  apply reconcile_inv in Hrec as (o' & t' & -> & Hrec).
  assert (Hq : ∀ o'', Exec cmd cwd o ∉ ran status_xml_cmd (Some wc) o'').
  { intros o'' Hq. unfold ran in Hq.
    apply elem_of_cons in Hq as [[=]|Hq].
    apply list_elem_of_singleton in Hq as [= -> -> ->]. done. }
  apply elem_of_app in Hin as [Hin|Hin]; [by apply Hq in Hin|].
  destruct Hrec as [(_ & -> & _)|[(out & _ & _ & -> & _)
    |(out & root & t_rm & t_add & -> & Hroot & -> & Hrm & Hadd)]];
    [by apply elem_of_nil in Hin..|].
  apply elem_of_app in Hin as [Hin|Hin].
  - rewrite Forall_forall in Hrm.
    destruct (Hrm _ Hin) as [[]|(p & o'' & Hp & [= -> -> ->])].
    exists wc, out, root, p. split_and!; try done.
    apply elem_of_app. right. apply elem_of_app. left.
    apply elem_of_app. left. unfold ran. set_solver.
  - exfalso. destruct Hadd as [(-> & _)|(_ & o_add & -> & _)];
      [by apply elem_of_nil in Hin|].
    unfold ran in Hin. apply elem_of_cons in Hin as [[=]|Hin].
    apply list_elem_of_singleton in Hin as [= -> -> ->]. done.
Qed.

(** C5, amended.  The status reader returns exactly the set of non-empty
    [path] attributes of the [entry] elements beneath the root whose
    first [wc-status] child carries the item state ["missing"]: an entry
    in any other state, without such a child, or without a non-empty
    path contributes nothing to the list.  And every [svn rm] that a run
    starts is the forced remove of the non-empty path of an entry that
    the status document of that run reports in state ["missing"]. *)
Theorem missing_paths_exact :
  (∀ root p,
     p ∈ missing_paths root ↔
     ∃ e, descendant root e ∧ tag e = "entry"
          ∧ item_state e = Some "missing" ∧ get e "path" = Some p ∧ p ≠ "")
  ∧ (∀ (w : World Ext) r w' tr cmd cwd o,
       main w = (r, w', tr) →
       Exec cmd cwd o ∈ tr →
       runs "rm" (Exec cmd cwd o) = true →
       ∃ cwd' out root e p,
         Exec status_xml_cmd cwd' (Some (0%Z, out)) ∈ tr
         ∧ fromstring out = Some root
         ∧ descendant root e ∧ tag e = "entry"
         ∧ item_state e = Some "missing" ∧ get e "path" = Some p ∧ p ≠ ""
         ∧ cmd = rm_cmd p).
Proof.
  split; [exact elem_of_missing_paths|].
  intros w r w' tr cmd cwd o Hmain Hin Hruns.
  destruct (rm_command_inv w r w' tr cmd cwd o Hmain Hin Hruns)
    as (wc & out & root & p & Hx & Hroot & Hp & -> & _).
  apply elem_of_missing_paths in Hp as (e & Hd & Ht & Hi & Hpath & Hne).
  exists (Some wc), out, root, e, p. by split_and!.
Qed.

End xml_claims.

(** ** The portable mirror: what holds and where it breaks *)

Section mirror_claims.
Import Mirror.

(** Between trees that agree on what is a file and what is a directory the
    portable mirror is complete: every file of the source ends up in the
    working copy with the same data, and what the working copy alone had
    is gone, the metadata directory apart. *)
Lemma mirror_complete (src t : tree) :
  wf src → wf t → src !! [] = Some Dir → no_kind_clash src t →
  ∃ t', mirror src t = Ok t'
    ∧ (∀ p data, src !! p = Some (File data) → t' !! p = Some (File data))
    ∧ (∀ p, is_Some (t !! p) → src !! p = None → ¬ svn_protected t p →
         t' !! p = None).
Proof.
  intros Hsrc Hwf Hroot Hc.
  destruct (mirror_spec src t Hsrc Hwf Hroot Hc) as (t' & Hm & Hspec).
  exists t'. split_and!; [done| |].
  - intros p data Hp. by rewrite Hspec, Hp.
  - intros p _ Hp Hprot. rewrite Hspec, Hp. by rewrite decide_False.
Qed.

Lemma mirror_result_wf (src t t' : tree) :
  wf src → wf t → src !! [] = Some Dir → no_kind_clash src t →
  (∀ q, t' !! q =
     match src !! q with
     | Some e => Some e
     | None => if decide (svn_protected t q) then t !! q else None
     end) →
  wf t' ∧ no_kind_clash src t'.
Proof.
  intros Hsrc Hwf Hroot Hc Hspec. split.
  - intros q n. rewrite !Hspec. intros Hs.
    destruct (src !! (q ++ [n])) as [e|] eqn:Hqn.
    { rewrite (Hsrc q n); [done|]. by rewrite Hqn. }
    destruct (decide (svn_protected t (q ++ [n]))) as [[Hp Hsvn]|]; [|by destruct Hs].
    pose proof (Hwf q n Hs) as Hq. specialize (Hc q). rewrite Hq in Hc.
    destruct (src !! q) as [[data|]|] eqn:Hsq; [done..|].
    rewrite decide_True; [done|]. split; [|done].
    destruct q as [|m q]; [congruence|].
    destruct Hp as [k Hk]. simpl in Hk. injection Hk as -> _. by exists q.
  - intros q. rewrite Hspec. by destruct (src !! q) as [[?|]|].
Qed.

(** Between such trees a second mirror changes nothing: its deletion pass
    removes nothing, its copy pass rewrites what is there. *)
Lemma mirror_idempotent (src t t' : tree) :
  wf src → wf t → src !! [] = Some Dir → no_kind_clash src t →
  mirror src t = Ok t' →
  delete_pass src t' = Ok t' ∧ copy_pass src t' = Ok t' ∧ mirror src t' = Ok t'.
Proof.
  intros Hsrc Hwf Hroot Hc Hm.
  destruct (mirror_spec src t Hsrc Hwf Hroot Hc) as (t'' & Hm' & Hspec).
  assert (t'' = t') as -> by congruence.
  destruct (mirror_result_wf src t t' Hsrc Hwf Hroot Hc Hspec) as [Hwf' Hc'].
  assert (Hd : delete_pass src t' = Ok t').
  { destruct (delete_pass_spec src t' Hsrc Hwf') as (t1 & -> & H1). f_equal.
    apply map_eq. intros q. rewrite H1.
    destruct (decide (extra src t' [] q)) as [(Hb & Hq & Hprot)|]; [|done].
    rewrite Hspec, Hq.
    destruct (decide (svn_protected t q)) as [[Hp Hsvn]|]; [|done].
    exfalso. apply Hprot. split; [done|]. rewrite Hspec.
    specialize (Hc [".svn"]). rewrite Hsvn in Hc.
    destruct (src !! [".svn"]) as [[data|]|]; [done..|].
    by rewrite decide_True. }
  assert (Hcp : copy_pass src t' = Ok t').
  { destruct (copy_pass_spec src t' Hsrc Hroot Hc') as (t2 & -> & H2). f_equal.
    apply map_eq. intros q. rewrite H2.
    destruct (decide (is_Some (src !! q))) as [[e He]|]; [|done].
    by rewrite Hspec, He. }
  split_and!; [done..|]. unfold mirror. by rewrite Hd.
Qed.

(** Both conditions on the shape of trees can be checked entry by entry. *)
Lemma wf_by_entries (t : tree) :
  map_Forall (λ q _, q = [] ∨ t !! removelast q = Some Dir) t → wf t.
Proof.
  intros H q n [e He]. apply H in He as [Hnil|Hp].
  - by destruct q.
  - by rewrite removelast_last in Hp.
Qed.

Lemma no_kind_clash_by_entries (src t : tree) :
  map_Forall (λ q e, same_kind e (t !! q)) src → no_kind_clash src t.
Proof.
  intros H q. destruct (src !! q) as [e|] eqn:Hq; [|done].
  apply H in Hq. by destruct e, (t !! q) as [[?|]|].
Qed.

(** The mirror at work on trees without a clash: the new files arrive, the
    stale content is overwritten, the file that the source no longer has
    goes, the metadata stays. *)
Example mirror_sample :
  mirror sample_source sample_wc = Ok sample_result
  ∧ (∀ p data, sample_source !! p = Some (File data) →
       sample_result !! p = Some (File data))
  ∧ sample_result !! ["old.txt"] = None
  ∧ mirror sample_source sample_result = Ok sample_result.
Proof.
  assert (Hsrc : wf sample_source) by (apply wf_by_entries; compute_done).
  assert (Hwc : wf sample_wc) by (apply wf_by_entries; compute_done).
  assert (Hc : no_kind_clash sample_source sample_wc)
    by (apply no_kind_clash_by_entries; compute_done).
  assert (Hm : mirror sample_source sample_wc = Ok sample_result) by (by vm_compute).
  destruct (mirror_complete sample_source sample_wc Hsrc Hwc eq_refl Hc)
    as (t' & Hm' & Hfiles & Hgone).
  assert (t' = sample_result) as -> by congruence.
  split_and!; [done..| |].
  - apply Hgone; [by eexists|done|]. by intros [[k Hk] _].
  - by apply (mirror_idempotent sample_source sample_wc).
Qed.

(** C1 at the failing input. The mirror ends without an error, and the
    file [x] of the source is not at [x] in the working copy: [x] is still
    a directory there and the file has been copied inside it. *)
Theorem mirror_copies_file_into_directory :
  mirror clash_source clash_wc = Ok clash_result
  ∧ clash_source !! ["x"] = Some (File "new")
  ∧ clash_result !! ["x"] = Some Dir
  ∧ clash_source !! ["x"; "x"] = None
  ∧ clash_result !! ["x"; "x"] = Some (File "new").
Proof. by vm_compute. Qed.

(** The converse clash stops the run: a file of the working copy where the
    source has a directory makes [os.makedirs] raise. *)
Lemma mirror_raises_on_file_under_directory :
  mirror (tree_of [([], Dir); (["x"], Dir); (["x"; "y"], File "new")])
         (tree_of [([], Dir); (["x"], File "old")])
  = Raise FileExistsError (tree_of [([], Dir); (["x"], File "old")]).
Proof. by vm_compute. Qed.

(** C8 at the failing input. Mirroring a second time from the same source
    ends in the same tree, but not without changes on the way: the
    deletion pass of the second run removes the file [x/x] that the first
    run had copied, and the copy pass puts it back. *)
Theorem second_mirror_deletes_and_recopies :
  mirror clash_source clash_wc = Ok clash_result
  ∧ delete_pass clash_source clash_result = Ok (delete ["x"; "x"] clash_result)
  ∧ delete ["x"; "x"] clash_result ≠ clash_result
  ∧ mirror clash_source clash_result = Ok clash_result.
Proof.
  split_and!; [by vm_compute..| |by vm_compute].
  intros Heq. apply (f_equal (λ t : tree, t !! ["x"; "x"])) in Heq.
  by vm_compute in Heq.
Qed.

(** C4 at the failing input. A file named by the listing and already gone
    makes [os.remove] raise, and nothing in the loop catches it: the
    deletion pass, and the run with it, is aborted. *)
Theorem stale_file_removal_aborts :
  delete_extras (tree_of [([], Dir)]) [] [] ["old.txt"] stale_wc
  = Raise FileNotFoundError stale_wc.
Proof. by vm_compute. Qed.

(** For directories the error is swallowed: whatever the listing names,
    the directory part of the loop body never raises. *)
Lemma stale_directory_removal_is_swallowed (src : tree) (rel : list string)
    (dirs : list string) (t : tree) :
  ∃ t', delete_extras src rel dirs [] t = Ok t'.
Proof.
  unfold delete_extras. simpl. revert t.
  induction dirs as [|d dirs IH]; intros t; simpl; [by eexists|].
  destruct (exists_ src (rel ++ [d])); simpl; apply IH.
Qed.

End mirror_claims.

(** ** Runs in the scripted world *)

Section witnesses.

Lemma scripted_run_eq (s : Script) :
  @main Script scripted (scripted_world s)
  = ((scripted_run s).1.1, (scripted_run s).1.2, (scripted_run s).2).
Proof. unfold scripted_run. by destruct (main _) as [[? ?] ?]. Defined.

Lemma commit_gating_witness :
  Exec status_cmd (Some scripted_wc) (Some (0%Z, "D       old.txt"))
    ∈ (scripted_run changes_script).2
  ∧ (strip "D       old.txt" = "" →
       commits (scripted_run changes_script).2 = 0
       ∧ (scripted_run changes_script).1.1 = inr tt
       ∧ last (scripted_run changes_script).2
         = Some (Print "No changes detected. Skipping commit."))
  ∧ (strip "D       old.txt" ≠ "" → commits (scripted_run changes_script).2 = 1).
Proof.
  assert (Hin : Exec status_cmd (Some scripted_wc) (Some (0%Z, "D       old.txt"))
                ∈ (scripted_run changes_script).2).
  { compute_done. }
  split; [exact Hin|].
  exact (@commit_gating Script scripted _ _ _ _ _ _
           (scripted_run_eq changes_script) Hin).
Defined.

Lemma whitespace_status_suppresses_commit_witness :
  Exec status_cmd (Some scripted_wc) (Some (0%Z, nl)) ∈ (scripted_run quiet_script).2
  ∧ blank nl = true
  ∧ strip nl = ""
  ∧ commits (scripted_run quiet_script).2 = 0
  ∧ (scripted_run quiet_script).1.1 = inr tt.
Proof.
  assert (Hin : Exec status_cmd (Some scripted_wc) (Some (0%Z, nl))
                ∈ (scripted_run quiet_script).2).
  { compute_done. }
  split; [exact Hin|]. split; [reflexivity|].
  exact (@whitespace_status_suppresses_commit Script scripted _ _ _ _ _ _
           (scripted_run_eq quiet_script) Hin eq_refl).
Defined.

Lemma parse_failure_is_fatal_witness :
  Exec status_xml_cmd (Some scripted_wc) (Some (0%Z, "<status"))
    ∈ (scripted_run garbled_script).2
  ∧ scripted_fromstring "<status" = None
  ∧ (∃ e, (scripted_run garbled_script).1.1 = inl e ∧ (0%Z = 0%Z → e = ParseError))
  ∧ ∀ ev, ev ∈ (scripted_run garbled_script).2 →
      runs "rm" ev = false ∧ runs "add" ev = false ∧ runs "commit" ev = false.
Proof.
  assert (Hin : Exec status_xml_cmd (Some scripted_wc) (Some (0%Z, "<status"))
                ∈ (scripted_run garbled_script).2).
  { compute_done. }
  split; [exact Hin|]. split; [reflexivity|].
  exact (@parse_failure_is_fatal Script scripted _ _ _ _ _ _ _
           (scripted_run_eq garbled_script) Hin eq_refl).
Defined.

Lemma tool_missing_aborts_before_mutation_witness :
  scripted_spawn ["svn"; "--version"] None (scripted_world no_tool_script)
    = NotStarted NotFound
  ∧ ∃ e tr,
      @main Script scripted (scripted_world no_tool_script)
      = (inl e, scripted_world no_tool_script, tr)
      ∧ Forall (λ ev, no_cmd ev ∨ ev = Exec ["svn"; "--version"] None None) tr
      ∧ (truthy (environ (scripted_world no_tool_script) !! "SOURCE_PATH") = true →
         truthy (environ (scripted_world no_tool_script) !! "SVN_URL") = true →
         Mirror.exists_ (source_tree (scripted_world no_tool_script)) [] = true →
         e = FileNotFoundError ∧ Exec ["svn"; "--version"] None None ∈ tr).
Proof.
  split; [reflexivity|].
  exact (@tool_missing_aborts_before_mutation Script scripted
           (scripted_world no_tool_script) eq_refl).
Defined.



Lemma credentials_coupled_witness :
  Exec ["svn"; "checkout"; "https://svn.example/repo"; scripted_wc;
        "--non-interactive"; "--trust-server-cert";
        "--username"; "ci"; "--password"; "secret"; "--no-auth-cache"]
       None (Some (0%Z, "")) ∈ (scripted_run changes_script).2
  ∧ drop 6 ["svn"; "checkout"; "https://svn.example/repo"; scripted_wc;
            "--non-interactive"; "--trust-server-cert";
            "--username"; "ci"; "--password"; "secret"; "--no-auth-cache"]
    = credential_flags
        (environ (scripted_world changes_script) !! "SVN_USERNAME")
        (environ (scripted_world changes_script) !! "SVN_PASSWORD").
Proof.
  assert (Hin : Exec ["svn"; "checkout"; "https://svn.example/repo"; scripted_wc;
        "--non-interactive"; "--trust-server-cert";
        "--username"; "ci"; "--password"; "secret"; "--no-auth-cache"]
       None (Some (0%Z, "")) ∈ (scripted_run changes_script).2).
  { compute_done. }
  split; [exact Hin|].
  exact (@credentials_coupled Script scripted _ _ _ _ _ _ _
           (scripted_run_eq changes_script) Hin (or_introl eq_refl)).
Defined.

End witnesses.

(** ** More on the portable mirror *)

Section mirror_more.
Import Mirror.

Lemma for_each_total {A : Type} (body : A → tree → result) (l : list A) :
  (∀ x t, ∃ t', body x t = Ok t') → ∀ t, ∃ t', for_each body l t = Ok t'.
Proof.
  intros Hbody. induction l as [|x l IH]; intros t; simpl; [by eexists|].
  destruct (Hbody x t) as [t1 ->]. simpl. apply IH.
Qed.

Lemma walk_delete_total (src : tree) (fuel : nat) :
  ∀ (rel : list string) (t : tree), ∃ t', walk_delete fuel src rel t = Ok t'.
Proof.
  induction fuel as [|k IH]; intros rel t; [by eexists|].
  rewrite walk_delete_S. unfold scandir.
  destruct (t !! rel) as [[data|]|] eqn:Hrel; [by eexists| |by eexists].
  cbv zeta. set (ents := listing t rel).
  set (dirs := if decide (rel = []) then _ else _).
  unfold delete_extras.
  destruct (remove_loop src rel (files_of ents) t) as (t1 & -> & _).
  { apply NoDup_files_of, NoDup_listing. }
  { intros f (data & Hin)%elem_of_files_of. exists data. by apply elem_of_listing. }
  simpl.
  destruct (for_each_total
    (λ d t, if exists_ src (rel ++ [d]) then Ok t
            else Ok (rmtree_ignore_errors (rel ++ [d]) t)) dirs) with (t := t1)
    as [t2 ->].
  { intros d u. destruct (exists_ src (rel ++ [d])); by eexists. }
  simpl. apply for_each_total. intros d u. apply IH.
Qed.

(** X1. Left to itself the deletion pass cannot fail and only takes
    away: on any two trees it ends without an exception, and every entry
    of the tree it leaves was in the working copy before, unchanged. *)
Theorem delete_pass_only_removes (src t : tree) :
  ∃ t', delete_pass src t = Ok t' ∧ t' ⊆ t.
Proof.
  destruct (walk_delete_total src (S (height t)) [] t) as [t' Ht'].
  exists t'. split; [done|]. by apply (walk_delete_sub src (S (height t)) [] t t').
Qed.

(** X2. Outside the metadata directory the mirror makes the working copy
    identical to the source, directories and absences included: at every
    path that is not the metadata directory nor inside it, the working
    copy ends with exactly what the source has there. *)
Theorem mirror_identical_outside_metadata (src t : tree) :
  wf src → wf t → src !! [] = Some Dir → no_kind_clash src t →
  ∃ t', mirror src t = Ok t'
    ∧ ∀ q, ¬ svn_protected t q → t' !! q = src !! q.
Proof.
  intros Hsrc Hwf Hroot Hc.
  destruct (mirror_spec src t Hsrc Hwf Hroot Hc) as (t' & Hm & Hspec).
  exists t'. split; [done|]. intros q Hq. rewrite Hspec.
  destruct (src !! q); [done|]. by rewrite decide_False.
Qed.

(** X3. The mirror leaves the metadata directory alone when the source
    has no [.svn] of its own: the directory [.svn] at the root of the
    working copy and all that is inside it are there, unchanged, after
    the mirror. *)
Theorem mirror_keeps_metadata (src t : tree) :
  wf src → wf t → src !! [] = Some Dir → no_kind_clash src t →
  src !! [".svn"] = None →
  ∃ t', mirror src t = Ok t'
    ∧ ∀ q, svn_protected t q → t' !! q = t !! q.
Proof.
  intros Hsrc Hwf Hroot Hc Hsvn.
  destruct (mirror_spec src t Hsrc Hwf Hroot Hc) as (t' & Hm & Hspec).
  exists t'. split; [done|]. intros q Hq. rewrite Hspec.
  rewrite (wf_src_None src [".svn"] q Hsrc (proj1 Hq) Hsvn).
  by rewrite decide_True.
Qed.

(** X4. A source path that is a regular file passes the existence check
    of [main]; the mirror then empties the working copy, the metadata
    directory apart, and copies nothing. *)
Theorem mirror_of_file_source_empties (data : string) (t : tree) :
  wf t →
  ∃ t', mirror {[ [] := File data ]} t = Ok t'
    ∧ ∀ q, t' !! q = if decide (q ≠ [] ∧ ¬ svn_protected t q) then None else t !! q.
Proof.
  intros Hwf. set (src := ({[ [] := File data ]} : tree)).
  assert (Hsrc : wf src).
  { intros q n [e He]. unfold src in He.
    apply lookup_singleton_Some in He as [He _]. by destruct q. }
  unfold mirror.
  destruct (delete_pass_spec src t Hsrc Hwf) as (t1 & -> & H1). simpl.
  exists t1. split.
  - unfold copy_pass. rewrite walk_copy_S. unfold scandir, src.
    by rewrite lookup_singleton_eq.
  - intros q. rewrite H1.
    destruct (decide (extra src t [] q)) as [((_ & Hne) & _ & Hs)|Hx];
      destruct (decide (q ≠ [] ∧ ¬ svn_protected t q)) as [[Hq Hp]|Hy]; try done.
    + exfalso. apply Hy. split; [by intros ->|done].
    + exfalso. apply Hx. split; [split; [apply prefix_nil|by intros <-]|].
      split; [|done]. by apply lookup_singleton_ne.
Qed.

End mirror_more.

(** ** More on the run of the script *)

Section script_more.
Context {Ext : Type} `{!Externals Ext}.
Implicit Types (w : World Ext) (tr : list event).

(** *** Failures are fatal *)

Lemma fail_fast_silent {A : Type} (m : M Ext A) :
  (∀ w r w' tr, m w = (r, w', tr) → Forall no_cmd tr) → fail_fast m.
Proof.
  intros Hm w r w' tr e H Hin Hf. apply Hm in H.
  rewrite Forall_forall in H. specialize (H e Hin). by destruct e.
Qed.







Lemma elem_of_execs (e : event) tr : e ∈ tr → failed e → e ∈ execs tr.
Proof.
  intros Hin Hf. unfold execs. apply list_elem_of_filter. split; [|done].
  by destruct e.
Qed.

Lemma last_app_some {A : Type} (l1 l2 : list A) (x : A) :
  last l2 = Some x → last (l1 ++ l2) = Some x.
Proof.
  intros H. destruct l2 as [|y l2] using rev_ind; [done|].
  rewrite last_snoc in H. injection H as ->. by rewrite app_assoc, last_snoc.
Qed.







Lemma fail_fast_get_env (name : string) (dflt : option string) (required : bool) :
  fail_fast (Ext := Ext) (get_env name dflt required).
Proof.
  apply fail_fast_silent. intros w r w' tr H. by apply get_env_inv in H as (_ & ? & _).
Qed.








(** *** Preconditions *)

Lemma truthy_false (o : option string) : truthy o = false ↔ o = None ∨ o = Some "".
Proof.
  destruct o as [s|]; simpl; [|naive_solver]. unfold truthy_str.
  rewrite bool_decide_eq_false. split.
  - intros Hs. right. f_equal. by destruct (decide (s = "")).
  - intros [|[= ->]]; [done|]. by intros ?.
Qed.

Lemma get_env_required (name : string) (w : World Ext) :
  get_env name None true w
  = if truthy (environ w !! name)
    then (inr (environ w !! name), w, [])
    else (inl (SystemExit 1), w,
          [Print ("ERROR: Missing required environment variable: " +:+ name)]).
Proof.
  unfold get_env, bind, ask, print, raise, ret. simpl.
  by destruct (environ w !! name) as [v|]; simpl; [destruct (truthy_str v)|].
Qed.

(** X6. A required variable ([SOURCE_PATH], then [SVN_URL]) that is
    unset or set to the empty string ends [main] with [SystemExit 1]:
    the only output is the error line that names the first such
    variable, no command is started and the world is as it was. *)
Theorem missing_required_variable_exits (w : World Ext) (name : string) :
  name = "SOURCE_PATH"
    ∨ (name = "SVN_URL" ∧ truthy (environ w !! "SOURCE_PATH") = true) →
  truthy (environ w !! name) = false →
  main w = (inl (SystemExit 1), w,
            [Print ("ERROR: Missing required environment variable: " +:+ name)]).
Proof.
  intros [->|[-> Hsrc]] Hname; unfold main, read_configuration, bind.
  - by rewrite get_env_required, Hname.
  - rewrite get_env_required, Hsrc. cbn beta iota.
    by rewrite get_env_required, Hname.
Qed.

Lemma read_configuration_eq (w : World Ext) :
  truthy (environ w !! "SOURCE_PATH") = true →
  truthy (environ w !! "SVN_URL") = true →
  read_configuration w = (inr (config_of w), w, []).
Proof.
  intros Hsrc Hurl. unfold read_configuration, bind.
  rewrite get_env_required, Hsrc. cbn beta iota.
  rewrite get_env_required, Hurl. cbn beta iota.
  unfold get_env, bind, ask, ret. simpl. unfold config_of, default_message.
  by destruct (environ w !! "SVN_USERNAME"), (environ w !! "SVN_PASSWORD"),
    (environ w !! "COMMIT_MESSAGE").
Qed.

(** X7. With both required variables set, a source path that does not
    exist ends [main] with [SystemExit 1] after the one error line that
    names the path: [svn] is not probed, no command is started and the
    world is as it was. *)
Theorem missing_source_exits (w : World Ext) :
  truthy (environ w !! "SOURCE_PATH") = true →
  truthy (environ w !! "SVN_URL") = true →
  Mirror.exists_ (source_tree w) [] = false →
  main w = (inl (SystemExit 1), w,
            [Print ("ERROR: Source path not found: "
                    +:+ default "" (environ w !! "SOURCE_PATH"))]).
Proof.
  intros Hsrc Hurl Hex. unfold main, bind at 1.
  rewrite read_configuration_eq by done.
  unfold prepare_working_copy, bind, ask, print, raise. simpl. by rewrite Hex.
Qed.

(** *** Events of a computation, from its parts *)

Section emits.
Context (Q : event → Prop).

Lemma emits_ret {A : Type} (a : A) : emits Q (ret a : M Ext A).
Proof. intros w r w' tr [= <- <- <-]. constructor. Qed.

Lemma emits_raise {A : Type} (e : exn) : emits Q (raise e : M Ext A).
Proof. intros w r w' tr [= <- <- <-]. constructor. Qed.

Lemma emits_ask {A : Type} (f : World Ext → A) : emits Q (ask f).
Proof. intros w r w' tr [= <- <- <-]. constructor. Qed.

Lemma emits_on_wc (f : tree → Mirror.result) : emits Q (on_wc f : M Ext unit).
Proof.
  intros w r w' tr. unfold on_wc.
  destruct (f (wc_tree w)); intros [= <- <- <-]; constructor.
Qed.

Lemma emits_print (text : string) : Q (Print text) → emits Q (print text : M Ext unit).
Proof. intros HQ w r w' tr [= <- <- <-]. by repeat constructor. Qed.

Lemma emits_bind {A B : Type} (m : M Ext A) (k : A → M Ext B) :
  emits Q m → (∀ a, emits Q (k a)) → emits Q (bind m k).
Proof.
  intros Hm Hk w r w' tr H.
  apply bind_inv in H as [(x & H & ->)|(a & w1 & t1 & t2 & H1 & H2 & ->)].
  - by eapply Hm.
  - apply Forall_app. split; [by eapply Hm|by eapply Hk].
Qed.

Lemma emits_for_M {A : Type} (body : A → M Ext unit) (l : list A) :
  (∀ x, x ∈ l → emits Q (body x)) → emits Q (for_M body l).
Proof.
  induction l as [|x l IH]; intros Hbody; simpl.
  - apply emits_ret.
  - apply emits_bind; [apply Hbody; by left|]. intros _. apply IH.
    intros y Hy. apply Hbody. by right.
Qed.

Lemma emits_try_except {A : Type} (m : M Ext A) (h : exn → M Ext A) :
  emits Q m → (∀ e, emits Q (h e)) → emits Q (try_except m h).
Proof.
  intros Hm Hh w r w' tr. unfold try_except.
  destruct (m w) as [[[x|a] w1] t1] eqn:Hmw.
  - assert (Forall Q t1) by by eapply Hm.
    destruct (h x w1) as [[r2 w2] t2] eqn:Hhw.
    assert (Forall Q t2) by by eapply Hh.
    destruct x; intros [= <- <- <-]; try done; by apply Forall_app.
  - intros [= <- <- <-]. by eapply Hm.
Qed.

Lemma emits_run (cmd : list string) (cwd : option string) (check capture : bool) :
  Q (Print (banner cmd cwd)) → (∀ o, Q (Exec cmd cwd o)) →
  emits Q (run cmd cwd check capture).
Proof.
  intros Hp He w r w' tr. unfold run, bind, print, subprocess_run. simpl.
  destruct (spawn cmd cwd w) as [rc out w1|f]; [destruct (check && _)|];
    intros [= <- <- <-]; by repeat constructor.
Qed.

End emits.

(** Proves [emits] of a computation from its parts; what is left is [Q]
    at each event. *)
Ltac emits_step :=
  match goal with
  | |- @emits _ _ _ (bind _ _) => apply emits_bind; [|intros ?]
  | |- @emits _ _ _ (for_M _ _) => apply emits_for_M; intros ? ?
  | |- @emits _ _ _ (try_except _ _) => apply emits_try_except; [|intros ?]
  | |- @emits _ _ _ (if ?b then _ else _) => destruct b
  | |- @emits _ _ _ (match ?x with _ => _ end) => destruct x
  | |- @emits _ _ _ (ret _) => apply emits_ret
  | |- @emits _ _ _ (raise _) => apply emits_raise
  | |- @emits _ _ _ (ask _) => apply emits_ask
  | |- @emits _ _ _ (on_wc _) => apply emits_on_wc
  | |- @emits _ _ _ (print _) => apply emits_print
  | |- @emits _ _ _ (run _ _ _ _) => apply emits_run; [|intros ?]
  end.

Ltac emits_all tac := repeat emits_step; try solve [tac].

Lemma emits_get_env (Q : event → Prop) (name : string) (dflt : option string)
    (required : bool) :
  (∀ text, Q (Print text)) → emits (Ext := Ext) Q (get_env name dflt required).
Proof. intros HQ. unfold get_env. emits_all ltac:(apply HQ). Qed.

(** *** The commands of a run *)

Lemma allowed_prepare (cfg cfg' : Config) (wc_root : string) :
  emits (Ext := Ext) (allowed cfg' wc_root) (prepare_working_copy cfg).
Proof.
  unfold prepare_working_copy, ensure_tool.
  emits_all ltac:(first [exact I | constructor]).
Qed.

Lemma allowed_rest (cfg : Config) (wc_root : string) :
  emits (Ext := Ext) (allowed cfg wc_root)
    (checkout_and_update cfg wc_root ;;;
     copy_into_working_copy cfg wc_root ;;;
     reconcile wc_root ;;;
     commit_if_changed cfg wc_root).
Proof.
  unfold checkout_and_update, copy_into_working_copy, reconcile,
    parse_missing_paths_from_svn_status_xml, commit_if_changed, get_pending_status.
  emits_all ltac:(first [exact I | constructor]).
Qed.

Lemma main_from_configuration (w : World Ext) :
  truthy (environ w !! "SOURCE_PATH") = true →
  truthy (environ w !! "SVN_URL") = true →
  main w = (do wc_root <- prepare_working_copy (config_of w) ;
            checkout_and_update (config_of w) wc_root ;;;
            copy_into_working_copy (config_of w) wc_root ;;;
            reconcile wc_root ;;;
            commit_if_changed (config_of w) wc_root) w.
Proof.
  intros Hsrc Hurl. unfold main, bind at 1.
  rewrite read_configuration_eq by done.
  by destruct (bind _ _ w) as [[? ?] ?].
Qed.

Lemma main_without_configuration (w : World Ext) :
  truthy (environ w !! "SOURCE_PATH") && truthy (environ w !! "SVN_URL") = false →
  ∃ name, main w = (inl (SystemExit 1), w,
                    [Print ("ERROR: Missing required environment variable: " +:+ name)]).
Proof.
  intros H. unfold main, read_configuration, bind.
  rewrite get_env_required.
  destruct (truthy (environ w !! "SOURCE_PATH")); [|by eexists].
  cbn beta iota. rewrite get_env_required.
  destruct (truthy (environ w !! "SVN_URL")); [done|by eexists].
Qed.

Lemma main_allowed (w : World Ext) (r : exn + unit) (w' : World Ext) (tr : list event) :
  main w = (r, w', tr) →
  ∃ wc_root, Forall (allowed (config_of w) wc_root) tr.
Proof.
  intros H.
  destruct (truthy (environ w !! "SOURCE_PATH") && truthy (environ w !! "SVN_URL"))
    eqn:Hcfg.
  2:{ destruct (main_without_configuration w Hcfg) as [name Hm].
      rewrite Hm in H. injection H as <- <- <-. exists "". by repeat constructor. }
  apply andb_prop in Hcfg as [Hsrc Hurl].
  rewrite main_from_configuration in H by done.
  apply bind_inv in H as [(x & H & ->)|(wc & w1 & t1 & t2 & H1 & H2 & ->)].
  - exists "". by eapply allowed_prepare.
  - exists wc. apply Forall_app. split; [by eapply allowed_prepare|].
    by eapply allowed_rest.
Qed.

(** X8. The commands of a run and where they are started.  There is one
    directory such that every command that [main] starts is one of: the
    probe [svn --version], the checkout of [SVN_URL] into that
    directory, [robocopy] from [SOURCE_PATH] into that directory (these
    three started in the current directory), and [svn update], the two
    status queries, forced removes, the add and the commit with the
    configured message, all started in that same directory.  The
    configuration is the one the environment held at the start. *)
Theorem commands_of_a_run (w : World Ext) (r : exn + unit) (w' : World Ext)
    (tr : list event) :
  main w = (r, w', tr) →
  ∃ wc_root, ∀ cmd cwd o,
    Exec cmd cwd o ∈ tr → main_command (config_of w) wc_root cmd cwd.
Proof.
  intros [wc Hall]%main_allowed. exists wc. intros cmd cwd o Hin.
  rewrite Forall_forall in Hall. exact (Hall _ Hin).
Qed.

(** X9. The commit message.  Every commit command of a run is
    [svn commit -m MESSAGE --non-interactive --trust-server-cert]
    followed by the credential flags, where MESSAGE is [COMMIT_MESSAGE]
    if that is set and not empty, and otherwise the generated text with
    the computer name (or [unknown]) and the time at the start of the
    run. *)
Theorem commit_message_from_environment (w : World Ext) (r : exn + unit)
    (w' : World Ext) (tr : list event) (cmd : list string) (cwd : option string)
    (o : option (Z * string)) :
  main w = (r, w', tr) →
  Exec cmd cwd o ∈ tr →
  runs "commit" (Exec cmd cwd o) = true →
  cmd = with_credentials (config_of w)
          ["svn"; "commit"; "-m";
           or_else (environ w !! "COMMIT_MESSAGE") (default_message w);
           "--non-interactive"; "--trust-server-cert"].
Proof.
  intros [wc Hall]%main_allowed Hin Hruns.
  rewrite Forall_forall in Hall. specialize (Hall _ Hin). simpl in Hall.
  destruct Hall; try done.
  - unfold checkout_cmd, with_credentials in Hruns. by destruct (_ && _).
Qed.

(** *** The forced removes of a run *)

Lemma scheduled_app (t1 t2 : list event) :
  scheduled (t1 ++ t2) = scheduled t1 ++ scheduled t2.
Proof. unfold scheduled. apply omap_app. Qed.

Lemma scheduled_nil (tr : list event) :
  Forall (λ e, runs "rm" e = false) tr → scheduled tr = [].
Proof.
  induction 1 as [|e tr He _ IH]; [done|].
  unfold scheduled in *. simpl. unfold rm_target at 1. by rewrite He.
Qed.

Lemma scheduled_setup (cfg : Config) (wc_root : string) (tr : list event) :
  Forall (setup_event cfg wc_root) tr → scheduled tr = [].
Proof.
  intros H. apply scheduled_nil. eapply Forall_impl; [done|].
  intros e He. by apply (setup_event_runs cfg wc_root).
Qed.

Lemma scheduled_commit (cfg : Config) (wc_root : string) (tr : list event) :
  Forall (commit_event cfg wc_root) tr → scheduled tr = [].
Proof.
  intros H. apply scheduled_nil. eapply Forall_impl; [done|].
  intros e He. by apply (commit_event_runs cfg wc_root).
Qed.

Lemma scheduled_ran (cmd : list string) (cwd : option string) (o : option (Z * string)) :
  scheduled (ran cmd cwd o) = option_list (rm_target (Exec cmd cwd o)).
Proof. unfold scheduled, ran. simpl. by destruct (rm_target _). Qed.

Lemma rm_loop_scheduled (wc_root : string) (ps : list string) w r w' tr :
  for_M (λ p, print ("Scheduling delete: " +:+ p) ;;;
              run (rm_cmd p) (Some wc_root) true false ;;; ret tt) ps w = (r, w', tr) →
  scheduled tr `prefix_of` ps ∧ (r = inr tt → scheduled tr = ps).
Proof.
  revert w tr. induction ps as [|p ps IH]; intros w tr H; simpl in H.
  { unfold ret in H. by injection H as <- <- <-. }
  assert (Hbody : ∀ w0 r0 w1 t,
    (print ("Scheduling delete: " +:+ p) ;;;
     run (rm_cmd p) (Some wc_root) true false ;;; ret tt) w0 = (r0, w1, t) →
    scheduled t = [p]).
  { intros w0 r0 w1 t Hb.
    apply bind_inv in Hb as [(x & Hb & _)|([] & w2 & ta & tb & Ha & Hb & ->)]; [done|].
    unfold print in Ha. injection Ha as <- <-.
    apply bind_inv in Hb as [(x & Hb & _)|(cp & w3 & tc & td & Hc & Hb & ->)].
    - by apply run_checked_inv in Hb as (o & -> & _).
    - apply run_checked_inv in Hc as (o & -> & _).
      unfold ret in Hb. by injection Hb as <- <- <-. }
  apply bind_inv in H as [(x & H & ->)|([] & w1 & t1 & t2 & H1 & H & ->)].
  - rewrite (Hbody _ _ _ _ H). split; [|done]. by exists ps.
  - rewrite scheduled_app, (Hbody _ _ _ _ H1).
    destruct (IH _ _ H) as [Hpre Hall]. split.
    + by apply prefix_cons.
    + intros Hr. simpl. by rewrite Hall.
Qed.

Lemma parse_inv (wc_root : string) w r w' tr :
  parse_missing_paths_from_svn_status_xml wc_root w = (r, w', tr) →
  ∃ o, tr = ran status_xml_cmd (Some wc_root) o
    ∧ ∀ ps, r = inr ps →
        ∃ out root, o = Some (0%Z, out) ∧ fromstring out = Some root
                    ∧ ps = Xml.missing_paths root.
Proof.
  unfold parse_missing_paths_from_svn_status_xml. intros H.
  apply bind_inv in H as [(x & H & ->)|(cp & w1 & t1 & t2 & H1 & H & ->)].
  { apply run_checked_inv in H as (o & -> & _). by exists o. }
  apply run_checked_inv in H1 as (o & -> & [(out & -> & _ & [= ->])
    |[(_ & _ & ? & _ & [=])|(? & ? & _ & _ & [=])]]). simpl in H.
  exists (Some (0%Z, out)).
  destruct (fromstring out) as [root|] eqn:Hroot; injection H as <- <- <-;
    (split; [by rewrite app_nil_r|]); [|done].
  intros ps [= <-]. eauto.
Qed.

Lemma reconcile_scheduled (wc_root : string) w r w' tr :
  reconcile wc_root w = (r, w', tr) →
  scheduled tr = []
  ∨ ∃ out root,
      Exec status_xml_cmd (Some wc_root) (Some (0%Z, out)) ∈ tr
      ∧ fromstring out = Some root
      ∧ scheduled tr `prefix_of` Xml.missing_paths root
      ∧ (r = inr tt → scheduled tr = Xml.missing_paths root).
Proof.
  unfold reconcile. intros H.
  apply bind_inv in H as [(x & H & ->)|(ps & w1 & t1 & t2 & H1 & H & ->)].
  { left. by apply parse_inv in H as (o & -> & _). }
  apply parse_inv in H1 as (o & -> & Hps).
  destruct (Hps ps eq_refl) as (out & root & -> & Hroot & ->).
  right. exists out, root. split; [|split; [done|]].
  { apply elem_of_app. left. unfold ran. set_solver. }
  rewrite scheduled_app. change (scheduled (ran _ _ _)) with (@nil string). simpl.
  apply bind_inv in H as [(x & H & ->)|([] & w2 & t3 & t4 & H2 & H & ->)].
  { by apply rm_loop_scheduled in H as [? _]. }
  apply rm_loop_scheduled in H2 as [_ Hall]. specialize (Hall eq_refl).
  assert (Hadd : scheduled t4 = []).
  { apply bind_inv in H as [(x & H & _)|(cp & w3 & t5 & t6 & H3 & H & ->)].
    - by apply run_checked_inv in H as (o & -> & _).
    - apply run_checked_inv in H3 as (o & -> & _).
      unfold ret in H. by injection H as <- <- <-. }
  rewrite scheduled_app, Hadd, app_nil_r, Hall. done.
Qed.

(** X10. Forced removes follow the status document.  The paths for which
    a run starts [svn rm --force], in the order of the commands, are an
    initial part of the list that the reader returns for the status
    document of that run: no path that the document does not report as
    missing is removed, none is removed out of document order, and none
    more often than it is reported.  Without a status document that
    parses there is no forced remove at all. *)
Theorem removes_follow_status_document (w : World Ext) (r : exn + unit)
    (w' : World Ext) (tr : list event) :
  main w = (r, w', tr) →
  scheduled tr = []
  ∨ ∃ cwd out root,
      Exec status_xml_cmd cwd (Some (0%Z, out)) ∈ tr
      ∧ fromstring out = Some root
      ∧ scheduled tr `prefix_of` Xml.missing_paths root.
Proof.
  intros (cfg & wc & t1 & t2 & t3 & -> & Hf1 & _ & _ & Hcases)%main_stages.
  rewrite !scheduled_app, (scheduled_setup cfg wc t1 Hf1). simpl.
  destruct Hcases as [(-> & -> & _)|(w2 & r2 & w3 & Hrec & Hc)]; [by left|].
  assert (Ht3 : scheduled t3 = []).
  { destruct Hc as [[-> _]|[_ Hc]]; [done|].
    apply commit_events in Hc. by apply (scheduled_commit cfg wc). }
  rewrite Ht3, app_nil_r.
  apply reconcile_scheduled in Hrec as [?|(out & root & Hin & Hroot & Hpre & _)];
    [by left|right].
  exists (Some wc), out, root. split_and!; try done.
  apply elem_of_app. right. apply elem_of_app. by left.
Qed.

(** *** A run that succeeds *)

Lemma bind_ok_inv {A B : Type} (m : M Ext A) (k : A → M Ext B) w (b : B) w' tr :
  bind m k w = (inr b, w', tr) →
  ∃ a w1 t1 t2, m w = (inr a, w1, t1) ∧ k a w1 = (inr b, w', t2) ∧ tr = t1 ++ t2.
Proof. intros [(x & _ & [=])|H]%bind_inv. done. Qed.

Lemma run_ok_inv (cmd : list string) (cwd : option string) (check capture : bool)
    w (cp : CompletedProcess) w' tr :
  run cmd cwd check capture w = (inr cp, w', tr) →
  ∃ rc out, tr = ran cmd cwd (Some (rc, out)) ∧ (check = true → rc = 0%Z)
    ∧ stdout cp = if capture then Some out else None.
Proof.
  unfold run, bind, print, subprocess_run. simpl.
  destruct (spawn cmd cwd w) as [rc out w1|f]; [|done].
  destruct check; simpl; [destruct (rc =? 0)%Z eqn:Hrc; simpl|]; intros [= <- <- <-];
    exists rc, out; split_and!; try done.
  intros _. by apply Z.eqb_eq.
Qed.

Lemma commands_app (t1 t2 : list event) :
  commands (t1 ++ t2) = commands t1 ++ commands t2.
Proof. unfold commands. apply omap_app. Qed.

Lemma prepare_ok_inv (cfg : Config) w (wc_root : string) w' tr :
  prepare_working_copy cfg w = (inr wc_root, w', tr) →
  commands tr = [["svn"; "--version"]].
Proof.
  unfold prepare_working_copy, ensure_tool, try_except, run, subprocess_run,
    bind, ask, ret, print, raise, on_wc. simpl.
  destruct (Mirror.exists_ (source_tree w) []); simpl; [|done].
  destruct (spawn ["svn"; "--version"] None w) as [rc out w1|f]; simpl;
    [|by destruct f].
  destruct (rc =? 0)%Z; simpl; [|done].
  destruct (decide (os_name w1 = "nt")); simpl;
    destruct (Mirror.makedirs [] (wc_tree w1)); simpl; by intros [= <- <- <-].
Qed.

Lemma checkout_ok_inv (cfg : Config) (wc_root : string) w w' tr :
  checkout_and_update cfg wc_root w = (inr tt, w', tr) →
  commands tr = [checkout_cmd cfg wc_root; ["svn"; "update"]].
Proof.
  unfold checkout_and_update. intros H.
  apply bind_ok_inv in H as (cp1 & w1 & t1 & t2 & H1 & H & ->).
  apply bind_ok_inv in H as (cp2 & w2 & t3 & t4 & H2 & H & ->).
  apply run_ok_inv in H1 as (? & ? & -> & _). apply run_ok_inv in H2 as (? & ? & -> & _).
  unfold ret in H. by injection H as <- <-.
Qed.

Lemma copy_ok_inv (cfg : Config) (wc_root : string) w w' tr :
  copy_into_working_copy cfg wc_root w = (inr tt, w', tr) →
  commands tr = (if decide (os_name w = "nt") then [robocopy_cmd cfg wc_root] else []).
Proof.
  unfold copy_into_working_copy. intros H.
  apply bind_ok_inv in H as (name & w1 & t1 & t2 & H1 & H & ->).
  unfold ask in H1. injection H1 as <- <- <-.
  destruct (decide (os_name w = "nt")).
  - apply bind_ok_inv in H as (cp & w2 & t3 & t4 & H2 & H & ->).
    apply run_ok_inv in H2 as (? & ? & -> & _).
    unfold ret in H. by injection H as <- <-.
  - unfold bind, ask, on_wc in H. simpl in H.
    by destruct (Mirror.mirror _ _); simplify_eq.
Qed.

Lemma rm_loop_ok_inv (wc_root : string) (ps : list string) w w' tr :
  for_M (λ p, print ("Scheduling delete: " +:+ p) ;;;
              run (rm_cmd p) (Some wc_root) true false ;;; ret tt) ps w
    = (inr tt, w', tr) →
  commands tr = rm_cmd <$> ps.
Proof.
  revert w tr. induction ps as [|p ps IH]; intros w tr H; simpl in H.
  { unfold ret in H. by injection H as <- <-. }
  apply bind_ok_inv in H as ([] & w1 & t1 & t2 & H1 & H & ->).
  apply bind_ok_inv in H1 as ([] & w2 & t3 & t4 & H2 & H1 & ->).
  apply bind_ok_inv in H1 as (cp & w3 & t5 & t6 & H3 & H1 & ->).
  unfold print in H2. injection H2 as <- <-.
  apply run_ok_inv in H3 as (? & ? & -> & _).
  unfold ret in H1. injection H1 as <- <-.
  rewrite commands_app, (IH _ _ H). done.
Qed.

Lemma reconcile_ok_inv (wc_root : string) w w' tr :
  reconcile wc_root w = (inr tt, w', tr) →
  ∃ out root,
    Exec status_xml_cmd (Some wc_root) (Some (0%Z, out)) ∈ tr
    ∧ fromstring out = Some root
    ∧ commands tr = status_xml_cmd :: (rm_cmd <$> Xml.missing_paths root) ++ [add_cmd].
Proof.
  unfold reconcile. intros H.
  apply bind_ok_inv in H as (ps & w1 & t1 & t2 & H1 & H & ->).
  apply parse_inv in H1 as (o & -> & Hps).
  destruct (Hps ps eq_refl) as (out & root & -> & Hroot & ->).
  apply bind_ok_inv in H as ([] & w2 & t3 & t4 & H2 & H & ->).
  apply rm_loop_ok_inv in H2.
  apply bind_ok_inv in H as (cp & w3 & t5 & t6 & H3 & H & ->).
  apply run_ok_inv in H3 as (? & ? & -> & _).
  unfold ret in H. injection H as <- <-.
  exists out, root. split_and!; [|done|].
  - apply elem_of_app. left. unfold ran. set_solver.
  - rewrite !commands_app, H2. done.
Qed.

Lemma commit_ok_inv (cfg : Config) (wc_root : string) w w' tr :
  commit_if_changed cfg wc_root w = (inr tt, w', tr) →
  ∃ out,
    Exec status_cmd (Some wc_root) (Some (0%Z, out)) ∈ tr
    ∧ commands tr
      = status_cmd :: (if decide (strip out = "") then [] else [commit_cmd cfg])
    ∧ last tr
      = Some (Print (if decide (strip out = "")
                     then "No changes detected. Skipping commit."
                     else nl +:+ "Commit finished successfully.")).
Proof.
  intros (o & t' & -> & [(_ & _ & ? & [=])|[(out & -> & Hs & _ & ->)
    |(out & o_c & t'' & -> & Hs & -> & [(_ & _ & ->)|(_ & _ & ? & [=])])]])
    %commit_if_changed_inv; exists out.
  - destruct (decide (strip out = "")); [|done]. split_and!; [|done..].
    apply elem_of_app. left. unfold ran. set_solver.
  - destruct (decide (strip out = "")); [done|]. split_and!; [|done|].
    + apply elem_of_app. left. unfold ran. set_solver.
    + rewrite app_comm_cons, !app_assoc. apply last_snoc.
Qed.

(** X11. What a run that ends without exception has done.  Its commands
    are, in this order: the probe [svn --version], the checkout, [svn
    update], on Windows [robocopy], the status query in XML, one forced
    remove for each path the reader returns for that run's status
    document (in document order), the add, the plain status query, and
    the commit exactly if the stripped status text is not empty.  The
    last line printed tells which: the no-changes message or the
    commit-finished message. *)
Theorem successful_run (w : World Ext) (w' : World Ext) (tr : list event) :
  main w = (inr tt, w', tr) →
  ∃ wc_root (windows : bool) xml root out,
    Exec status_xml_cmd (Some wc_root) (Some (0%Z, xml)) ∈ tr
    ∧ fromstring xml = Some root
    ∧ Exec status_cmd (Some wc_root) (Some (0%Z, out)) ∈ tr
    ∧ commands tr
      = [["svn"; "--version"]; checkout_cmd (config_of w) wc_root; ["svn"; "update"]]
        ++ (if windows then [robocopy_cmd (config_of w) wc_root] else [])
        ++ [status_xml_cmd]
        ++ (rm_cmd <$> Xml.missing_paths root)
        ++ [add_cmd; status_cmd]
        ++ (if decide (strip out = "") then [] else [commit_cmd (config_of w)])
    ∧ last tr
      = Some (Print (if decide (strip out = "")
                     then "No changes detected. Skipping commit."
                     else nl +:+ "Commit finished successfully.")).
Proof.
  intros H.
  destruct (truthy (environ w !! "SOURCE_PATH") && truthy (environ w !! "SVN_URL"))
    eqn:Hcfg.
  2:{ destruct (main_without_configuration w Hcfg) as [name Hm]. by rewrite Hm in H. }
  apply andb_prop in Hcfg as [Hsrc Hurl].
  rewrite main_from_configuration in H by done.
  apply bind_ok_inv in H as (wc & w1 & t1 & ta & H1 & H & ->).
  apply bind_ok_inv in H as ([] & w2 & t2 & tb & H2 & H & ->).
  apply bind_ok_inv in H as ([] & w3 & t3 & tc & H3 & H & ->).
  apply bind_ok_inv in H as ([] & w4 & t4 & t5 & H4 & H5 & ->).
  apply prepare_ok_inv in H1. apply checkout_ok_inv in H2. apply copy_ok_inv in H3.
  apply reconcile_ok_inv in H4 as (xml & root & Hxml & Hroot & H4).
  apply commit_ok_inv in H5 as (out & Hst & H5 & Hlast).
  exists wc, (bool_decide (os_name w2 = "nt")), xml, root, out. split_and!.
  - rewrite !elem_of_app. eauto.
  - done.
  - rewrite !elem_of_app. eauto 6.
  - rewrite !commands_app, H1, H2, H3, H4, H5.
    case_bool_decide; [rewrite decide_True by done|rewrite decide_False by done];
      simpl; by rewrite <- ?app_assoc.
  - rewrite !app_assoc. by apply last_app_some.
Qed.

(** *** The exit status of robocopy *)

Lemma no_robocopy_before_copy (cfg : Config) (wc_root : string) :
  let Q := λ e, ∀ args cwd o, e ≠ Exec ("robocopy" :: args) cwd o in
  emits (Ext := Ext) Q (prepare_working_copy cfg)
  ∧ emits (Ext := Ext) Q (checkout_and_update cfg wc_root).
Proof.
  split.
  - unfold prepare_working_copy, ensure_tool. emits_all ltac:(by intros ? ? ?).
  - unfold checkout_and_update, with_credentials.
    destruct (_ && _); emits_all ltac:(by intros ? ? ?).
Qed.

Lemma copy_robocopy_started (cfg : Config) (wc_root : string) w r w' tr
    (args : list string) (cwd : option string) (rc : Z) (out : string) :
  copy_into_working_copy cfg wc_root w = (r, w', tr) →
  Exec ("robocopy" :: args) cwd (Some (rc, out)) ∈ tr →
  r = inr tt.
Proof.
  unfold copy_into_working_copy, run, subprocess_run, bind, ask, print, ret, on_wc.
  simpl. destruct (decide (os_name w = "nt")); simpl.
  - destruct (spawn _ None w) as [rc' out' w1|f]; simpl; intros [= <- <- <-] Hin;
      [done|].
    repeat (apply elem_of_cons in Hin as [[=]|Hin]). by apply elem_of_nil in Hin.
  - destruct (Mirror.mirror _ _); intros [= <- <- <-] Hin; by apply elem_of_nil in Hin.
Qed.

(** X12. The exit status of [robocopy] is not checked.  Whenever a run
    has started [robocopy] and it has ended, with whatever status, the
    run goes on to the status query in XML. *)
Theorem robocopy_status_is_ignored (w : World Ext) (r : exn + unit) (w' : World Ext)
    (tr : list event) (args : list string) (cwd : option string) (rc : Z)
    (out : string) :
  main w = (r, w', tr) →
  Exec ("robocopy" :: args) cwd (Some (rc, out)) ∈ tr →
  ∃ cwd' o, Exec status_xml_cmd cwd' o ∈ tr.
Proof.
  intros H Hin.
  destruct (truthy (environ w !! "SOURCE_PATH") && truthy (environ w !! "SVN_URL"))
    eqn:Hcfg.
  2:{ destruct (main_without_configuration w Hcfg) as [name Hm].
      rewrite Hm in H. injection H as <- <- <-.
      by apply list_elem_of_singleton in Hin. }
  apply andb_prop in Hcfg as [Hsrc Hurl].
  rewrite main_from_configuration in H by done.
  assert (Hno : ∀ t : list event,
    Forall (λ e, ∀ args cwd o, e ≠ Exec ("robocopy" :: args) cwd o) t →
    Exec ("robocopy" :: args) cwd (Some (rc, out)) ∉ t).
  { intros t Ht Hin'. rewrite Forall_forall in Ht. by eapply Ht. }
  apply bind_inv in H as [(x & H & ->)|(wc & w1 & t1 & ta & H1 & H & ->)].
  { by apply (no_robocopy_before_copy (config_of w) ""), Hno in H. }
  apply (no_robocopy_before_copy (config_of w) wc), Hno in H1.
  apply bind_inv in H as [(x & H & ->)|([] & w2 & t2 & tb & H2 & H & ->)].
  { apply (no_robocopy_before_copy (config_of w) wc), Hno in H.
    by apply elem_of_app in Hin as [?|?]. }
  apply (no_robocopy_before_copy (config_of w) wc), Hno in H2.
  apply bind_inv in H as [(x & H & ->)|([] & w3 & t3 & tc & H3 & H & ->)].
  { apply elem_of_app in Hin as [?|Hin]; [done|].
    apply elem_of_app in Hin as [?|Hin]; [done|].
    by pose proof (copy_robocopy_started _ _ _ _ _ _ _ _ _ _ H Hin). }
  exists (Some wc).
  assert (∃ o t', tc = ran status_xml_cmd (Some wc) o ++ t') as (o & t' & ->).
  { apply bind_inv in H as [(x & H & ->)|([] & w4 & t4 & t5 & H4 & H & ->)].
    - apply reconcile_inv in H as (o & t' & -> & _). eauto.
    - apply reconcile_inv in H4 as (o & t' & -> & _).
      exists o, (t' ++ t5). by rewrite app_assoc. }
  exists o. rewrite !elem_of_app. do 3 right. left. unfold ran. set_solver.
Qed.

(** *** Commands are logged *)

Lemma logged_silent (tr : list event) : Forall no_cmd tr → logged tr.
Proof.
  intros H t1 cmd cwd o t2 ->. apply Forall_app in H as [_ H].
  by apply Forall_cons in H as [? _].
Qed.

Lemma logged_app (ta tb : list event) : logged ta → logged tb → logged (ta ++ tb).
Proof.
  intros Ha Hb t1 cmd cwd o t2 Heq.
  apply app_eq_app in Heq as [l [[-> Hl]|[-> ->]]].
  - destruct l as [|e l].
    + simpl in Hl. subst tb. by pose proof (Hb [] cmd cwd o t2 eq_refl).
    + injection Hl as <- ->. by eapply Ha.
  - apply last_app_some. by eapply Hb.
Qed.

Lemma logs_silent {A : Type} (m : M Ext A) :
  (∀ w r w' tr, m w = (r, w', tr) → Forall no_cmd tr) → logs m.
Proof. intros Hm w r w' tr H. apply logged_silent. by eapply Hm. Qed.

Lemma logs_bind {A B : Type} (m : M Ext A) (k : A → M Ext B) :
  logs m → (∀ a, logs (k a)) → logs (bind m k).
Proof.
  intros Hm Hk w r w' tr H.
  apply bind_inv in H as [(x & H & ->)|(a & w1 & t1 & t2 & H1 & H2 & ->)].
  - by eapply Hm.
  - apply logged_app; [by eapply Hm|by eapply Hk].
Qed.

Lemma logs_for_M {A : Type} (body : A → M Ext unit) (l : list A) :
  (∀ x, logs (body x)) → logs (for_M body l).
Proof.
  intros Hbody. induction l as [|x l IH]; simpl.
  - apply logs_silent. by intros w r w' tr [= <- <- <-].
  - apply logs_bind; [done|]. by intros _.
Qed.

Lemma logs_run (cmd : list string) (cwd : option string) (check capture : bool) :
  logs (run cmd cwd check capture).
Proof.
  intros w r w' tr H.
  assert (∃ o, tr = ran cmd cwd o) as [o ->].
  { revert H. unfold run, bind, print, subprocess_run. simpl.
    destruct (spawn cmd cwd w) as [rc out w1|f]; [destruct (check && _)|];
      intros [= <- <- <-]; by eexists. }
  intros t1 cmd' cwd' o' t2 Heq. unfold ran in Heq.
  destruct t1 as [|e1 [|e2 t1]]; simplify_eq/=; [done|].
  by destruct t1.
Qed.

Lemma logs_try_except {A : Type} (m : M Ext A) (h : exn → M Ext A) :
  logs m → (∀ e, logs (h e)) → logs (try_except m h).
Proof.
  intros Hm Hh w r w' tr. unfold try_except.
  destruct (m w) as [[[x|a] w1] t1] eqn:Hmw.
  - assert (logged t1) by by eapply Hm.
    destruct (h x w1) as [[r2 w2] t2] eqn:Hhw.
    assert (logged t2) by by eapply Hh.
    destruct x; intros [= <- <- <-]; try done; by apply logged_app.
  - intros [= <- <- <-]. by eapply Hm.
Qed.

Lemma logs_on_wc (f : tree → Mirror.result) : logs (on_wc f : M Ext unit).
Proof.
  apply logs_silent. intros w r w' tr. unfold on_wc.
  destruct (f (wc_tree w)); intros [= <- <- <-]; constructor.
Qed.

Ltac logs_step :=
  match goal with
  | |- @logs _ _ (bind _ _) => apply logs_bind; [|intros ?]
  | |- @logs _ _ (for_M _ _) => apply logs_for_M; intros ?
  | |- @logs _ _ (try_except _ _) => apply logs_try_except; [|intros ?]
  | |- @logs _ _ (if ?b then _ else _) => destruct b
  | |- @logs _ _ (match ?x with _ => _ end) => destruct x
  | |- @logs _ _ (run _ _ _ _) => apply logs_run
  | |- @logs _ _ (ret _) => apply logs_silent; by intros ? ? ? ? [= <- <- <-]
  | |- @logs _ _ (raise _) => apply logs_silent; by intros ? ? ? ? [= <- <- <-]
  | |- @logs _ _ (ask _) => apply logs_silent; by intros ? ? ? ? [= <- <- <-]
  | |- @logs _ _ (print _) =>
      apply logs_silent; intros ? ? ? ? [= <- <- <-]; by repeat constructor
  | |- @logs _ _ (on_wc _) => apply logs_on_wc
  end.

Lemma logs_main : logs (Ext := Ext) main.
Proof.
  unfold main. apply logs_bind.
  { apply logs_silent. intros w r w' tr H.
    by apply read_configuration_inv in H as (_ & ? & _). }
  intros cfg.
  unfold prepare_working_copy, ensure_tool,
    checkout_and_update, copy_into_working_copy, reconcile,
    parse_missing_paths_from_svn_status_xml, commit_if_changed, get_pending_status.
  repeat logs_step.
Qed.

(** X13. Commands are logged.  In every run, each command that is
    started comes right after the printed line that announces it: the
    command line after [> ], followed by the directory it is started in
    when one is given. *)
Theorem every_command_is_logged (w : World Ext) (r : exn + unit) (w' : World Ext)
    (tr t1 t2 : list event) (cmd : list string) (cwd : option string)
    (o : option (Z * string)) :
  main w = (r, w', tr) →
  tr = t1 ++ Exec cmd cwd o :: t2 →
  ∃ t0, t1 = t0 ++ [Print (banner cmd cwd)].
Proof.
  intros H Heq. pose proof (logs_main _ _ _ _ H _ _ _ _ _ Heq) as Hlast.
  destruct t1 as [|e t1 _] using rev_ind; [done|].
  rewrite last_snoc in Hlast. injection Hlast as ->. by exists t1.
Qed.

(** *** The tool probe and the status text *)

(** X14. [ensure_tool] succeeds exactly when the probe [name --version]
    can be started and exits with 0, and then prints no error.
    Otherwise the last line it prints is the tool-not-found error, also
    where the tool was found and exited with another status or may not
    be executed, and the exception of the probe itself is raised again:
    [CalledProcessError] with the status, or the [OSError] of the failed
    start, the world then being as it was. *)
Theorem ensure_tool_outcome (name : string) (w : World Ext) (r : exn + unit)
    (w' : World Ext) (tr : list event) :
  ensure_tool name w = (r, w', tr) →
  ∃ o, tr = ran [name; "--version"] None o
            ++ (if r is inr _ then []
                else [Print ("ERROR: Required tool not found: " +:+ name)])
    ∧ match o with
      | Some (rc, out) =>
          spawn [name; "--version"] None w = Exited rc out w'
          ∧ r = if decide (rc = 0%Z) then inr tt
                else inl (CalledProcessError rc [name; "--version"])
      | None =>
          ∃ f, spawn [name; "--version"] None w = NotStarted f ∧ w' = w
               ∧ r = inl (raised_on_start f)
      end.
Proof.
  unfold ensure_tool, try_except, run, subprocess_run, bind, print, raise, ret. simpl.
  destruct (spawn [name; "--version"] None w) as [rc out w1|f];
    [destruct (rc =? 0)%Z eqn:Hrc|destruct f as [| |errno]]; simpl;
    intros [= <- <- <-].
  - apply Z.eqb_eq in Hrc as ->. by exists (Some (0%Z, out)).
  - apply Z.eqb_neq in Hrc. exists (Some (rc, out)). by rewrite decide_False.
  - exists None. split; [done|]. by exists NotFound.
  - exists None. split; [done|]. by exists NotPermitted.
  - exists None. split; [done|]. by exists (OtherFailure errno).
Qed.

(** X15. [get_pending_status] returns the captured output of [svn
    status] without the whitespace at its two ends, and the flag it
    returns with it is true exactly when that output has a character
    that is not whitespace. *)
Theorem pending_status_flag (wc_root : string) (w : World Ext) (text : string)
    (flag : bool) (w' : World Ext) (tr : list event) :
  get_pending_status wc_root w = (inr (text, flag), w', tr) →
  ∃ out, tr = ran status_cmd (Some wc_root) (Some (0%Z, out))
    ∧ text = strip out
    ∧ flag = negb (blank out).
Proof.
  unfold get_pending_status. intros H.
  apply bind_ok_inv in H as (cp & w1 & t1 & t2 & H1 & H & ->).
  apply run_ok_inv in H1 as (rc & out & -> & Hrc & Hout).
  rewrite (Hrc eq_refl). rewrite Hout in H. unfold ret in H.
  injection H as <- <- <- <-. exists out. rewrite app_nil_r. split_and!; try done.
  unfold truthy_str. destruct (blank out) eqn:Hb; simpl.
  - apply bool_decide_eq_false. intros Hne. apply Hne. by apply strip_empty.
  - apply bool_decide_eq_true. rewrite strip_empty. by rewrite Hb.
Qed.

End script_more.

(** ** More on the status document *)

Section xml_more.
Import Xml.

Lemma findall_descendants_children (name : string) (cs : list element) :
  filter (λ e, tag e = name) (flat_map iter cs)
  = flat_map (λ c, (if decide (tag c = name) then [c] else [])
                   ++ findall_descendants name c) cs.
Proof.
  induction cs as [|c cs IH]; [done|]. simpl.
  rewrite filter_app, IH. f_equal.
  rewrite iter_unfold, filter_cons. unfold findall_descendants.
  by destruct (decide (tag c = name)).
Qed.

Lemma omap_flat_map {A B C : Type} (f : B → option C) (g : A → list B) (l : list A) :
  omap f (flat_map g l) = flat_map (λ x, omap f (g x)) l.
Proof. induction l as [|x l IH]; [done|]. simpl. by rewrite omap_app, IH. Qed.

(** X16. The reader, level by level.  The list returned for an element
    is made of what its children contribute, from left to right; a child
    contributes its own path if it is an [entry] in state [missing] with
    a path that is not empty, followed by what is returned for the child
    itself.  So the tag and the attributes of the root play no part, an
    entry comes before the entries nested in it, and a path that occurs
    in several entries is returned once for each. *)
Theorem missing_paths_by_level (t : string) (a : gmap string string)
    (cs : list element) :
  missing_paths (Element t a cs)
  = flat_map (λ c, (if decide (tag c = "entry") then option_list (appended c) else [])
                   ++ missing_paths c) cs.
Proof.
  rewrite missing_paths_omap. unfold findall_descendants. simpl.
  rewrite findall_descendants_children, omap_flat_map.
  apply flat_map_ext. intros c. rewrite omap_app, missing_paths_omap. f_equal.
  destruct (decide (tag c = "entry")); [|done]. simpl. by destruct (appended c).
Qed.

End xml_more.

(** ** The properties at work *)

Section more_witnesses.
Import Mirror.

Lemma replay_run_eq (w : World Answers) :
  @main Answers replay w = ((replay_run w).1.1, (replay_run w).1.2, (replay_run w).2).
Proof. unfold replay_run. by destruct (main _) as [[? ?] ?]. Defined.

Lemma missing_paths_exact_witness :
  Exec (rm_cmd "old.txt") (Some scripted_wc) (Some (0%Z, ""))
    ∈ (scripted_run changes_script).2
  ∧ runs "rm" (Exec (rm_cmd "old.txt") (Some scripted_wc) (Some (0%Z, ""))) = true
  ∧ ∃ cwd' out root e p,
      Exec status_xml_cmd cwd' (Some (0%Z, out)) ∈ (scripted_run changes_script).2
      ∧ scripted_fromstring out = Some root
      ∧ Xml.descendant root e ∧ Xml.tag e = "entry"
      ∧ Xml.item_state e = Some "missing" ∧ Xml.get e "path" = Some p ∧ p ≠ ""
      ∧ rm_cmd "old.txt" = rm_cmd p.
Proof.
  assert (Hin : Exec (rm_cmd "old.txt") (Some scripted_wc) (Some (0%Z, ""))
                ∈ (scripted_run changes_script).2) by compute_done.
  split; [exact Hin|]. split; [reflexivity|].
  exact (proj2 (@missing_paths_exact Script scripted) _ _ _ _ _ _ _
           (scripted_run_eq changes_script) Hin eq_refl).
Defined.

Lemma mirror_identical_outside_metadata_witness :
  wf sample_source ∧ wf sample_wc ∧ sample_source !! [] = Some Dir
  ∧ no_kind_clash sample_source sample_wc
  ∧ ∃ t', mirror sample_source sample_wc = Ok t'
      ∧ ∀ q, ¬ svn_protected sample_wc q → t' !! q = sample_source !! q.
Proof.
  assert (Hsrc : wf sample_source) by (apply wf_by_entries; compute_done).
  assert (Hwc : wf sample_wc) by (apply wf_by_entries; compute_done).
  assert (Hc : no_kind_clash sample_source sample_wc)
    by (apply no_kind_clash_by_entries; compute_done).
  split_and!; [done..|].
  exact (mirror_identical_outside_metadata sample_source sample_wc Hsrc Hwc eq_refl Hc).
Defined.

Lemma mirror_keeps_metadata_witness :
  wf sample_source ∧ wf sample_wc ∧ sample_source !! [] = Some Dir
  ∧ no_kind_clash sample_source sample_wc
  ∧ sample_source !! [".svn"] = None
  ∧ ∃ t', mirror sample_source sample_wc = Ok t'
      ∧ ∀ q, svn_protected sample_wc q → t' !! q = sample_wc !! q.
Proof.
  assert (Hsrc : wf sample_source) by (apply wf_by_entries; compute_done).
  assert (Hwc : wf sample_wc) by (apply wf_by_entries; compute_done).
  assert (Hc : no_kind_clash sample_source sample_wc)
    by (apply no_kind_clash_by_entries; compute_done).
  split_and!; [done..|].
  exact (mirror_keeps_metadata sample_source sample_wc Hsrc Hwc eq_refl Hc eq_refl).
Defined.

Lemma mirror_of_file_source_empties_witness :
  wf sample_wc
  ∧ ∃ t', mirror {[ [] := File "a" ]} sample_wc = Ok t'
      ∧ ∀ q, t' !! q = if decide (q ≠ [] ∧ ¬ svn_protected sample_wc q)
                       then None else sample_wc !! q.
Proof.
  assert (Hwc : wf sample_wc) by (apply wf_by_entries; compute_done).
  split; [done|]. exact (mirror_of_file_source_empties "a" sample_wc Hwc).
Defined.


Lemma missing_required_variable_exits_witness :
  truthy (environ unconfigured !! "SOURCE_PATH") = false
  ∧ @main Answers replay unconfigured
    = (inl (SystemExit 1), unconfigured,
       [Print "ERROR: Missing required environment variable: SOURCE_PATH"]).
Proof.
  split; [reflexivity|].
  exact (@missing_required_variable_exits Answers replay unconfigured "SOURCE_PATH"
           (or_introl eq_refl) eq_refl).
Defined.

Lemma missing_source_exits_witness :
  truthy (environ no_source !! "SOURCE_PATH") = true
  ∧ truthy (environ no_source !! "SVN_URL") = true
  ∧ exists_ (source_tree no_source) [] = false
  ∧ @main Answers replay no_source
    = (inl (SystemExit 1), no_source, [Print "ERROR: Source path not found: /export"]).
Proof.
  split_and!; [reflexivity..|].
  exact (@missing_source_exits Answers replay no_source eq_refl eq_refl eq_refl).
Defined.

Lemma commands_of_a_run_witness :
  ∃ wc_root, ∀ cmd cwd o,
    Exec cmd cwd o ∈ (scripted_run changes_script).2 →
    main_command (config_of (scripted_world changes_script)) wc_root cmd cwd.
Proof.
  exact (@commands_of_a_run Script scripted _ _ _ _ (scripted_run_eq changes_script)).
Defined.

Lemma commit_message_from_environment_witness :
  Exec (commit_cmd (config_of (scripted_world changes_script)))
       (Some scripted_wc) (Some (0%Z, "")) ∈ (scripted_run changes_script).2
  ∧ commit_cmd (config_of (scripted_world changes_script))
    = with_credentials (config_of (scripted_world changes_script))
        ["svn"; "commit"; "-m"; "Automated sync from unknown at 20260101-000000";
         "--non-interactive"; "--trust-server-cert"].
Proof.
  assert (Hin : Exec (commit_cmd (config_of (scripted_world changes_script)))
                  (Some scripted_wc) (Some (0%Z, ""))
                ∈ (scripted_run changes_script).2) by compute_done.
  split; [exact Hin|].
  exact (@commit_message_from_environment Script scripted _ _ _ _ _ _ _
           (scripted_run_eq changes_script) Hin eq_refl).
Defined.

Lemma removes_follow_status_document_witness :
  scheduled (scripted_run changes_script).2 = []
  ∨ ∃ cwd out root,
      Exec status_xml_cmd cwd (Some (0%Z, out)) ∈ (scripted_run changes_script).2
      ∧ scripted_fromstring out = Some root
      ∧ scheduled (scripted_run changes_script).2 `prefix_of` Xml.missing_paths root.
Proof.
  exact (@removes_follow_status_document Script scripted _ _ _ _
           (scripted_run_eq changes_script)).
Defined.

Lemma successful_run_witness :
  (scripted_run changes_script).1.1 = inr tt
  ∧ ∃ wc_root (windows : bool) xml root out,
      Exec status_xml_cmd (Some wc_root) (Some (0%Z, xml))
        ∈ (scripted_run changes_script).2
      ∧ scripted_fromstring xml = Some root
      ∧ Exec status_cmd (Some wc_root) (Some (0%Z, out)) ∈ (scripted_run changes_script).2
      ∧ commands (scripted_run changes_script).2
        = [["svn"; "--version"];
           checkout_cmd (config_of (scripted_world changes_script)) wc_root;
           ["svn"; "update"]]
          ++ (if windows
              then [robocopy_cmd (config_of (scripted_world changes_script)) wc_root]
              else [])
          ++ [status_xml_cmd]
          ++ (rm_cmd <$> Xml.missing_paths root)
          ++ [add_cmd; status_cmd]
          ++ (if decide (strip out = "") then []
              else [commit_cmd (config_of (scripted_world changes_script))])
      ∧ last (scripted_run changes_script).2
        = Some (Print (if decide (strip out = "")
                       then "No changes detected. Skipping commit."
                       else nl +:+ "Commit finished successfully.")).
Proof.
  assert (Hok : (scripted_run changes_script).1.1 = inr tt) by (by vm_compute).
  split; [exact Hok|].
  apply (@successful_run Script scripted (scripted_world changes_script)
           (scripted_run changes_script).1.2).
  rewrite <- Hok. apply scripted_run_eq.
Defined.

Lemma robocopy_status_is_ignored_witness :
  Exec ["robocopy"; "/export"; scripted_wc; "/MIR"; "/XD"; ".svn";
        "/MT:8"; "/R:2"; "/W:2"; "/NFL"; "/NDL"; "/NP"] None (Some (3%Z, ""))
    ∈ (replay_run windows).2
  ∧ ∃ cwd' o, Exec status_xml_cmd cwd' o ∈ (replay_run windows).2.
Proof.
  assert (Hin : Exec ["robocopy"; "/export"; scripted_wc; "/MIR"; "/XD"; ".svn";
                      "/MT:8"; "/R:2"; "/W:2"; "/NFL"; "/NDL"; "/NP"] None
                  (Some (3%Z, "")) ∈ (replay_run windows).2) by compute_done.
  split; [exact Hin|].
  exact (@robocopy_status_is_ignored Answers replay _ _ _ _ _ _ _ _
           (replay_run_eq windows) Hin).
Defined.

Lemma ensure_tool_outcome_witness :
  ∃ o, [Print "> svn --version"; Exec ["svn"; "--version"] None None;
        Print "ERROR: Required tool not found: svn"]
       = ran ["svn"; "--version"] None o
         ++ [Print ("ERROR: Required tool not found: " +:+ "svn")]
    ∧ match o with
      | Some (rc, out) =>
          replay_spawn ["svn"; "--version"] None not_executable
          = Exited rc out not_executable
          ∧ inl PermissionError
            = if decide (rc = 0%Z) then inr tt
              else inl (CalledProcessError rc ["svn"; "--version"])
      | None =>
          ∃ f, replay_spawn ["svn"; "--version"] None not_executable = NotStarted f
               ∧ not_executable = not_executable
               ∧ @inl exn unit PermissionError = inl (raised_on_start f)
      end.
Proof.
  exact (@ensure_tool_outcome Answers replay "svn" not_executable
           (inl PermissionError) not_executable
           [Print "> svn --version"; Exec ["svn"; "--version"] None None;
            Print "ERROR: Required tool not found: svn"] eq_refl).
Defined.

Lemma pending_status_flag_witness :
  ∃ out, ran status_cmd (Some scripted_wc) (Some (0%Z, "D       old.txt"))
         = ran status_cmd (Some scripted_wc) (Some (0%Z, out))
    ∧ "D       old.txt" = strip out
    ∧ true = negb (blank out).
Proof.
  exact (@pending_status_flag Script scripted scripted_wc (scripted_world changes_script)
           "D       old.txt" true (scripted_world changes_script)
           (ran status_cmd (Some scripted_wc) (Some (0%Z, "D       old.txt"))) eq_refl).
Defined.

Lemma every_command_is_logged_witness :
  (scripted_run changes_script).2
  = take 14 (scripted_run changes_script).2
    ++ Exec add_cmd (Some scripted_wc) (Some (0%Z, ""))
    :: drop 15 (scripted_run changes_script).2
  ∧ ∃ t0, take 14 (scripted_run changes_script).2
          = t0 ++ [Print (banner add_cmd (Some scripted_wc))].
Proof.
  assert (Hsplit : (scripted_run changes_script).2
    = take 14 (scripted_run changes_script).2
      ++ Exec add_cmd (Some scripted_wc) (Some (0%Z, ""))
      :: drop 15 (scripted_run changes_script).2) by (by vm_compute).
  split; [exact Hsplit|].
  exact (@every_command_is_logged Script scripted _ _ _ _ _ _ _ _ _
           (scripted_run_eq changes_script) Hsplit).
Defined.

End more_witnesses.
